(** * SchedulerLibev: the libev-backed input-output scheduler

    A shallow embedding of [lib/Scheduler/SchedulerLibev.cpp].  The scheduler
    object, the watcher objects it allocates and the libev loops it drives
    are one explicit state; every method is a state transformer that may
    return, throw an ArangoDB exception, or fault (undefined behaviour in the
    C++ sense: touching a deleted watcher, a cast to the wrong watcher
    struct, an out-of-bounds array slot).

    Threads are not modelled as such: the calls of all threads and the
    wakeups of all loops form one sequence, a method call or one wakeup of a
    loop at a time.  libev, the tasks and the scheduler threads are outside
    the file; what is assumed of them is said where they are introduced. *)

From Stdlib Require Import ZArith List Bool Lia.
From stdpp Require Import base option list gmap fin_maps.

Local Open Scope Z_scope.

(** ** Constants *)

(** Modelled from the spec: the event masks of libev's [ev.h], which is not
    under [src/].  Only their being distinct single bits matters below. *)
Definition EV_READ     : Z := 0x01.
Definition EV_WRITE    : Z := 0x02.
Definition EV_TIMEOUT  : Z := 0x100.
Definition EV_TIMER    : Z := EV_TIMEOUT.
Definition EV_PERIODIC : Z := 0x200.
Definition EV_SIGNAL   : Z := 0x400.
Definition EV_ASYNC    : Z := 0x80000.

(** Modelled from the spec: the [EventType] values of [Scheduler/events.h],
    which is not under [src/]: section 3's EventKind, a tagged set of
    combinable values used as a bitmask. *)
Definition EVENT_ASYNC        : Z := 1.
Definition EVENT_PERIODIC     : Z := 2.
Definition EVENT_SIGNAL       : Z := 4.
Definition EVENT_SOCKET_READ  : Z := 8.
Definition EVENT_SOCKET_WRITE : Z := 16.
Definition EVENT_TIMER        : Z := 32.

(** Modelled from the spec: the internal-error condition of section 7,
    [TRI_ERROR_INTERNAL] of [Basics/errors.h], which is not under [src/]. *)
Definition TRI_ERROR_INTERNAL : Z := 4.

(** [revents & BIT] used as a C condition. *)
Definition has_bit (revents bit : Z) : bool := negb (Z.land revents bit =? 0).

(** ** Data *)

(** Pointers.  A watcher lives at a heap address; [nullptr] is [None].
    A [struct ev_loop*] is the number of the libev loop it points to. *)
Abbreviation addr := nat (only parsing).
Abbreviation EventToken := (option nat) (only parsing).
Abbreviation Task := nat (only parsing).
Abbreviation loop_ptr := nat (only parsing).

(** The libev base struct of a watcher, one case per watcher struct of the
    file ([ev_async], [ev_io], [ev_periodic], [ev_signal], [ev_timer]).
    Time stamps ([ev_tstamp]) are counted in a fixed unit. *)
Inductive ev_data : Type :=
| ev_async (sent : bool)
| ev_io (fd : Z) (events : Z)
| ev_periodic (at_ : Z) (offset : Z) (interval : Z)
| ev_signal (signum : Z)
| ev_timer (at_ : Z) (repeat : Z).

Inductive ev_kind : Type := K_async | K_io | K_periodic | K_signal | K_timer.

Definition kind_of (d : ev_data) : ev_kind :=
  match d with
  | ev_async _ => K_async
  | ev_io _ _ => K_io
  | ev_periodic _ _ _ => K_periodic
  | ev_signal _ => K_signal
  | ev_timer _ _ => K_timer
  end.

Global Instance ev_kind_eq_dec : EqDecision ev_kind.
Proof. solve_decision. Defined.

(** [struct XWatcher : public ev_X, Watcher { struct ev_loop* loop; Task* task; }].
    [ev_reg] is libev's side of the object: the loop the watcher is started
    on, [None] while it is not active ([ev_is_active]).  [loop] is [None]
    until the field has been assigned. *)
Record Watcher : Type := mkWatcher {
  ev : ev_data;
  ev_reg : option loop_ptr;
  type : Z;
  loop : option loop_ptr;
  task : option Task
}.

Definition ev_is_active (w : Watcher) : bool :=
  match ev_reg w with Some _ => true | None => false end.

(** A waker: a bare [ev_async] with [wakerCallback]. *)
Record waker_t : Type := mkWaker {
  wk_reg : option loop_ptr;
  wk_sent : bool
}.

(** What libev keeps per loop: its clock and whether [ev_unloop] was called. *)
Record ev_loop_t : Type := mkLoop {
  mn_now : Z;
  loop_done : bool
}.

Inductive ptr : Type :=
| PWatcher (a : addr)
| PWaker (i : nat).

(** The calls the scheduler makes into libev, the thread objects and the
    allocator, in program order. *)
Inductive Action : Type :=
| A_start (k : ev_kind) (l : loop_ptr) (w : ptr)
| A_stop (k : ev_kind) (l : loop_ptr) (w : ptr)
| A_again (k : ev_kind) (l : loop_ptr) (w : ptr)
| A_async_send (l : loop_ptr) (w : ptr)
| A_loop_destroy (l : loop_ptr)
| A_default_destroy
| A_beginShutdown (i : nat)
| A_thread_stop (i : nat)
| A_usleep (us : Z)
| A_delete_watcher (a : addr)
| A_delete_thread (i : nat)
| A_delete_waker (i : nat)
| A_delete_loops
| A_delete_threads
| A_delete_wakers.

(** One [task->handleEvent(watcher, events)] invocation. *)
Record Invocation : Type := mkInvocation {
  inv_task : Task;
  inv_watcher : addr;
  inv_events : Z
}.

(** The scheduler with everything it points to.  [_loops] and [_wakers]
    are the arrays of the class; [evloops] are libev's loops, indexed by
    [loop_ptr]; [heap] holds the watchers that were allocated with [new] and
    not yet deleted, [next] is the next fresh address; [active_tasks] are
    the tasks whose [isActive()] answers true; [trace] and [invocations]
    record what the scheduler did. *)
Record Scheduler : Type := mkScheduler {
  nrThreads : nat;
  _loops : list loop_ptr;
  _wakers : list waker_t;
  evloops : list ev_loop_t;
  heap : gmap addr Watcher;
  next : addr;
  active_tasks : gset Task;
  trace : list Action;
  invocations : list Invocation
}.

Definition set_heap (h : gmap addr Watcher) (s : Scheduler) : Scheduler :=
  mkScheduler (nrThreads s) (_loops s) (_wakers s) (evloops s) h (next s)
              (active_tasks s) (trace s) (invocations s).

Definition set_next (n : addr) (s : Scheduler) : Scheduler :=
  mkScheduler (nrThreads s) (_loops s) (_wakers s) (evloops s) (heap s) n
              (active_tasks s) (trace s) (invocations s).

Definition set_wakers (ws : list waker_t) (s : Scheduler) : Scheduler :=
  mkScheduler (nrThreads s) (_loops s) ws (evloops s) (heap s) (next s)
              (active_tasks s) (trace s) (invocations s).

Definition set_evloops (ls : list ev_loop_t) (s : Scheduler) : Scheduler :=
  mkScheduler (nrThreads s) (_loops s) (_wakers s) ls (heap s) (next s)
              (active_tasks s) (trace s) (invocations s).

Definition set_active_tasks (ts : gset Task) (s : Scheduler) : Scheduler :=
  mkScheduler (nrThreads s) (_loops s) (_wakers s) (evloops s) (heap s) (next s)
              ts (trace s) (invocations s).

Definition set_trace (t : list Action) (s : Scheduler) : Scheduler :=
  mkScheduler (nrThreads s) (_loops s) (_wakers s) (evloops s) (heap s) (next s)
              (active_tasks s) t (invocations s).

Definition set_invocations (c : list Invocation) (s : Scheduler) : Scheduler :=
  mkScheduler (nrThreads s) (_loops s) (_wakers s) (evloops s) (heap s) (next s)
              (active_tasks s) (trace s) c.

(** ** The monad of scheduler code *)

Inductive Result (A : Type) : Type :=
| Ok (a : A) (s : Scheduler)
| Throw (code : Z) (s : Scheduler)
| Fault.
Arguments Ok {A} a s.
Arguments Throw {A} code s.
Arguments Fault {A}.

Definition M (A : Type) : Type := Scheduler → Result A.

Global Instance M_ret : MRet M := λ A a s, Ok a s.
Global Instance M_bind : MBind M := λ A B f m s,
  match m s with
  | Ok a s' => f a s'
  | Throw c s' => Throw c s'
  | Fault => Fault
  end.

Definition throw {A} (code : Z) : M A := λ s, Throw code s.
Definition fault {A} : M A := λ _, Fault.
Definition get : M Scheduler := λ s, Ok s s.
Definition modify (f : Scheduler → Scheduler) : M unit := λ s, Ok tt (f s).

Definition skip : M unit := mret tt.

(** [for (x : xs) body(x)] *)
Fixpoint for_each {A} (xs : list A) (body : A → M unit) : M unit :=
  match xs with
  | [] => mret tt
  | x :: xs' => body x ;; for_each xs' body
  end.

Definition emit (x : Action) : M unit := modify (λ s, set_trace (trace s ++ [x]) s).

(** [*a]: reading through a pointer to a deleted watcher faults. *)
Definition deref (a : addr) : M Watcher := λ s,
  match heap s !! a with
  | Some w => Ok w s
  | None => Fault
  end.

(** [(XWatcher* ) token] followed by a member access: the object must be of
    that struct. *)
Definition deref_as (k : ev_kind) (a : addr) : M Watcher :=
  w ← deref a;
  if decide (kind_of (ev w) = k) then mret w else fault.

Definition store (a : addr) (w : Watcher) : M unit :=
  modify (λ s, set_heap (<[a := w]> (heap s)) s).

(** [new XWatcher]: the constructor sets only the [Watcher::type] tag. *)
Definition new_watcher (d : ev_data) (ty : Z) : M addr := λ s,
  let a := next s in
  Ok a (set_next (S a) (set_heap (<[a := mkWatcher d None ty None None]> (heap s)) s)).

(** [delete w] *)
Definition delete_watcher (a : addr) : M unit :=
  _ ← deref a;
  modify (λ s, set_heap (delete a (heap s)) s) ;;
  emit (A_delete_watcher a).

(** [watcher->loop] *)
Definition loop_of (w : Watcher) : M loop_ptr :=
  match loop w with
  | Some l => mret l
  | None => fault
  end.

Definition set_ev (d : ev_data) (w : Watcher) : Watcher :=
  mkWatcher d (ev_reg w) (type w) (loop w) (task w).
Definition set_reg (r : option loop_ptr) (w : Watcher) : Watcher :=
  mkWatcher (ev w) r (type w) (loop w) (task w).
Definition set_loop_task (l : loop_ptr) (t : option Task) (w : Watcher) : Watcher :=
  mkWatcher (ev w) (ev_reg w) (type w) (Some l) t.

(** ** libev *)

(** Modelled from the spec: libev itself ([ev.c]) is not under [src/].  The
    functions below are the ones the scheduler calls.  Starting and stopping
    are idempotent on the registration (section 4.2); sending to an async
    watcher is a trigger, not a queue (section 4.3); a timer whose repeat
    interval is zero is single-shot (section 4.2).  Where the spec is silent
    the functions follow libev's documented interface: [ev_timer_again]
    restarts a timer from its repeat interval and stops one that has none,
    and a timer with a non-zero repeat interval is rescheduled when it
    expires. *)
Module Libev.

Definition loop_now (l : loop_ptr) : M Z := λ s,
  match evloops s !! l with
  | Some L => Ok (mn_now L) s
  | None => Fault
  end.

(** The common part of every [ev_X_start]: nothing happens on an active
    watcher, otherwise the watcher is registered with loop [l]. *)
Definition ev_start (l : loop_ptr) (a : addr) (w : Watcher) : M unit :=
  store a (set_reg (Some l) w).

(** The common part of every [ev_X_stop]: nothing happens on a watcher that
    is not active; a watcher can only be stopped on the loop it is
    registered with. *)
Definition ev_stop (l : loop_ptr) (a : addr) (w : Watcher) : M unit :=
  match ev_reg w with
  | None => mret tt
  | Some l' => if decide (l' = l) then store a (set_reg None w) else fault
  end.

Definition get_waker (i : nat) : M waker_t := λ s,
  match _wakers s !! i with
  | Some k => Ok k s
  | None => Fault
  end.

Definition put_waker (i : nat) (k : waker_t) : M unit :=
  modify (λ s, set_wakers (<[i := k]> (_wakers s)) s).

Definition ev_async_init (a : addr) : M unit :=
  w ← deref_as K_async a;
  store a (set_reg None (set_ev (ev_async false) w)).

Definition ev_async_start (l : loop_ptr) (p : ptr) : M unit :=
  emit (A_start K_async l p) ;;
  match p with
  | PWatcher a =>
      w ← deref_as K_async a;
      if ev_is_active w then mret tt
      else ev_start l a (set_ev (ev_async false) w)
  | PWaker i =>
      k ← get_waker i;
      match wk_reg k with
      | Some _ => mret tt
      | None => put_waker i (mkWaker (Some l) false)
      end
  end.

Definition ev_async_stop (l : loop_ptr) (p : ptr) : M unit :=
  emit (A_stop K_async l p) ;;
  match p with
  | PWatcher a => w ← deref_as K_async a; ev_stop l a w
  | PWaker i =>
      k ← get_waker i;
      match wk_reg k with
      | None => mret tt
      | Some l' =>
          if decide (l' = l) then put_waker i (mkWaker None (wk_sent k)) else fault
      end
  end.

Definition ev_async_send (l : loop_ptr) (p : ptr) : M unit :=
  emit (A_async_send l p) ;;
  match p with
  | PWatcher a => w ← deref_as K_async a; store a (set_ev (ev_async true) w)
  | PWaker i => k ← get_waker i; put_waker i (mkWaker (wk_reg k) true)
  end.

Definition ev_io_init (a : addr) (fd events : Z) : M unit :=
  w ← deref_as K_io a;
  store a (set_reg None (set_ev (ev_io fd events) w)).

Definition ev_io_start (l : loop_ptr) (a : addr) : M unit :=
  emit (A_start K_io l (PWatcher a)) ;;
  w ← deref_as K_io a;
  if ev_is_active w then mret tt else ev_start l a w.

Definition ev_io_stop (l : loop_ptr) (a : addr) : M unit :=
  emit (A_stop K_io l (PWatcher a)) ;;
  w ← deref_as K_io a;
  ev_stop l a w.

Definition ev_signal_init (a : addr) (signum : Z) : M unit :=
  w ← deref_as K_signal a;
  store a (set_reg None (set_ev (ev_signal signum) w)).

Definition ev_signal_start (l : loop_ptr) (a : addr) : M unit :=
  emit (A_start K_signal l (PWatcher a)) ;;
  w ← deref_as K_signal a;
  if ev_is_active w then mret tt else ev_start l a w.

Definition ev_signal_stop (l : loop_ptr) (a : addr) : M unit :=
  emit (A_stop K_signal l (PWatcher a)) ;;
  w ← deref_as K_signal a;
  ev_stop l a w.

(** The next point of the grid [offset + k * interval] after [now]; the
    absolute time [offset] when there is no interval. *)
Definition periodic_recalc (now offset interval : Z) : Z :=
  if interval =? 0 then offset
  else offset + interval * ((now - offset) / interval + 1).

Definition ev_periodic_set (a : addr) (offset interval : Z) : M unit :=
  w ← deref_as K_periodic a;
  match ev w with
  | ev_periodic at_ _ _ => store a (set_ev (ev_periodic at_ offset interval) w)
  | _ => fault
  end.

Definition ev_periodic_init (a : addr) (offset interval : Z) : M unit :=
  w ← deref_as K_periodic a;
  store a (set_reg None (set_ev (ev_periodic 0 offset interval) w)).

Definition periodic_start (l : loop_ptr) (a : addr) : M unit :=
  w ← deref_as K_periodic a;
  if ev_is_active w then mret tt
  else
    match ev w with
    | ev_periodic _ offset interval =>
        now ← loop_now l;
        ev_start l a (set_ev (ev_periodic (periodic_recalc now offset interval) offset interval) w)
    | _ => fault
    end.

Definition periodic_stop (l : loop_ptr) (a : addr) : M unit :=
  w ← deref_as K_periodic a;
  ev_stop l a w.

Definition ev_periodic_start (l : loop_ptr) (a : addr) : M unit :=
  emit (A_start K_periodic l (PWatcher a)) ;;
  periodic_start l a.

Definition ev_periodic_stop (l : loop_ptr) (a : addr) : M unit :=
  emit (A_stop K_periodic l (PWatcher a)) ;;
  periodic_stop l a.

(** [ev_periodic_again]: stop, then start. *)
Definition ev_periodic_again (l : loop_ptr) (a : addr) : M unit :=
  emit (A_again K_periodic l (PWatcher a)) ;;
  periodic_stop l a ;;
  periodic_start l a.

(** [ev_timer_init(w, cb, after, repeat)] and [ev_timer_set(w, after, repeat)]
    store [after] in the [at] field. *)
Definition ev_timer_set (a : addr) (after repeat : Z) : M unit :=
  w ← deref_as K_timer a;
  store a (set_ev (ev_timer after repeat) w).

Definition ev_timer_init (a : addr) (after repeat : Z) : M unit :=
  w ← deref_as K_timer a;
  store a (set_reg None (set_ev (ev_timer after repeat) w)).

(** [ev_timer_start]: the expiry time becomes [mn_now + at]. *)
Definition timer_start (l : loop_ptr) (a : addr) : M unit :=
  w ← deref_as K_timer a;
  if ev_is_active w then mret tt
  else
    match ev w with
    | ev_timer at_ repeat =>
        now ← loop_now l;
        ev_start l a (set_ev (ev_timer (at_ + now) repeat) w)
    | _ => fault
    end.

(** [ev_timer_stop]: [at] goes back to the time that was left. *)
Definition timer_stop (l : loop_ptr) (a : addr) : M unit :=
  w ← deref_as K_timer a;
  if ev_is_active w then
    match ev w with
    | ev_timer at_ repeat =>
        now ← loop_now l;
        ev_stop l a (set_ev (ev_timer (at_ - now) repeat) w)
    | _ => fault
    end
  else mret tt.

Definition ev_timer_start (l : loop_ptr) (a : addr) : M unit :=
  emit (A_start K_timer l (PWatcher a)) ;;
  timer_start l a.

Definition ev_timer_stop (l : loop_ptr) (a : addr) : M unit :=
  emit (A_stop K_timer l (PWatcher a)) ;;
  timer_stop l a.

(** [ev_timer_again]: an active timer with a repeat interval expires
    [repeat] from now, an active timer without one is stopped; a stopped
    timer with a repeat interval is started with it. *)
Definition ev_timer_again (l : loop_ptr) (a : addr) : M unit :=
  emit (A_again K_timer l (PWatcher a)) ;;
  w ← deref_as K_timer a;
  match ev w with
  | ev_timer at_ repeat =>
      if ev_is_active w then
        if repeat =? 0 then timer_stop l a
        else now ← loop_now l; store a (set_ev (ev_timer (now + repeat) repeat) w)
      else
        if repeat =? 0 then mret tt
        else store a (set_ev (ev_timer repeat repeat) w) ;; timer_start l a
  | _ => fault
  end.

End Libev.

Import Libev.

(** ** Tasks *)

(** Modelled from the spec: [Task] ([Scheduler/Task.h]) is not under [src/].
    Section 6: a capability with [isActive() -> bool] and
    [handleEvent(watcher, eventKindBitmask)]; the handler's own work is out
    of scope, so an invocation is only recorded. *)
Definition isActive (t : Task) : M bool :=
  λ s, Ok (bool_decide (t ∈ active_tasks s)) s.

Definition handleEvent (t : Task) (watcher : addr) (events : Z) : M unit :=
  modify (λ s, set_invocations (invocations s ++ [mkInvocation t watcher events]) s).

(** ** The callbacks of the anonymous namespace *)

Definition asyncCallback (w : addr) (revents : Z) : M unit :=
  watcher ← deref_as K_async w;
  match task watcher with
  | Some t =>
      if has_bit revents EV_ASYNC then
        b ← isActive t;
        if (b : bool) then handleEvent t w EVENT_ASYNC else skip
      else skip
  | None => skip
  end.

(** [ev_unloop(loop, EVUNLOOP_ALL)] *)
Definition wakerCallback (l : loop_ptr) : M unit := λ s,
  match evloops s !! l with
  | Some L => Ok tt (set_evloops (<[l := mkLoop (mn_now L) true]> (evloops s)) s)
  | None => Fault
  end.

Definition socketCallback (w : addr) (revents : Z) : M unit :=
  watcher ← deref_as K_io w;
  match task watcher with
  | Some t =>
      b ← isActive t;
      if (b : bool) then
        if has_bit revents EV_READ then
          if has_bit revents EV_WRITE then
            handleEvent t w (Z.lor EVENT_SOCKET_READ EVENT_SOCKET_WRITE)
          else
            handleEvent t w EVENT_SOCKET_READ
        else if has_bit revents EV_WRITE then
          handleEvent t w EVENT_SOCKET_WRITE
        else skip
      else skip
  | None => skip
  end.

Definition periodicCallback (w : addr) (revents : Z) : M unit :=
  watcher ← deref_as K_periodic w;
  match task watcher with
  | Some t =>
      if has_bit revents EV_PERIODIC then
        b ← isActive t;
        if (b : bool) then handleEvent t w EVENT_PERIODIC else skip
      else skip
  | None => skip
  end.

Definition signalCallback (w : addr) (revents : Z) : M unit :=
  watcher ← deref_as K_signal w;
  match task watcher with
  | Some t =>
      if has_bit revents EV_SIGNAL then
        b ← isActive t;
        if (b : bool) then handleEvent t w EVENT_SIGNAL else skip
      else skip
  | None => skip
  end.

Definition timerCallback (w : addr) (revents : Z) : M unit :=
  watcher ← deref_as K_timer w;
  match task watcher with
  | Some t =>
      if has_bit revents EV_TIMER then
        b ← isActive t;
        if (b : bool) then handleEvent t w EVENT_TIMER else skip
      else skip
  | None => skip
  end.

(** The callback each [ev_X_init] of the file registers. *)
Definition callback_of (k : ev_kind) : addr → Z → M unit :=
  match k with
  | K_async => asyncCallback
  | K_io => socketCallback
  | K_periodic => periodicCallback
  | K_signal => signalCallback
  | K_timer => timerCallback
  end.

(** ** One wakeup of a loop *)

(** What the outside world hands to one wakeup of the poll: the time that
    went by, the readiness of each descriptor, the signals that arrived. *)
Record PollInput : Type := mkPollInput {
  dt : Z;
  ready : Z → Z;
  signals : list Z
}.

(** Modelled from the spec: one pass of libev's [ev_run] over a single
    watcher (libev is not under [src/]).  The result is the watcher after
    the pass and the events fed to its callback, [0] for none.  A sent async
    is consumed; a descriptor reports the part of its readiness that the
    watcher asked for; a timer that has reached its expiry time is stopped
    when its repeat interval is zero and rescheduled otherwise. *)
Definition reify (l : loop_ptr) (now : Z) (inp : PollInput) (w : Watcher) : Watcher * Z :=
  if decide (ev_reg w = Some l) then
    match ev w with
    | ev_async sent =>
        if sent then (set_ev (ev_async false) w, EV_ASYNC) else (w, 0)
    | ev_io fd events => (w, Z.land events (ready inp fd))
    | ev_periodic at_ offset interval =>
        if at_ <=? now then
          (if interval =? 0 then set_reg None w
           else set_ev (ev_periodic (periodic_recalc now offset interval) offset interval) w,
           EV_PERIODIC)
        else (w, 0)
    | ev_signal signum =>
        if bool_decide (signum ∈ signals inp) then (w, EV_SIGNAL) else (w, 0)
    | ev_timer at_ repeat =>
        if at_ <=? now then
          (if repeat =? 0 then set_reg None (set_ev (ev_timer (at_ - now) repeat) w)
           else set_ev (ev_timer (if now <? at_ + repeat then at_ + repeat else now + repeat) repeat) w,
           EV_TIMER)
        else (w, 0)
    end
  else (w, 0).

(** The pending list: the watchers that were fed an event, with the event. *)
Definition pending_of (l : loop_ptr) (now : Z) (inp : PollInput)
    (ws : list (addr * Watcher)) : list (addr * Z) :=
  omap (λ aw : addr * Watcher,
          let r := (reify l now inp aw.2).2 in
          if r =? 0 then None else Some (aw.1, r)) ws.

(** [w->cb(loop, w, revents)] *)
Definition invoke (p : addr * Z) : M unit :=
  w ← deref p.1;
  callback_of (kind_of (ev w)) p.1 p.2.

Definition waker_fired (l : loop_ptr) (k : waker_t) : bool :=
  bool_decide (wk_reg k = Some l) && wk_sent k.

Definition waker_reify (l : loop_ptr) (k : waker_t) : waker_t :=
  if waker_fired l k then mkWaker (wk_reg k) false else k.

Definition set_now (l : loop_ptr) (now : Z) : M unit := λ s,
  match evloops s !! l with
  | Some L => Ok tt (set_evloops (<[l := mkLoop now (loop_done L)]> (evloops s)) s)
  | None => Fault
  end.

(** Modelled from the spec: one wakeup of [ev_run] on loop [l] (section
    4.1): the clock advances, every watcher registered with the loop is
    passed over once, then the pending callbacks run one after the other. *)
Definition ev_iteration (l : loop_ptr) (inp : PollInput) : M unit :=
  t ← loop_now l;
  let now := t + dt inp in
  set_now l now ;;
  s ← get;
  let pend := pending_of l now inp (map_to_list (heap s)) in
  let woken := existsb (waker_fired l) (_wakers s) in
  modify (λ s : Scheduler,
            set_wakers (waker_reify l <$> _wakers s)
              (set_heap ((λ w : Watcher, (reify l now inp w).1) <$> heap s) s)) ;;
  for_each pend invoke ;;
  if woken then wakerCallback l else skip.

Definition is_done (l : loop_ptr) : M bool := λ s,
  match evloops s !! l with
  | Some L => Ok (loop_done L) s
  | None => Fault
  end.

(** The body of [ev_run], driven by the wakeups the outside world
    supplies: it goes round until a callback has called [ev_unloop]. *)
Fixpoint ev_run (l : loop_ptr) (inputs : list PollInput) : M unit :=
  match inputs with
  | [] => skip
  | inp :: rest =>
      ev_iteration l inp ;;
      d ← is_done l;
      if (d : bool) then skip else ev_run l rest
  end.

(** [ev_loop(l, 0)]: an earlier [ev_unloop] is forgotten on entry. *)
Definition ev_loop (l : loop_ptr) (inputs : list PollInput) : M unit :=
  (λ s, match evloops s !! l with
        | Some L => Ok tt (set_evloops (<[l := mkLoop (mn_now L) false]> (evloops s)) s)
        | None => Fault
        end) ;;
  ev_run l inputs.

(** ** class SchedulerLibev *)

(** [size_t(loop)]: the conversion of an integer to the 64-bit unsigned type. *)
Definition size_t (x : Z) : Z := x mod 2 ^ 64.

(** [arr[i]] on the [_loops] array. *)
Definition loops_at (i : nat) : M loop_ptr := λ s,
  match _loops s !! i with
  | Some l => Ok l s
  | None => Fault
  end.

Definition lookupLoop (loop : Z) : M loop_ptr :=
  s ← get;
  if Z.of_nat (nrThreads s) <=? size_t loop then
    throw TRI_ERROR_INTERNAL
  else
    loops_at (Z.to_nat loop).

(** [watcher->loop] after the cast to [XWatcher*]. *)
Definition watcher_loop (k : ev_kind) (a : addr) : M loop_ptr :=
  w ← deref_as k a;
  loop_of w.

(** [watcher->loop = l; watcher->task = task;] *)
Definition assign_loop_task (a : addr) (l : loop_ptr) (t : option Task) : M unit :=
  w ← deref a;
  store a (set_loop_task l t w).

(** The constructor: [_loops[0]] is the default loop, the others are new
    loops; every loop gets a started waker.  With no thread at all the
    write to [_loops[0]] is out of bounds. *)
Definition SchedulerLibev (concurrency : nat) (now : Z) (tasks : gset Task) : M unit :=
  λ _,
  match concurrency with
  | O => Fault
  | S _ =>
      let s := mkScheduler concurrency (seq 0 concurrency)
                 (replicate concurrency (mkWaker None false))
                 (replicate concurrency (mkLoop now false))
                 ∅ 1%nat tasks [] [] in
      for_each (seq 0 concurrency)
        (λ i, l ← loops_at i; ev_async_start l (PWaker i)) s
  end.

(** [for (size_t i = 0;  i < 100 && isRunning();  ++i) usleep(100);] where
    [running i] is the answer of the call of [isRunning()] in round [i];
    [fuel] is what is left of the hundred rounds. *)
Fixpoint wait_for_threads (running : nat → bool) (fuel i : nat) : M unit :=
  match fuel with
  | O => skip
  | S fuel' =>
      if running i then emit (A_usleep 100) ;; wait_for_threads running fuel' (S i)
      else skip
  end.

Definition ev_loop_destroy (l : loop_ptr) : M unit := emit (A_loop_destroy l).
Definition ev_default_destroy : M unit := emit A_default_destroy.

(** The destructor. *)
Definition SchedulerLibev_destroy (running : nat → bool) : M unit :=
  s ← get;
  let n := nrThreads s in
  for_each (seq 0 n) (λ i, emit (A_beginShutdown i)) ;;
  for_each (seq 0 n) (λ i, emit (A_thread_stop i)) ;;
  wait_for_threads running 100 0 ;;
  for_each (seq 1 (n - 1))
    (λ i, l ← loops_at i; ev_async_stop l (PWaker i) ;; ev_loop_destroy l) ;;
  (l ← loops_at 0; ev_async_stop l (PWaker 0)) ;;
  ev_default_destroy ;;
  for_each (seq 0 n) (λ i, emit (A_delete_thread i) ;; emit (A_delete_waker i)) ;;
  emit A_delete_loops ;;
  emit A_delete_threads ;;
  emit A_delete_wakers.

Definition eventLoop (loop : Z) (inputs : list PollInput) : M unit :=
  l ← lookupLoop loop;
  ev_loop l inputs.

Definition wakeupLoop (loop : Z) : M unit :=
  s ← get;
  if Z.of_nat (nrThreads s) <=? size_t loop then
    throw TRI_ERROR_INTERNAL
  else
    l ← loops_at (Z.to_nat loop);
    ev_async_send l (PWaker (Z.to_nat loop)).

Definition uninstallEvent (watcher : EventToken) : M unit :=
  match watcher with
  | None => skip
  | Some a =>
      w ← deref a;
      let type := type w in
      if type =? EVENT_ASYNC then
        l ← watcher_loop K_async a;
        ev_async_stop l (PWatcher a) ;;
        delete_watcher a
      else if type =? EVENT_PERIODIC then
        l ← watcher_loop K_periodic a;
        ev_periodic_stop l a ;;
        delete_watcher a
      else if type =? EVENT_SIGNAL then
        l ← watcher_loop K_signal a;
        ev_signal_stop l a ;;
        delete_watcher a
      else if type =? EVENT_SOCKET_READ then
        l ← watcher_loop K_io a;
        ev_io_stop l a ;;
        delete_watcher a
      else if type =? EVENT_TIMER then
        l ← watcher_loop K_timer a;
        ev_timer_stop l a ;;
        delete_watcher a
      else skip
  end.

Definition installAsyncEvent (loop : Z) (task : option Task) : M EventToken :=
  watcher ← new_watcher (ev_async false) EVENT_ASYNC;
  l ← lookupLoop loop;
  assign_loop_task watcher l task ;;
  ev_async_init watcher ;;
  l ← watcher_loop K_async watcher;
  ev_async_start l (PWatcher watcher) ;;
  mret (Some watcher).

Definition sendAsync (token : EventToken) : M unit :=
  match token with
  | None => skip
  | Some watcher =>
      l ← watcher_loop K_async watcher;
      ev_async_send l (PWatcher watcher)
  end.

Definition installPeriodicEvent (loop : Z) (task : option Task)
    (offset interval : Z) : M EventToken :=
  watcher ← new_watcher (ev_periodic 0 0 0) EVENT_PERIODIC;
  l ← lookupLoop loop;
  assign_loop_task watcher l task ;;
  ev_periodic_init watcher offset interval ;;
  l ← watcher_loop K_periodic watcher;
  ev_periodic_start l watcher ;;
  mret (Some watcher).

Definition rearmPeriodic (token : EventToken) (offset interval : Z) : M unit :=
  match token with
  | None => skip
  | Some watcher =>
      ev_periodic_set watcher offset interval ;;
      l ← watcher_loop K_periodic watcher;
      ev_periodic_again l watcher
  end.

Definition installSignalEvent (loop : Z) (task : option Task) (signal : Z) : M EventToken :=
  watcher ← new_watcher (ev_signal 0) EVENT_SIGNAL;
  l ← lookupLoop loop;
  assign_loop_task watcher l task ;;
  ev_signal_init watcher signal ;;
  l ← watcher_loop K_signal watcher;
  ev_signal_start l watcher ;;
  mret (Some watcher).

(** [flags] of [installSocketEvent]. *)
Definition socket_flags (type : Z) : Z :=
  let flags := 0 in
  let flags := if has_bit type EVENT_SOCKET_READ then Z.lor flags EV_READ else flags in
  let flags := if has_bit type EVENT_SOCKET_WRITE then Z.lor flags EV_WRITE else flags in
  flags.

Definition installSocketEvent (loop : Z) (type : Z) (task : option Task)
    (fileDescriptor : Z) : M EventToken :=
  watcher ← new_watcher (ev_io 0 0) EVENT_SOCKET_READ;
  l ← lookupLoop loop;
  assign_loop_task watcher l task ;;
  ev_io_init watcher fileDescriptor (socket_flags type) ;;
  l ← watcher_loop K_io watcher;
  ev_io_start l watcher ;;
  mret (Some watcher).

Definition startSocketEvents (token : EventToken) : M unit :=
  match token with
  | None => skip
  | Some watcher =>
      w ← deref_as K_io watcher;
      if negb (ev_is_active w) then
        l ← watcher_loop K_io watcher;
        ev_io_start l watcher
      else skip
  end.

Definition stopSocketEvents (token : EventToken) : M unit :=
  match token with
  | None => skip
  | Some watcher =>
      w ← deref_as K_io watcher;
      if ev_is_active w then
        l ← watcher_loop K_io watcher;
        ev_io_stop l watcher
      else skip
  end.

Definition installTimerEvent (loop : Z) (task : option Task) (timeout : Z) : M EventToken :=
  watcher ← new_watcher (ev_timer 0 0) EVENT_TIMER;
  l ← lookupLoop loop;
  assign_loop_task watcher l task ;;
  ev_timer_init watcher timeout 0 ;;
  l ← watcher_loop K_timer watcher;
  ev_timer_start l watcher ;;
  mret (Some watcher).

Definition clearTimer (token : EventToken) : M unit :=
  match token with
  | None => skip
  | Some watcher =>
      l ← watcher_loop K_timer watcher;
      ev_timer_stop l watcher
  end.

Definition rearmTimer (token : EventToken) (timeout : Z) : M unit :=
  match token with
  | None => skip
  | Some watcher =>
      ev_timer_set watcher 0 timeout ;;
      l ← watcher_loop K_timer watcher;
      ev_timer_again l watcher
  end.

(** The five install operations under one name. *)
Inductive InstallOp : Type :=
| I_async
| I_periodic (offset interval : Z)
| I_signal (signal : Z)
| I_socket (type : Z) (fileDescriptor : Z)
| I_timer (timeout : Z).

Definition install (o : InstallOp) (loop : Z) (task : option Task) : M EventToken :=
  match o with
  | I_async => installAsyncEvent loop task
  | I_periodic offset interval => installPeriodicEvent loop task offset interval
  | I_signal signal => installSignalEvent loop task signal
  | I_socket type fd => installSocketEvent loop type task fd
  | I_timer timeout => installTimerEvent loop task timeout
  end.

Definition install_kind (o : InstallOp) : ev_kind :=
  match o with
  | I_async => K_async
  | I_periodic _ _ => K_periodic
  | I_signal _ => K_signal
  | I_socket _ _ => K_io
  | I_timer _ => K_timer
  end.

(** What a thread of the process can do to a scheduler: call one of its
    methods, let a loop wake up once, or change the liveness of a task. *)
Inductive Call : Type :=
| C_install (o : InstallOp) (loop : Z) (task : option Task)
| C_uninstallEvent (h : EventToken)
| C_sendAsync (h : EventToken)
| C_rearmPeriodic (h : EventToken) (offset interval : Z)
| C_startSocketEvents (h : EventToken)
| C_stopSocketEvents (h : EventToken)
| C_clearTimer (h : EventToken)
| C_rearmTimer (h : EventToken) (timeout : Z)
| C_wakeupLoop (loop : Z)
| C_eventLoop (loop : Z) (inputs : list PollInput)
| C_iteration (loop : Z) (inp : PollInput)
| C_set_active (t : Task) (b : bool).

Definition set_task_active (t : Task) (b : bool) : M unit :=
  modify (λ s, set_active_tasks
                 (if b then active_tasks s ∪ {[t]} else active_tasks s ∖ {[t]}) s).

Definition do_call (c : Call) : M unit :=
  match c with
  | C_install o loop task => install o loop task ;; skip
  | C_uninstallEvent h => uninstallEvent h
  | C_sendAsync h => sendAsync h
  | C_rearmPeriodic h offset interval => rearmPeriodic h offset interval
  | C_startSocketEvents h => startSocketEvents h
  | C_stopSocketEvents h => stopSocketEvents h
  | C_clearTimer h => clearTimer h
  | C_rearmTimer h timeout => rearmTimer h timeout
  | C_wakeupLoop loop => wakeupLoop loop
  | C_eventLoop loop inputs => eventLoop loop inputs
  | C_iteration loop inp => l ← lookupLoop loop; ev_iteration l inp
  | C_set_active t b => set_task_active t b
  end.

(** The states a scheduler can be in: freshly constructed, or one call
    later, whether the call returned or threw. *)
Inductive reachable : Scheduler → Prop :=
| reach_new concurrency now tasks s0 s :
    SchedulerLibev concurrency now tasks s0 = Ok tt s → reachable s
| reach_ok c s s' :
    reachable s → do_call c s = Ok tt s' → reachable s'
| reach_throw c s code s' :
    reachable s → do_call c s = Throw code s' → reachable s'.

(** The invocations that were made for one watcher. *)
Definition invocations_of (a : addr) (l : list Invocation) : list Invocation :=
  filter (λ i, inv_watcher i = a) l.

(** ** Vocabulary of the properties *)

(** The event a callback receives belongs to its watcher: the bit the
    callback tests, either of the two bits for a socket. *)
Definition fires (k : ev_kind) (revents : Z) : bool :=
  match k with
  | K_async => has_bit revents EV_ASYNC
  | K_io => has_bit revents EV_READ || has_bit revents EV_WRITE
  | K_periodic => has_bit revents EV_PERIODIC
  | K_signal => has_bit revents EV_SIGNAL
  | K_timer => has_bit revents EV_TIMER
  end.

(** The event mask a callback hands to [handleEvent]. *)
Definition delivered_mask (k : ev_kind) (revents : Z) : Z :=
  match k with
  | K_async => EVENT_ASYNC
  | K_io =>
      if has_bit revents EV_READ then
        if has_bit revents EV_WRITE then Z.lor EVENT_SOCKET_READ EVENT_SOCKET_WRITE
        else EVENT_SOCKET_READ
      else EVENT_SOCKET_WRITE
  | K_periodic => EVENT_PERIODIC
  | K_signal => EVENT_SIGNAL
  | K_timer => EVENT_TIMER
  end.

(** The invocations one callback run makes, read off the callbacks. *)
Definition delivery (tasks : gset Task) (a : addr) (w : Watcher) (revents : Z)
    : list Invocation :=
  match task w with
  | Some t =>
      if fires (kind_of (ev w)) revents && bool_decide (t ∈ tasks)
      then [mkInvocation t a (delivered_mask (kind_of (ev w)) revents)]
      else []
  | None => []
  end.

(** The tag each watcher struct's constructor passes to [Watcher]. *)
Definition tag_of (k : ev_kind) : Z :=
  match k with
  | K_async => EVENT_ASYNC
  | K_io => EVENT_SOCKET_READ
  | K_periodic => EVENT_PERIODIC
  | K_signal => EVENT_SIGNAL
  | K_timer => EVENT_TIMER
  end.

(** A watcher as the install methods leave it: tagged by its constructor,
    bound to loop [l], and known to libev on that loop or on none. *)
Definition installed (s : Scheduler) (a : addr) (w : Watcher) (l : loop_ptr) : Prop :=
  heap s !! a = Some w ∧
  type w = tag_of (kind_of (ev w)) ∧
  loop w = Some l ∧
  (l < length (evloops s))%nat ∧
  (ev_reg w = None ∨ ev_reg w = Some l).

(** The same, for every watcher on the heap, together with the shape of the
    arrays the constructor builds.  An async watcher that has its loop is
    started: nothing but [uninstallEvent] stops it. *)
Definition watcher_inv (n : nat) (w : Watcher) : Prop :=
  type w = tag_of (kind_of (ev w)) ∧
  match loop w with
  | Some l => (l < n)%nat ∧ (ev_reg w = None ∨ ev_reg w = Some l)
  | None => ev_reg w = None
  end ∧
  (kind_of (ev w) = K_async → is_Some (loop w) → is_Some (ev_reg w)).

Definition inv (s : Scheduler) : Prop :=
  (1 ≤ nrThreads s)%nat ∧
  _loops s = seq 0 (nrThreads s) ∧
  length (_wakers s) = nrThreads s ∧
  length (evloops s) = nrThreads s ∧
  (∀ i k, _wakers s !! i = Some k → wk_reg k = None ∨ wk_reg k = Some i) ∧
  (∀ a w, heap s !! a = Some w → watcher_inv (nrThreads s) w ∧ (a < next s)%nat).

(** [K] calls of [sendAsync] in a row. *)
Fixpoint send_times (K : nat) (h : EventToken) : M unit :=
  match K with
  | O => skip
  | S K' => sendAsync h ;; send_times K' h
  end.

(** One [sendAsync], then one wakeup of the loop, for every input. *)
Fixpoint send_and_drain (h : EventToken) (l : loop_ptr) (inputs : list PollInput) : M unit :=
  match inputs with
  | [] => skip
  | inp :: rest => sendAsync h ;; ev_iteration l inp ;; send_and_drain h l rest
  end.

(** The teardown sequence in the words of section 4.4, for [n] loops and
    [k] rounds of waiting. *)
Definition teardown_signal (n : nat) : list Action :=
  (λ i, A_beginShutdown i) <$> seq 0 n.

Definition teardown_stop_and_wait (n k : nat) : list Action :=
  ((λ i, A_thread_stop i) <$> seq 0 n) ++ replicate k (A_usleep 100).

Definition teardown_other_loops (n : nat) : list Action :=
  flat_map (λ i, [A_stop K_async i (PWaker i); A_loop_destroy i]) (seq 1 (n - 1)).

Definition teardown_default_loop : list Action :=
  [A_stop K_async 0%nat (PWaker 0); A_default_destroy].

Definition teardown_release (n : nat) : list Action :=
  flat_map (λ i, [A_delete_thread i; A_delete_waker i]) (seq 0 n)
  ++ [A_delete_loops; A_delete_threads; A_delete_wakers].

Definition teardown_sequence (n k : nat) : list Action :=
  teardown_signal n ++ teardown_stop_and_wait n k ++ teardown_other_loops n
  ++ teardown_default_loop ++ teardown_release n.

(** The number of rounds the destructor waits: the leading rounds in which
    a thread is still running, a hundred at most. *)
Fixpoint rounds_waited (running : nat → bool) (fuel i : nat) : nat :=
  match fuel with
  | O => O
  | S fuel' => if running i then S (rounds_waited running fuel' (S i)) else O
  end.

(** The invocations a pending list makes, watcher by watcher. *)
Definition deliveries (tasks : gset Task) (h : gmap addr Watcher)
    (pend : list (addr * Z)) : list Invocation :=
  flat_map (λ p : addr * Z,
              match h !! p.1 with
              | Some w => delivery tasks p.1 w p.2
              | None => []
              end) pend.

(** What one wakeup does to a single watcher: the invocations it makes. *)
Definition wakeup_of (tasks : gset Task) (l : loop_ptr) (now : Z) (inp : PollInput)
    (a : addr) (w : Watcher) : list Invocation :=
  let r := reify l now inp w in
  if r.2 =? 0 then [] else delivery tasks a r.1 r.2.

(** The libev part of a watcher right after the install operation [o], on
    a loop whose clock shows [now]. *)
Definition installed_ev (o : InstallOp) (now : Z) : ev_data :=
  match o with
  | I_async => ev_async false
  | I_periodic offset interval =>
      ev_periodic (periodic_recalc now offset interval) offset interval
  | I_signal signal => ev_signal signal
  | I_socket type fd => ev_io fd (socket_flags type)
  | I_timer timeout => ev_timer (timeout + now) 0
  end.

(** The memory before the constructor has run. *)
Definition unborn : Scheduler := mkScheduler 0%nat [] [] [] ∅ 0%nat ∅ [] [].

(** The state a call leaves behind. *)
Definition state_of {A} (r : Result A) : Scheduler :=
  match r with
  | Ok _ s => s
  | Throw _ s => s
  | Fault => unborn
  end.

(** A scheduler with two loops, straight from the constructor; task 7 is
    active. *)
Definition two_loops : Scheduler := state_of (SchedulerLibev 2 0 {[7%nat]} unborn).

(** Whether a call returned. *)
Definition returned {A} (r : Result A) : bool :=
  match r with
  | Ok _ _ => true
  | _ => false
  end.

(** [two_loops] after a socket watcher for reading was installed on loop 1. *)
Definition with_socket : Scheduler :=
  state_of (install (I_socket EVENT_SOCKET_READ 5) 1 (Some 7%nat) two_loops).

(** [two_loops] after an async watcher was installed on loop 0. *)
Definition with_async : Scheduler :=
  state_of (install I_async 0 (Some 7%nat) two_loops).

(** [two_loops] after a socket watcher for reading and writing on
    descriptor 5 was installed on loop 1. *)
Definition with_rw_socket : Scheduler :=
  state_of (install (I_socket (Z.lor EVENT_SOCKET_READ EVENT_SOCKET_WRITE) 5) 1
              (Some 7%nat) two_loops).

(** A wakeup in which descriptor 5 is readable and writable. *)
Definition both_ready : PollInput :=
  mkPollInput 0 (λ fd, if fd =? 5 then Z.lor EV_READ EV_WRITE else 0) [].

(** [two_loops] after a timer of 5 was installed on loop 0. *)
Definition with_timer : Scheduler :=
  state_of (install (I_timer 5) 0 (Some 7%nat) two_loops).

(** [two_loops] after a socket watcher for writing alone was installed on
    loop 1. *)
Definition with_write_socket : Scheduler :=
  state_of (install (I_socket EVENT_SOCKET_WRITE 5) 1 (Some 7%nat) two_loops).

(** A piece of scheduler code that returns, keeps the invariant and the
    number of threads, and adds [tr] to the trace. *)
Definition emits (m : M unit) (s : Scheduler) (tr : list Action) : Prop :=
  ∃ s', m s = Ok tt s' ∧ trace s' = trace s ++ tr ∧ inv s' ∧ nrThreads s' = nrThreads s.

(** The async watcher at [a]: started on loop [l], bound to the active task
    [t], with [sent] as given. *)
Definition async_at (a l t : nat) (s : Scheduler) (sent : bool) : Prop :=
  ∃ w, heap s !! a = Some w ∧ ev w = ev_async sent ∧ loop w = Some l
       ∧ ev_reg w = Some l ∧ task w = Some t ∧ t ∈ active_tasks s
       ∧ (l < length (evloops s))%nat.

(** One wakeup of loop [l] for every input. *)
Definition wakeups (l : nat) (inputs : list PollInput) : M unit :=
  for_each inputs (ev_iteration l).

(** The timer at [a] is dormant: libev does not know it. *)
Definition timer_dormant (a l : nat) (s : Scheduler) : Prop :=
  ∃ w, heap s !! a = Some w ∧ ev_reg w = None ∧ (l < length (evloops s))%nat.

(** The timer at [a] runs on loop [l] with repeat interval [repeat] for the
    active task [t], and expires no later than [repeat] from now. *)
Definition timer_repeating (a l t : nat) (repeat : Z) (s : Scheduler) : Prop :=
  ∃ w at_ L, heap s !! a = Some w ∧ ev w = ev_timer at_ repeat ∧ ev_reg w = Some l
             ∧ task w = Some t ∧ t ∈ active_tasks s
             ∧ evloops s !! l = Some L ∧ at_ ≤ mn_now L + repeat.

(** A wakeup in which 5 units of time have gone by. *)
Definition five_later : PollInput := mkPollInput 5 (λ _, 0) [].

(** [with_timer] after its timer has expired once; after it was re-armed
    with 5; after one more wakeup; after yet another. *)
Definition timer_expired : Scheduler := state_of (ev_iteration 0%nat five_later with_timer).
Definition timer_rearmed : Scheduler := state_of (rearmTimer (Some 1%nat) 5 timer_expired).
Definition rearmed_expired : Scheduler :=
  state_of (ev_iteration 0%nat five_later timer_rearmed).
Definition rearmed_expired_again : Scheduler :=
  state_of (ev_iteration 0%nat five_later rearmed_expired).

(** Whether the clock, advancing wakeup by wakeup, gets [t] or more ahead
    of where it started at one of the wakeups. *)
Fixpoint clock_reaches (t : Z) (inputs : list PollInput) : bool :=
  match inputs with
  | [] => false
  | inp :: rest => (t <=? dt inp) || clock_reaches (t - dt inp) rest
  end.

(** The time that goes by in a sequence of wakeups. *)
Definition elapsed (inputs : list PollInput) : Z :=
  foldr (λ inp acc, dt inp + acc) 0 inputs.

(** The timer at [a] runs on loop [l] without a repeat interval for the
    active task [t] and expires [left] from now. *)
Definition timer_armed (a l t : nat) (left : Z) (s : Scheduler) : Prop :=
  ∃ w at_ L, heap s !! a = Some w ∧ ev w = ev_timer at_ 0 ∧ ev_reg w = Some l
             ∧ task w = Some t ∧ t ∈ active_tasks s
             ∧ evloops s !! l = Some L ∧ at_ - mn_now L = left.

(** What no call changes: the number of threads, the array of loops, which
    loop each waker is started on, how many loops libev has; addresses are
    handed out in increasing order. *)
Definition same_pool (s s' : Scheduler) : Prop :=
  nrThreads s' = nrThreads s
  ∧ _loops s' = _loops s
  ∧ wk_reg <$> _wakers s' = wk_reg <$> _wakers s
  ∧ length (evloops s') = length (evloops s)
  ∧ (next s ≤ next s')%nat.

(** What a method call leaves alone, as opposed to a wakeup of a loop: the
    clocks of the loops, the liveness of the tasks, and the invocations
    made so far. *)
Definition no_dispatch (s s' : Scheduler) : Prop :=
  evloops s' = evloops s
  ∧ active_tasks s' = active_tasks s
  ∧ invocations s' = invocations s.

(** A piece of code whose outcome, returned or thrown, is related to the
    state it started in. *)
Definition respects (R : Scheduler → Scheduler → Prop) {A} (m : M A) : Prop :=
  ∀ s, match m s with
       | Ok _ s' => R s s'
       | Throw _ s' => R s s'
       | Fault => True
       end.

(** The method calls among the calls. *)
Definition is_method (c : Call) : bool :=
  match c with
  | C_eventLoop _ _ | C_iteration _ _ | C_set_active _ _ => false
  | _ => true
  end.

(** Loop [l] exists and does not know the watcher at [a], if there is one. *)
Definition deaf (a l : nat) (s : Scheduler) : Prop :=
  (l < length (evloops s))%nat
  ∧ match heap s !! a with
    | Some w => ev_reg w ≠ Some l
    | None => True
    end.

(** [two_loops] after a periodic watcher with interval 10 was installed on
    loop 0. *)
Definition with_periodic : Scheduler :=
  state_of (install (I_periodic 0 10) 0 (Some 7%nat) two_loops).

(** The timer at [a] is started on loop [l] and expires [left] from now,
    whatever its repeat interval and its task. *)
Definition timer_pending (a l : nat) (left : Z) (s : Scheduler) : Prop :=
  ∃ w at_ repeat L, heap s !! a = Some w ∧ ev w = ev_timer at_ repeat
                    ∧ ev_reg w = Some l ∧ evloops s !! l = Some L
                    ∧ at_ - mn_now L = left.

(** A wakeup in which 2 units of time have gone by. *)
Definition two_later : PollInput := mkPollInput 2 (λ _, 0) [].

(** What the destructor may change besides the trace: wakers, and those
    only by stopping them. *)
Definition only_wakers_stopped (s s' : Scheduler) : Prop :=
  nrThreads s' = nrThreads s
  ∧ _loops s' = _loops s
  ∧ heap s' = heap s
  ∧ next s' = next s
  ∧ evloops s' = evloops s
  ∧ active_tasks s' = active_tasks s
  ∧ invocations s' = invocations s
  ∧ length (_wakers s') = length (_wakers s)
  ∧ ∀ i k, _wakers s' !! i = Some k → wk_reg k = None ∨ _wakers s !! i = Some k.

(** On a scheduler of [n] loops, [m] returns, changes nothing but wakers
    and trace, and leaves the wakers with an index in [P] stopped. *)
Definition winds_down (n : nat) (P : nat → Prop) (m : M unit) : Prop :=
  ∀ s, inv s → nrThreads s = n →
    ∃ s', m s = Ok tt s' ∧ inv s' ∧ only_wakers_stopped s s'
          ∧ ∀ i k, P i → _wakers s' !! i = Some k → wk_reg k = None.

(** * Properties *)

(** ** Running monadic code *)

Lemma bind_ok {A B} (m : M A) (f : A → M B) s a s' :
  m s = Ok a s' → (m ≫= f) s = f a s'.
Proof. intros H. unfold mbind, M_bind. by rewrite H. Qed.


Lemma bind_fault {A B} (m : M A) (f : A → M B) s :
  m s = Fault → (m ≫= f) s = Fault.
Proof. intros H. unfold mbind, M_bind. by rewrite H. Qed.

Lemma deref_ok s a w : heap s !! a = Some w → deref a s = Ok w s.
Proof. intros H. unfold deref. by rewrite H. Qed.

Lemma deref_gone s a : heap s !! a = None → deref a s = Fault.
Proof. intros H. unfold deref. by rewrite H. Qed.

Lemma deref_as_ok s a w k :
  heap s !! a = Some w → kind_of (ev w) = k → deref_as k a s = Ok w s.
Proof.
  intros H Hk. unfold deref_as. rewrite (bind_ok _ _ _ _ _ (deref_ok _ _ _ H)).
  by rewrite decide_True.
Qed.

Lemma deref_as_gone s a k : heap s !! a = None → deref_as k a s = Fault.
Proof. intros H. unfold deref_as. by rewrite (bind_fault _ _ _ (deref_gone _ _ H)). Qed.

(** ** The callbacks *)

Lemma set_invocations_id s : set_invocations (invocations s) s = s.
Proof. by destruct s. Qed.

Lemma callback_of_spec s a w revents :
  heap s !! a = Some w →
  callback_of (kind_of (ev w)) a revents s
  = Ok tt (set_invocations (invocations s ++ delivery (active_tasks s) a w revents) s).
Proof.
  intros H.
  destruct (ev w) eqn:He; cbn [kind_of callback_of];
  unfold asyncCallback, socketCallback, periodicCallback, signalCallback, timerCallback.
  all: rewrite (bind_ok _ _ _ _ _ (deref_as_ok _ _ _ _ H ltac:(by rewrite He))).
  all: unfold delivery; rewrite He; cbn [kind_of fires delivered_mask].
  all: destruct (task w) as [t|]; [|by rewrite app_nil_r, set_invocations_id].
  all: unfold isActive, handleEvent, modify, skip, mbind, M_bind, mret, M_ret.
  all: repeat match goal with |- context [has_bit ?r ?b] => destruct (has_bit r b) end;
       destruct (bool_decide (t ∈ active_tasks s)); cbn;
       by rewrite ?app_nil_r, ?set_invocations_id.
Qed.

(** ** One wakeup *)

Lemma invoke_spec s p w :
  heap s !! p.1 = Some w →
  invoke p s
  = Ok tt (set_invocations (invocations s ++ delivery (active_tasks s) p.1 w p.2) s).
Proof.
  intros Hw. unfold invoke. rewrite (bind_ok _ _ _ _ _ (deref_ok _ _ _ Hw)).
  by apply callback_of_spec.
Qed.

Lemma for_each_invoke pend : ∀ s,
  (∀ p, p ∈ pend → is_Some (heap s !! p.1)) →
  for_each pend invoke s
  = Ok tt (set_invocations
             (invocations s ++ deliveries (active_tasks s) (heap s) pend) s).
Proof.
  induction pend as [|p pend IH]; intros s Hp.
  - cbn. unfold skip. by rewrite app_nil_r, set_invocations_id.
  - destruct (Hp p) as [w Hw]; [by left|].
    cbn [for_each].
    rewrite (bind_ok _ _ _ _ _ (invoke_spec _ _ _ Hw)).
    rewrite IH; [|intros q Hq; apply Hp; by right].
    cbn. unfold deliveries. cbn [flat_map]. rewrite Hw.
    by rewrite <- app_assoc.
Qed.

Lemma pending_of_elem l now inp ws p :
  p ∈ pending_of l now inp ws → ∃ w, (p.1, w) ∈ ws ∧ p.2 = (reify l now inp w).2 ∧ p.2 ≠ 0.
Proof.
  unfold pending_of. rewrite list_elem_of_omap. intros [[a w] [Hin Hp]].
  cbn in Hp. destruct (Z.eqb_spec (reify l now inp w).2 0); [done|].
  inversion Hp; subst. eauto.
Qed.

(** The closed form of a wakeup. *)
Lemma ev_iteration_spec l inp s L :
  evloops s !! l = Some L →
  let now := mn_now L + dt inp in
  let woken := existsb (waker_fired l) (_wakers s) in
  let h' := (λ w : Watcher, (reify l now inp w).1) <$> heap s in
  ev_iteration l inp s
  = Ok tt (mkScheduler (nrThreads s) (_loops s) (waker_reify l <$> _wakers s)
             (<[l := mkLoop now (loop_done L || woken)]> (evloops s))
             h' (next s) (active_tasks s) (trace s)
             (invocations s
              ++ deliveries (active_tasks s) h'
                   (pending_of l now inp (map_to_list (heap s))))).
Proof.
  intros HL now woken h'. unfold ev_iteration.
  assert (Hlt : (l < length (evloops s))%nat) by (eapply lookup_lt_Some; eauto).
  unfold loop_now, set_now, get, modify, mbind, M_bind. rewrite HL. cbn.
  rewrite HL. cbn.
  rewrite for_each_invoke.
  2:{ intros p Hp. cbn. apply pending_of_elem in Hp as (w & Hw & _).
      apply elem_of_map_to_list in Hw. rewrite lookup_fmap, Hw. by eexists. }
  cbn. fold now woken h'.
  destruct woken; cbn.
  - unfold wakerCallback. cbn. rewrite list_lookup_insert_eq by done. cbn.
    rewrite list_insert_insert_eq. by rewrite orb_true_r.
  - unfold skip. cbn. by rewrite orb_false_r.
Qed.

(** The invocations of a wakeup that belong to one watcher depend on that
    watcher alone. *)
Lemma delivery_watcher tasks a w r i :
  i ∈ delivery tasks a w r → inv_watcher i = a.
Proof.
  unfold delivery. destruct (task w); [|by intros ?%elem_of_nil].
  case_match; [|by intros ?%elem_of_nil].
  by intros ->%list_elem_of_singleton.
Qed.

Lemma invocations_of_app a l1 l2 :
  invocations_of a (l1 ++ l2) = invocations_of a l1 ++ invocations_of a l2.
Proof. apply filter_app. Qed.

Lemma invocations_of_same a l :
  (∀ i, i ∈ l → inv_watcher i = a) → invocations_of a l = l.
Proof.
  induction l as [|i l IH]; intros H; [done|].
  unfold invocations_of. rewrite filter_cons_True by (apply H; by left).
  f_equal. apply IH. intros j Hj. apply H. by right.
Qed.

Lemma invocations_of_other a b l :
  a ≠ b → (∀ i, i ∈ l → inv_watcher i = b) → invocations_of a l = [].
Proof.
  intros Hab. induction l as [|i l IH]; intros H; [done|].
  unfold invocations_of. rewrite filter_cons_False.
  - apply IH. intros j Hj. apply H. by right.
  - rewrite (H i) by (by left). congruence.
Qed.

Lemma wakeup_of_watcher tasks l now inp a w i :
  i ∈ wakeup_of tasks l now inp a w → inv_watcher i = a.
Proof.
  unfold wakeup_of. case_match; [by intros ?%elem_of_nil|]. apply delivery_watcher.
Qed.

Lemma deliveries_pending tasks l now inp (h' : gmap addr Watcher) ws :
  (∀ a w, (a, w) ∈ ws → h' !! a = Some (reify l now inp w).1) →
  deliveries tasks h' (pending_of l now inp ws)
  = flat_map (λ aw : addr * Watcher, wakeup_of tasks l now inp aw.1 aw.2) ws.
Proof.
  induction ws as [|[a w] ws IH]; intros H; [done|].
  unfold pending_of. cbn [omap list_omap flat_map]. cbn [fst snd].
  unfold wakeup_of at 1. cbn [fst snd].
  destruct (Z.eqb_spec (reify l now inp w).2 0) as [E|E].
  - cbn. apply IH. intros ???. apply H. by right.
  - unfold deliveries. cbn [flat_map fst snd]. rewrite (H a w) by (by left).
    f_equal. apply IH. intros ???. apply H. by right.
Qed.

Lemma invocations_of_flat_map tasks l now inp a (ws : list (addr * Watcher)) :
  NoDup (ws.*1) →
  invocations_of a
    (flat_map (λ aw : addr * Watcher, wakeup_of tasks l now inp aw.1 aw.2) ws)
  = match list_to_map (M := gmap addr Watcher) ws !! a with
    | Some w => wakeup_of tasks l now inp a w
    | None => []
    end.
Proof.
  induction ws as [|[b w] ws IH]; intros Hnd; [done|].
  cbn in Hnd. apply NoDup_cons in Hnd as [Hb Hnd].
  cbn [flat_map list_to_map foldr fst snd]. rewrite invocations_of_app, IH by done.
  destruct (decide (a = b)) as [->|Hab].
  - rewrite lookup_insert_eq.
    rewrite (not_elem_of_list_to_map_1 _ b) by done.
    rewrite app_nil_r. apply invocations_of_same. apply wakeup_of_watcher.
  - rewrite lookup_insert_ne by done.
    rewrite (invocations_of_other a b) by (done || apply wakeup_of_watcher). done.
Qed.

Lemma invocations_of_wakeup tasks l now inp a (h : gmap addr Watcher) :
  invocations_of a
    (deliveries tasks ((λ w : Watcher, (reify l now inp w).1) <$> h)
       (pending_of l now inp (map_to_list h)))
  = match h !! a with
    | Some w => wakeup_of tasks l now inp a w
    | None => []
    end.
Proof.
  rewrite deliveries_pending.
  - rewrite invocations_of_flat_map by apply NoDup_fst_map_to_list.
    by rewrite list_to_map_to_list.
  - intros b w Hw%elem_of_map_to_list. by rewrite lookup_fmap, Hw.
Qed.

(** ** Running the methods *)

Ltac unfold_monad :=
  unfold watcher_loop, assign_loop_task, delete_watcher, new_watcher,
    ev_async_init, ev_async_start, ev_async_stop, ev_async_send,
    ev_io_init, ev_io_start, ev_io_stop,
    ev_signal_init, ev_signal_start, ev_signal_stop,
    ev_periodic_init, ev_periodic_set, ev_periodic_start, ev_periodic_stop,
    ev_periodic_again, periodic_start, periodic_stop,
    ev_timer_init, ev_timer_set, ev_timer_start, ev_timer_stop, ev_timer_again,
    timer_start, timer_stop, ev_start, ev_stop, get_waker, put_waker, loop_now,
    lookupLoop, loops_at,
    ev_is_active, deref_as, deref, loop_of, store, emit, modify, get, throw, fault, skip,
    mbind, M_bind, mret, M_ret in *.

Ltac run_step :=
  match goal with
  | H : heap ?s !! ?a = _ |- context [heap ?s !! ?a] => rewrite H
  | H : kind_of (ev ?w) = _ |- context [kind_of (ev ?w)] => rewrite H
  | H : ev ?w = _ |- context [ev ?w] => rewrite H
  | H : loop ?w = _ |- context [loop ?w] => rewrite H
  | H : ev_reg ?w = _ |- context [ev_reg ?w] => rewrite H
  | H : type ?w = _ |- context [type ?w] => rewrite H
  | H : evloops ?s !! ?l = _ |- context [evloops ?s !! ?l] => rewrite H
  | H : _wakers ?s !! ?l = _ |- context [_wakers ?s !! ?l] => rewrite H
  | H : _loops ?s !! ?l = _ |- context [_loops ?s !! ?l] => rewrite H
  | H : (_ <=? _) = _ |- context [_ <=? _] => rewrite H
  | |- context [<[?a := _]> _ !! ?a] => rewrite lookup_insert_eq
  | |- context [decide (?x = ?x)] => rewrite (decide_True (P := x = x)) by reflexivity
  end.

Ltac run := unfold_monad; cbn; repeat (run_step; cbn).

Lemma inv_loops_lookup s (i : nat) :
  inv s → (i < nrThreads s)%nat → _loops s !! i = Some i.
Proof.
  intros (_ & Hl & _) Hi. rewrite Hl. by apply lookup_seq_lt.
Qed.

Lemma inv_evloops_lookup s (l : nat) :
  inv s → (l < nrThreads s)%nat → is_Some (evloops s !! l).
Proof.
  intros (_ & _ & _ & Hl & _) Hi. apply lookup_lt_is_Some. by rewrite Hl.
Qed.

Lemma size_t_in i : 0 ≤ i < 2 ^ 64 → size_t i = i.
Proof. intros H. unfold size_t. by apply Z.mod_small. Qed.

Lemma size_t_neg i : - 2 ^ 63 ≤ i < 0 → size_t i = i + 2 ^ 64.
Proof.
  intros H. unfold size_t. symmetry. apply (Z.mod_unique _ _ (-1)); lia.
Qed.

(** The bounds check that [lookupLoop] and [wakeupLoop] share. *)
Lemma range_check n i :
  - 2 ^ 63 ≤ i < 2 ^ 64 → Z.of_nat n ≤ 2 ^ 63 →
  (Z.of_nat n <=? size_t i) = false ↔ 0 ≤ i < Z.of_nat n.
Proof.
  intros Hi Hn. rewrite Z.leb_gt.
  destruct (Z_lt_le_dec i 0).
  - rewrite size_t_neg by lia. lia.
  - rewrite size_t_in by lia. lia.
Qed.

Lemma lookupLoop_in s i :
  inv s → 0 ≤ i < Z.of_nat (nrThreads s) → i < 2 ^ 64 →
  lookupLoop i s = Ok (Z.to_nat i) s.
Proof.
  intros Hinv Hi Hr.
  assert (H : (Z.of_nat (nrThreads s) <=? size_t i) = false).
  { rewrite Z.leb_gt, size_t_in; lia. }
  pose proof (inv_loops_lookup s (Z.to_nat i) Hinv ltac:(lia)) as Hl.
  by run.
Qed.


Lemma install_ok s o i task L :
  inv s → 0 ≤ i < Z.of_nat (nrThreads s) → i < 2 ^ 64 →
  evloops s !! Z.to_nat i = Some L →
  let l := Z.to_nat i in
  let a := next s in
  let w := mkWatcher (installed_ev o (mn_now L)) (Some l) (tag_of (install_kind o))
             (Some l) task in
  install o i task s
  = Ok (Some a)
      (set_trace (trace s ++ [A_start (install_kind o) l (PWatcher a)])
         (set_next (S a) (set_heap (<[a := w]> (heap s)) s))).
Proof.
  intros Hinv Hi Hr HL l a w.
  assert (H : (Z.of_nat (nrThreads s) <=? size_t i) = false).
  { rewrite Z.leb_gt, size_t_in; lia. }
  pose proof (inv_loops_lookup s (Z.to_nat i) Hinv ltac:(lia)) as Hl.
  destruct o; unfold install, installAsyncEvent, installPeriodicEvent,
    installSignalEvent, installSocketEvent, installTimerEvent; run.
  all: rewrite ?insert_insert_eq; try done.
Qed.

Lemma install_throw s o i task :
  (Z.of_nat (nrThreads s) <=? size_t i) = true →
  install o i task s
  = Throw TRI_ERROR_INTERNAL
      (set_next (S (next s))
         (set_heap (<[next s := mkWatcher
                         match o with
                         | I_async => ev_async false
                         | I_periodic _ _ => ev_periodic 0 0 0
                         | I_signal _ => ev_signal 0
                         | I_socket _ _ => ev_io 0 0
                         | I_timer _ => ev_timer 0 0
                         end None (tag_of (install_kind o)) None None]> (heap s)) s)).
Proof.
  intros H.
  destruct o; unfold install, installAsyncEvent, installPeriodicEvent,
    installSignalEvent, installSocketEvent, installTimerEvent; by run.
Qed.

Lemma wakeupLoop_in s i k :
  inv s → 0 ≤ i < Z.of_nat (nrThreads s) → i < 2 ^ 64 →
  _wakers s !! Z.to_nat i = Some k →
  wakeupLoop i s
  = Ok tt (set_wakers (<[Z.to_nat i := mkWaker (wk_reg k) true]> (_wakers s))
             (set_trace (trace s ++ [A_async_send (Z.to_nat i) (PWaker (Z.to_nat i))]) s)).
Proof.
  intros Hinv Hi Hr Hk.
  assert (H : (Z.of_nat (nrThreads s) <=? size_t i) = false).
  { rewrite Z.leb_gt, size_t_in; lia. }
  pose proof (inv_loops_lookup s (Z.to_nat i) Hinv ltac:(lia)) as Hl.
  unfold wakeupLoop. by run.
Qed.

Lemma wakeupLoop_out s i :
  (Z.of_nat (nrThreads s) <=? size_t i) = true →
  wakeupLoop i s = Throw TRI_ERROR_INTERNAL s.
Proof. intros H. unfold wakeupLoop. by run. Qed.

(** *** On an installed watcher *)

Lemma uninstallEvent_spec s a w l :
  installed s a w l →
  uninstallEvent (Some a) s
  = Ok tt (set_trace (trace s ++ [A_stop (kind_of (ev w)) l (PWatcher a);
                                   A_delete_watcher a])
             (set_heap (delete a (heap s)) s)).
Proof.
  intros (Hh & Ht & Hl & Hlt & Hreg).
  apply lookup_lt_is_Some in Hlt as [L HL].
  unfold uninstallEvent. run.
  destruct (ev w) eqn:He; cbn [kind_of tag_of]; cbn;
    unfold watcher_loop; run; destruct Hreg as [Hr|Hr]; run;
    rewrite <- ?app_assoc, ?delete_insert_eq; try done.
Qed.

(** Every method that takes a handle reads through it first. *)
Lemma dangling_handle s a :
  heap s !! a = None →
  uninstallEvent (Some a) s = Fault
  ∧ sendAsync (Some a) s = Fault
  ∧ (∀ offset interval, rearmPeriodic (Some a) offset interval s = Fault)
  ∧ startSocketEvents (Some a) s = Fault
  ∧ stopSocketEvents (Some a) s = Fault
  ∧ clearTimer (Some a) s = Fault
  ∧ (∀ timeout, rearmTimer (Some a) timeout s = Fault).
Proof.
  intros H.
  unfold uninstallEvent, sendAsync, rearmPeriodic, startSocketEvents,
    stopSocketEvents, clearTimer, rearmTimer.
  repeat split; intros; by run.
Qed.

Lemma startSocketEvents_spec s a w l :
  installed s a w l → kind_of (ev w) = K_io →
  startSocketEvents (Some a) s
  = Ok tt (if ev_is_active w then s
           else set_heap (<[a := set_reg (Some l) w]> (heap s))
                  (set_trace (trace s ++ [A_start K_io l (PWatcher a)]) s)).
Proof.
  intros (Hh & Ht & Hl & Hlt & Hreg) Hk.
  unfold startSocketEvents. destruct Hreg as [Hr|Hr]; by run.
Qed.

Lemma stopSocketEvents_spec s a w l :
  installed s a w l → kind_of (ev w) = K_io →
  stopSocketEvents (Some a) s
  = Ok tt (if ev_is_active w
           then set_heap (<[a := set_reg None w]> (heap s))
                  (set_trace (trace s ++ [A_stop K_io l (PWatcher a)]) s)
           else s).
Proof.
  intros (Hh & Ht & Hl & Hlt & Hreg) Hk.
  unfold stopSocketEvents. destruct Hreg as [Hr|Hr]; by run.
Qed.

Lemma sendAsync_spec s a w l :
  heap s !! a = Some w → kind_of (ev w) = K_async → loop w = Some l →
  sendAsync (Some a) s
  = Ok tt (set_heap (<[a := set_ev (ev_async true) w]> (heap s))
             (set_trace (trace s ++ [A_async_send l (PWatcher a)]) s)).
Proof. intros H Hk Hl. unfold sendAsync. by run. Qed.

Lemma rearmTimer_spec s a w l L timeout :
  installed s a w l → kind_of (ev w) = K_timer → evloops s !! l = Some L →
  timeout ≠ 0 →
  rearmTimer (Some a) timeout s
  = Ok tt (set_heap
             (<[a := mkWatcher (ev_timer (mn_now L + timeout) timeout) (Some l)
                       (type w) (Some l) (task w)]> (heap s))
             (set_trace (trace s ++ [A_again K_timer l (PWatcher a)]) s)).
Proof.
  intros (Hh & Ht & Hl & Hlt & Hreg) Hk HL Hz.
  apply Z.eqb_neq in Hz.
  destruct w as [e r ty lo ta]; cbn in *; subst.
  destruct e; try discriminate.
  unfold rearmTimer. destruct Hreg as [->| ->]; run; rewrite Hz; run;
    rewrite ?insert_insert_eq; unfold set_reg, set_ev, set_heap, set_trace; cbn;
    rewrite ?(Z.add_comm timeout); done.
Qed.

(** ** The invariant *)

Definition keeps {A} (m : M A) : Prop :=
  ∀ s, inv s →
    match m s with
    | Ok _ s' => inv s'
    | Throw _ s' => inv s'
    | Fault => True
    end.

Lemma watcher_inv_of s a w : inv s → heap s !! a = Some w → watcher_inv (nrThreads s) w.
Proof. intros (_ & _ & _ & _ & _ & H) Hw. by apply (H a). Qed.

Lemma watcher_below s a w : inv s → heap s !! a = Some w → (a < next s)%nat.
Proof. intros (_ & _ & _ & _ & _ & H) Hw. by apply (H a w). Qed.

Lemma inv_intro s s' :
  inv s →
  nrThreads s' = nrThreads s →
  _loops s' = _loops s →
  length (_wakers s') = length (_wakers s) →
  (∀ i k, _wakers s' !! i = Some k → wk_reg k = None ∨ wk_reg k = Some i) →
  length (evloops s') = length (evloops s) →
  (∀ a w, heap s' !! a = Some w → watcher_inv (nrThreads s) w ∧ (a < next s')%nat) →
  inv s'.
Proof.
  intros (H1 & H2 & H3 & H4 & H5 & H6) E1 E2 E3 E4 E5 E6.
  unfold inv. rewrite E1, E2, E3, E5. split_and!; try done.
Qed.

Lemma inv_wakers s i k :
  inv s → _wakers s !! i = Some k → wk_reg k = None ∨ wk_reg k = Some i.
Proof. intros (_ & _ & _ & _ & H & _). apply H. Qed.

Ltac heap_cases H :=
  repeat first
    [ apply lookup_insert_Some in H as [[<- <-]|[? H]]
    | apply lookup_delete_Some in H as [? H] ].

Ltac use_inv :=
  repeat match goal with
  | Hi : inv ?s, H : heap ?s !! ?a = Some ?w |- _ =>
      lazymatch goal with
      | _ : watcher_inv (nrThreads s) w |- _ => fail
      | _ => pose proof (watcher_inv_of s a w Hi H);
             pose proof (watcher_below s a w Hi H)
      end
  end.

Ltac solve_watcher_inv :=
  unfold watcher_inv, set_ev, set_reg, set_loop_task in *; cbn in *;
  repeat match goal with
         | H : _ ∧ _ |- _ => destruct H
         | H : context [match loop ?w with _ => _ end] |- _ => destruct (loop w) eqn:?
         | H : kind_of (ev ?w) = _, H' : type ?w = tag_of (kind_of (ev ?w)) |- _ =>
             rewrite H in H'; cbn in H'
         | H : kind_of (ev ?w) = _ |- context [kind_of (ev ?w)] => rewrite H; cbn
         end;
  simplify_eq/=; repeat split; auto; try lia; intuition (simplify_eq/=; auto).

Ltac waker_cases H :=
  repeat first
    [ apply list_lookup_insert_Some in H as [(<- & <- & ?)|[? H]] ].

Ltac inv_leaf :=
  match goal with
  | Hi : inv ?s |- inv _ =>
      apply (inv_intro s);
      [ exact Hi
      | cbn; done
      | cbn; done
      | cbn; by rewrite ?length_insert, ?length_fmap
      | let i := fresh "i" in let k := fresh "k" in let H := fresh "H" in
        cbn; intros i k H; waker_cases H; cbn;
        try (by eapply inv_wakers; eauto);
        try (edestruct inv_wakers; [exact Hi|eassumption|..]; simplify_eq/=; by auto)
      | cbn; by rewrite ?length_insert, ?length_fmap
      | let a := fresh "a" in let w := fresh "w" in let H := fresh "H" in
        intros a w H; cbn in H; heap_cases H; use_inv;
        (split; [solve_watcher_inv | cbn; try lia]) ]
  end.

Ltac keeps_crush :=
  unfold_monad;
  repeat (case_match; simplify_map_eq/=; try done);
  try inv_leaf.

Lemma keeps_rearmTimer h timeout : keeps (rearmTimer h timeout).
Proof.
  intros s Hinv. destruct h as [a|]; [|done]. unfold rearmTimer. keeps_crush.
Qed.

Lemma keeps_clearTimer h : keeps (clearTimer h).
Proof.
  intros s Hinv. destruct h as [a|]; [|done]. unfold clearTimer. keeps_crush.
Qed.

Lemma keeps_rearmPeriodic h offset interval : keeps (rearmPeriodic h offset interval).
Proof.
  intros s Hinv. destruct h as [a|]; [|done]. unfold rearmPeriodic. keeps_crush.
Qed.

Lemma keeps_sendAsync h : keeps (sendAsync h).
Proof.
  intros s Hinv. destruct h as [a|]; [|done]. unfold sendAsync. keeps_crush.
Qed.

Lemma keeps_startSocketEvents h : keeps (startSocketEvents h).
Proof.
  intros s Hinv. destruct h as [a|]; [|done]. unfold startSocketEvents. keeps_crush.
Qed.

Lemma keeps_stopSocketEvents h : keeps (stopSocketEvents h).
Proof.
  intros s Hinv. destruct h as [a|]; [|done]. unfold stopSocketEvents. keeps_crush.
Qed.

Lemma keeps_uninstallEvent h : keeps (uninstallEvent h).
Proof.
  intros s Hinv. destruct h as [a|]; [|done]. unfold uninstallEvent. keeps_crush.
Qed.

Lemma keeps_wakeupLoop loop : keeps (wakeupLoop loop).
Proof.
  intros s Hinv. unfold wakeupLoop. keeps_crush.
Qed.

Lemma inv_loops_range s i l : inv s → _loops s !! i = Some l → (l < nrThreads s)%nat.
Proof.
  intros (_ & Hl & _) H. rewrite Hl in H. apply lookup_seq in H. lia.
Qed.

Lemma keeps_install o loop task : keeps (install o loop task).
Proof.
  intros s Hinv.
  destruct o; unfold install, installAsyncEvent, installPeriodicEvent,
    installSignalEvent, installSocketEvent, installTimerEvent; keeps_crush.
  all: by eapply inv_loops_range.
Qed.

Lemma keeps_set_task_active t b : keeps (set_task_active t b).
Proof. intros s Hinv. unfold set_task_active. keeps_crush. Qed.

Lemma reify_fields l now inp w :
  let w' := (reify l now inp w).1 in
  type w' = type w ∧ loop w' = loop w ∧ task w' = task w
  ∧ kind_of (ev w') = kind_of (ev w)
  ∧ (ev_reg w' = ev_reg w ∨ (ev_reg w' = None ∧ kind_of (ev w) ≠ K_async)).
Proof.
  unfold reify. destruct (decide (ev_reg w = Some l)); [|by split_and!; auto].
  destruct (ev w) eqn:He; cbn;
    repeat (case_match; cbn [fst]); unfold set_ev, set_reg; cbn; rewrite ?He; cbn;
    split_and!; auto.
Qed.

Lemma reify_inv n l now inp w :
  watcher_inv n w → watcher_inv n (reify l now inp w).1.
Proof.
  intros (Ht & Hl & Ha).
  destruct (reify_fields l now inp w) as (E1 & E2 & _ & E3 & E4).
  unfold watcher_inv. rewrite E1, E2, E3. split_and!; [done| |].
  - destruct (loop w); destruct E4 as [->|[-> _]]; try done.
    destruct Hl. auto.
  - intros Hk Hs. destruct E4 as [->|[_ ?]]; [auto|done].
Qed.

Lemma waker_reify_reg l k : wk_reg (waker_reify l k) = wk_reg k.
Proof. unfold waker_reify. by case_match. Qed.

Lemma keeps_ev_iteration l inp : keeps (ev_iteration l inp).
Proof.
  intros s Hinv.
  destruct (evloops s !! l) as [L|] eqn:HL.
  - rewrite (ev_iteration_spec _ _ _ _ HL).
    apply (inv_intro s); [done|cbn; try done..|].
    + by rewrite length_fmap.
    + intros i k (k' & -> & Hk)%list_lookup_fmap_Some. rewrite waker_reify_reg.
      by eapply inv_wakers.
    + by rewrite length_insert.
    + cbn. intros a w (w' & <- & Hw)%lookup_fmap_Some. split.
      * apply reify_inv. by eapply watcher_inv_of.
      * by eapply watcher_below.
  - unfold ev_iteration, loop_now, mbind, M_bind. by rewrite HL.
Qed.

Lemma keeps_bind {A B} (m : M A) (f : A → M B) :
  keeps m → (∀ a, keeps (f a)) → keeps (m ≫= f).
Proof.
  intros Hm Hf s Hinv. unfold mbind, M_bind.
  specialize (Hm s Hinv). destruct (m s); try done. by apply Hf.
Qed.

Lemma keeps_ret {A} (a : A) : keeps (mret a).
Proof. by intros s Hinv. Qed.

Lemma keeps_is_done l : keeps (is_done l).
Proof. intros s Hinv. unfold is_done. by destruct (evloops s !! l). Qed.

Lemma keeps_ev_run l inputs : keeps (ev_run l inputs).
Proof.
  induction inputs as [|inp rest IH]; [apply keeps_ret|].
  cbn [ev_run]. apply keeps_bind; [apply keeps_ev_iteration|intros _].
  apply keeps_bind; [apply keeps_is_done|intros [|]]; [apply keeps_ret|done].
Qed.

Lemma keeps_ev_loop l inputs : keeps (ev_loop l inputs).
Proof.
  unfold ev_loop. apply keeps_bind; [|intros _; apply keeps_ev_run].
  intros s Hinv. destruct (evloops s !! l) as [L|] eqn:HL; [|done]. inv_leaf.
Qed.

Lemma keeps_lookupLoop loop : keeps (lookupLoop loop).
Proof. intros s Hinv. keeps_crush. Qed.

Lemma keeps_do_call c : keeps (do_call c).
Proof.
  destruct c; cbn [do_call].
  - apply keeps_bind; [apply keeps_install|intros _; apply keeps_ret].
  - apply keeps_uninstallEvent.
  - apply keeps_sendAsync.
  - apply keeps_rearmPeriodic.
  - apply keeps_startSocketEvents.
  - apply keeps_stopSocketEvents.
  - apply keeps_clearTimer.
  - apply keeps_rearmTimer.
  - apply keeps_wakeupLoop.
  - apply keeps_bind; [apply keeps_lookupLoop|intros l; apply keeps_ev_loop].
  - apply keeps_bind; [apply keeps_lookupLoop|intros l; apply keeps_ev_iteration].
  - apply keeps_set_task_active.
Qed.

Lemma keeps_for_each {A} (xs : list A) (body : A → M unit) :
  (∀ x, keeps (body x)) → keeps (for_each xs body).
Proof.
  intros Hb. induction xs as [|x xs IH]; [apply keeps_ret|].
  cbn [for_each]. apply keeps_bind; [apply Hb|done].
Qed.

Lemma keeps_start_waker i : keeps (l ← loops_at i; ev_async_start l (PWaker i)).
Proof.
  intros s Hinv. unfold loops_at, mbind, M_bind.
  destruct (_loops s !! i) as [l|] eqn:Hl; [|done].
  assert (l = i) as ->.
  { destruct Hinv as (_ & E & _). rewrite E in Hl. apply lookup_seq in Hl. lia. }
  unfold ev_async_start, emit, get_waker, put_waker, modify, mbind, M_bind. cbn.
  destruct (_wakers s !! i) as [k|] eqn:Hk; [|done].
  destruct (wk_reg k) eqn:Hr; cbn; inv_leaf.
Qed.

Lemma SchedulerLibev_inv concurrency now tasks s0 s :
  SchedulerLibev concurrency now tasks s0 = Ok tt s → inv s.
Proof.
  unfold SchedulerLibev. destruct concurrency as [|n]; [done|].
  set (s1 := mkScheduler _ _ _ _ _ _ _ _ _). intros H.
  assert (Hinv : inv s1).
  { unfold inv, s1. cbn -[seq replicate]. split_and!; try done.
    - lia.
    - by rewrite length_replicate.
    - by rewrite length_replicate.
    - intros i k [-> _]%lookup_replicate. by left. }
  pose proof (keeps_for_each (seq 0 (S n)) _ keeps_start_waker s1 Hinv) as Hk.
  by rewrite H in Hk.
Qed.

(** Every state a scheduler can be in satisfies the invariant. *)
Lemma reachable_inv s : reachable s → inv s.
Proof.
  induction 1 as [n now tasks s0 s H|c s s' _ IH H|c s code s' _ IH H].
  - by eapply SchedulerLibev_inv.
  - pose proof (keeps_do_call c s IH) as Hk. by rewrite H in Hk.
  - pose proof (keeps_do_call c s IH) as Hk. by rewrite H in Hk.
Qed.

Lemma reachable_installed s a w l :
  reachable s → heap s !! a = Some w → loop w = Some l → installed s a w l.
Proof.
  intros Hinv%reachable_inv Hw Hl.
  pose proof (watcher_inv_of s a w Hinv Hw) as (Ht & Hr & _). rewrite Hl in Hr.
  destruct Hinv as (_ & _ & _ & He & _). unfold installed. rewrite He.
  destruct Hr as [Hlt Hr]. by split_and!.
Qed.

(** * The claims *)

(** C7: a null handle passed to uninstall, rearmPeriodic, rearmTimer,
    startSocketEvents, stopSocketEvents or sendAsync returns without error
    and leaves the whole scheduler state as it was. *)
Theorem null_handle_is_no_op (s : Scheduler) (offset interval timeout : Z) :
  uninstallEvent None s = Ok tt s
  ∧ rearmPeriodic None offset interval s = Ok tt s
  ∧ rearmTimer None timeout s = Ok tt s
  ∧ startSocketEvents None s = Ok tt s
  ∧ stopSocketEvents None s = Ok tt s
  ∧ sendAsync None s = Ok tt s.
Proof. by split_and!. Qed.

(** C8: [wakeupLoop] and every install operation throw the internal error
    exactly when the loop index is outside [0, N); inside, [wakeupLoop]
    sends to the waker of that loop and returns, and an install returns a
    non-null handle to a watcher bound to loop [i] and to the given task.
    The index is any value of an integer type of at most 64 bits. *)
Theorem loop_index_is_checked (s : Scheduler) (i : Z) (o : InstallOp) (tk : option nat) :
  reachable s →
  - 2 ^ 63 ≤ i < 2 ^ 64 →
  Z.of_nat (nrThreads s) ≤ 2 ^ 63 →
  ((∃ s', wakeupLoop i s = Throw TRI_ERROR_INTERNAL s')
     ↔ ¬ (0 ≤ i < Z.of_nat (nrThreads s)))
  ∧ ((∃ s', install o i tk s = Throw TRI_ERROR_INTERNAL s')
     ↔ ¬ (0 ≤ i < Z.of_nat (nrThreads s)))
  ∧ (0 ≤ i < Z.of_nat (nrThreads s) →
     (∃ s' k, wakeupLoop i s = Ok tt s'
        ∧ trace s' = trace s ++ [A_async_send (Z.to_nat i) (PWaker (Z.to_nat i))]
        ∧ _loops s !! Z.to_nat i = Some (Z.to_nat i)
        ∧ _wakers s' !! Z.to_nat i = Some k ∧ wk_sent k = true)
     ∧ (∃ a w s', install o i tk s = Ok (Some a) s'
        ∧ heap s' !! a = Some w
        ∧ loop w = _loops s !! Z.to_nat i
        ∧ task w = tk
        ∧ kind_of (ev w) = install_kind o
        ∧ ev_reg w = loop w)).
Proof.
  intros Hinv%reachable_inv Hi Hn.
  pose proof (range_check (nrThreads s) i Hi Hn) as Hc.
  destruct (Z.of_nat (nrThreads s) <=? size_t i) eqn:E.
  - assert (Hout : ¬ (0 ≤ i < Z.of_nat (nrThreads s))) by (intros ?%Hc; done).
    split_and!; [split; [done|]|split; [done|]|done].
    + intros _. eexists. by apply wakeupLoop_out.
    + intros _. eexists. by apply install_throw.
  - assert (Hin : 0 ≤ i < Z.of_nat (nrThreads s)) by by apply Hc.
    destruct (inv_evloops_lookup s (Z.to_nat i) Hinv ltac:(lia)) as [L HL].
    assert (is_Some (_wakers s !! Z.to_nat i)) as [k Hk].
    { apply lookup_lt_is_Some. destruct Hinv as (_ & _ & -> & _). lia. }
    pose proof (inv_loops_lookup s (Z.to_nat i) Hinv ltac:(lia)) as Hl.
    split_and!.
    + split; [|done]. intros [s' H].
      by rewrite (wakeupLoop_in s i k) in H by (done || lia).
    + split; [|done]. intros [s' H].
      by rewrite (install_ok s o i tk L) in H by (done || lia).
    + intros _. split.
      * eexists _, _. rewrite (wakeupLoop_in s i k) by (done || lia).
        split_and!; [done|cbn; done|done| |].
        -- cbn. apply list_lookup_insert_eq. by eapply lookup_lt_Some.
        -- done.
      * eexists _, _, _. rewrite (install_ok s o i tk L) by (done || lia).
        split_and!; [done|cbn..].
        -- apply lookup_insert_eq.
        -- by rewrite Hl.
        -- done.
        -- by destruct o.
        -- done.
Qed.

Lemma loop_index_is_checked_witness :
  ((∃ s', wakeupLoop 1 two_loops = Throw TRI_ERROR_INTERNAL s')
     ↔ ¬ (0 ≤ 1 < Z.of_nat (nrThreads two_loops)))
  ∧ ((∃ s', install (I_timer 5) 1 (Some 7%nat) two_loops = Throw TRI_ERROR_INTERNAL s')
     ↔ ¬ (0 ≤ 1 < Z.of_nat (nrThreads two_loops)))
  ∧ (0 ≤ 1 < Z.of_nat (nrThreads two_loops) →
     (∃ s' k, wakeupLoop 1 two_loops = Ok tt s'
        ∧ trace s' = trace two_loops ++ [A_async_send (Z.to_nat 1) (PWaker (Z.to_nat 1))]
        ∧ _loops two_loops !! Z.to_nat 1 = Some (Z.to_nat 1)
        ∧ _wakers s' !! Z.to_nat 1 = Some k ∧ wk_sent k = true)
     ∧ (∃ a w s', install (I_timer 5) 1 (Some 7%nat) two_loops = Ok (Some a) s'
        ∧ heap s' !! a = Some w
        ∧ loop w = _loops two_loops !! Z.to_nat 1
        ∧ task w = Some 7%nat
        ∧ kind_of (ev w) = install_kind (I_timer 5)
        ∧ ev_reg w = loop w)).
Proof.
  apply (loop_index_is_checked two_loops 1 (I_timer 5) (Some 7%nat)).
  - apply (reach_new 2 0 {[7%nat]} unborn). reflexivity.
  - lia.
  - vm_compute. discriminate.
Defined.

Lemma installed_after_store s a w w' l tr :
  installed s a w l →
  type w' = tag_of (kind_of (ev w')) → loop w' = Some l →
  (ev_reg w' = None ∨ ev_reg w' = Some l) →
  installed (set_heap (<[a := w']> (heap s)) (set_trace tr s)) a w' l.
Proof.
  intros (Hh & Ht & Hl & Hlt & Hreg) Ht' Hl' Hr'.
  unfold installed. cbn. rewrite lookup_insert_eq. by split_and!.
Qed.

(** C9: on a socket watcher handle, [startSocketEvents] on a started
    watcher and [stopSocketEvents] on a stopped one change nothing at all;
    either call returns, keeps the handle alive, and a second call of the
    same kind changes nothing any more. *)
Theorem socket_events_idempotent (s : Scheduler) (a : nat) (w : Watcher) (l : nat) :
  reachable s →
  heap s !! a = Some w →
  kind_of (ev w) = K_io →
  loop w = Some l →
  (ev_is_active w = true → startSocketEvents (Some a) s = Ok tt s)
  ∧ (ev_is_active w = false → stopSocketEvents (Some a) s = Ok tt s)
  ∧ (∃ s1 w1, startSocketEvents (Some a) s = Ok tt s1
       ∧ heap s1 !! a = Some w1 ∧ ev_is_active w1 = true
       ∧ startSocketEvents (Some a) s1 = Ok tt s1)
  ∧ (∃ s2 w2, stopSocketEvents (Some a) s = Ok tt s2
       ∧ heap s2 !! a = Some w2 ∧ ev_is_active w2 = false
       ∧ stopSocketEvents (Some a) s2 = Ok tt s2).
Proof.
  intros Hr Hw Hk Hl.
  pose proof (reachable_installed s a w l Hr Hw Hl) as Hi.
  pose proof Hi as (_ & Ht & _ & _ & Hreg).
  pose proof (startSocketEvents_spec s a w l Hi Hk) as Hstart.
  pose proof (stopSocketEvents_spec s a w l Hi Hk) as Hstop.
  split_and!.
  - intros Ha. by rewrite Hstart, Ha.
  - intros Ha. by rewrite Hstop, Ha.
  - destruct (ev_is_active w) eqn:Ha.
    + by exists s, w.
    + eexists _, (set_reg (Some l) w). split_and!; [exact Hstart|cbn; apply lookup_insert_eq|done|].
      rewrite (startSocketEvents_spec _ a (set_reg (Some l) w) l); [done| |done].
      apply (installed_after_store s a w); cbn; auto.
  - destruct (ev_is_active w) eqn:Ha.
    + eexists _, (set_reg None w). split_and!; [exact Hstop|cbn; apply lookup_insert_eq|done|].
      rewrite (stopSocketEvents_spec _ a (set_reg None w) l); [done| |done].
      apply (installed_after_store s a w); cbn; auto.
    + by exists s, w.
Qed.

Lemma socket_events_idempotent_witness :
  (ev_is_active (mkWatcher (ev_io 5 EV_READ) (Some 1%nat) EVENT_SOCKET_READ
                   (Some 1%nat) (Some 7%nat)) = true →
   startSocketEvents (Some 1%nat) with_socket = Ok tt with_socket)
  ∧ (ev_is_active (mkWatcher (ev_io 5 EV_READ) (Some 1%nat) EVENT_SOCKET_READ
                     (Some 1%nat) (Some 7%nat)) = false →
     stopSocketEvents (Some 1%nat) with_socket = Ok tt with_socket)
  ∧ (∃ s1 w1, startSocketEvents (Some 1%nat) with_socket = Ok tt s1
       ∧ heap s1 !! 1%nat = Some w1 ∧ ev_is_active w1 = true
       ∧ startSocketEvents (Some 1%nat) s1 = Ok tt s1)
  ∧ (∃ s2 w2, stopSocketEvents (Some 1%nat) with_socket = Ok tt s2
       ∧ heap s2 !! 1%nat = Some w2 ∧ ev_is_active w2 = false
       ∧ stopSocketEvents (Some 1%nat) s2 = Ok tt s2).
Proof.
  apply (socket_events_idempotent with_socket 1
           (mkWatcher (ev_io 5 EV_READ) (Some 1%nat) EVENT_SOCKET_READ (Some 1%nat)
              (Some 7%nat)) 1).
  - apply (reach_ok (C_install (I_socket EVENT_SOCKET_READ 5) 1 (Some 7%nat)) two_loops).
    + apply (reach_new 2 0 {[7%nat]} unborn). reflexivity.
    + reflexivity.
  - reflexivity.
  - reflexivity.
  - reflexivity.
Defined.

(** C1, as the code has it: uninstalling an installed watcher makes one
    stop call of the watcher's kind on the watcher's own loop and deletes
    the watcher; from then on the handle dangles, and every method that is
    given it again reads through a deleted object. *)
Theorem uninstall_deregisters_once (s : Scheduler) (a : nat) (w : Watcher) (l : nat) :
  reachable s →
  heap s !! a = Some w →
  loop w = Some l →
  ∃ s', uninstallEvent (Some a) s = Ok tt s'
    ∧ trace s' = trace s ++ [A_stop (kind_of (ev w)) l (PWatcher a); A_delete_watcher a]
    ∧ heap s' = delete a (heap s)
    ∧ uninstallEvent (Some a) s' = Fault
    ∧ sendAsync (Some a) s' = Fault
    ∧ (∀ offset interval, rearmPeriodic (Some a) offset interval s' = Fault)
    ∧ startSocketEvents (Some a) s' = Fault
    ∧ stopSocketEvents (Some a) s' = Fault
    ∧ clearTimer (Some a) s' = Fault
    ∧ (∀ timeout, rearmTimer (Some a) timeout s' = Fault).
Proof.
  intros Hr Hw Hl.
  pose proof (reachable_installed s a w l Hr Hw Hl) as Hi.
  eexists. split; [by apply uninstallEvent_spec|].
  split; [done|]. split; [done|].
  apply dangling_handle. cbn. apply lookup_delete_eq.
Qed.

Lemma uninstall_deregisters_once_witness :
  ∃ s', uninstallEvent (Some 1%nat) with_async = Ok tt s'
    ∧ trace s' = trace with_async
                 ++ [A_stop (kind_of (ev_async false)) 0%nat (PWatcher 1%nat);
                     A_delete_watcher 1%nat]
    ∧ heap s' = delete 1%nat (heap with_async)
    ∧ uninstallEvent (Some 1%nat) s' = Fault
    ∧ sendAsync (Some 1%nat) s' = Fault
    ∧ (∀ offset interval, rearmPeriodic (Some 1%nat) offset interval s' = Fault)
    ∧ startSocketEvents (Some 1%nat) s' = Fault
    ∧ stopSocketEvents (Some 1%nat) s' = Fault
    ∧ clearTimer (Some 1%nat) s' = Fault
    ∧ (∀ timeout, rearmTimer (Some 1%nat) timeout s' = Fault).
Proof.
  apply (uninstall_deregisters_once with_async 1
           (mkWatcher (ev_async false) (Some 0%nat) EVENT_ASYNC (Some 0%nat) (Some 7%nat))
           0).
  - apply (reach_ok (C_install I_async 0 (Some 7%nat)) two_loops).
    + apply (reach_new 2 0 {[7%nat]} unborn). reflexivity.
    + reflexivity.
  - reflexivity.
  - reflexivity.
Defined.

(** C1 as stated fails: after [uninstallEvent] on the handle of a freshly
    installed watcher, a second [uninstallEvent] and a [sendAsync] on the
    same handle do not return the state unchanged; they fault. *)
Lemma uninstall_then_reuse_is_not_a_no_op :
  SchedulerLibev 2 0 {[7%nat]} unborn = Ok tt two_loops
  ∧ installAsyncEvent 0 (Some 7%nat) two_loops = Ok (Some 1%nat) with_async
  ∧ returned (uninstallEvent (Some 1%nat) with_async) = true
  ∧ uninstallEvent (Some 1%nat) (state_of (uninstallEvent (Some 1%nat) with_async))
    = Fault
  ∧ sendAsync (Some 1%nat) (state_of (uninstallEvent (Some 1%nat) with_async))
    = Fault.
Proof. split_and!; reflexivity. Qed.

(** ** Dispatch *)

Lemma ev_iteration_watcher s l L inp a :
  evloops s !! l = Some L →
  ∃ s', ev_iteration l inp s = Ok tt s'
    ∧ heap s' = (λ w : Watcher, (reify l (mn_now L + dt inp) inp w).1) <$> heap s
    ∧ evloops s' !! l = Some (mkLoop (mn_now L + dt inp)
                                (loop_done L || existsb (waker_fired l) (_wakers s)))
    ∧ length (evloops s') = length (evloops s)
    ∧ active_tasks s' = active_tasks s
    ∧ trace s' = trace s
    ∧ invocations_of a (invocations s')
      = invocations_of a (invocations s)
        ++ match heap s !! a with
           | Some w => wakeup_of (active_tasks s) l (mn_now L + dt inp) inp a w
           | None => []
           end.
Proof.
  intros HL. eexists. split; [by apply ev_iteration_spec|]. cbn -[invocations_of].
  split_and!; try done.
  - apply list_lookup_insert_eq. by eapply lookup_lt_Some.
  - by rewrite length_insert.
  - by rewrite invocations_of_app, invocations_of_wakeup.
Qed.

(** [ev_loop] returns on every valid loop, whatever the wakeups bring. *)
Lemma ev_run_returns l inputs : ∀ s,
  (l < length (evloops s))%nat → ∃ s', ev_run l inputs s = Ok tt s'.
Proof.
  induction inputs as [|inp rest IH]; intros s Hl; [by eexists|].
  apply lookup_lt_is_Some in Hl as [L HL].
  destruct (ev_iteration_watcher s l L inp 0%nat HL) as (s1 & H1 & _ & Hl1 & Hlen & _).
  cbn [ev_run]. rewrite (bind_ok _ _ _ _ _ H1).
  unfold is_done, mbind at 1, M_bind at 1. rewrite Hl1. cbn.
  destruct (loop_done L || _); [by eexists|].
  apply IH. rewrite Hlen. by eapply lookup_lt_Some.
Qed.

Lemma ev_loop_returns l inputs s :
  (l < length (evloops s))%nat → ∃ s', ev_loop l inputs s = Ok tt s'.
Proof.
  intros Hl. pose proof Hl as [L HL]%lookup_lt_is_Some.
  unfold ev_loop, mbind, M_bind. rewrite HL.
  apply ev_run_returns. cbn. by rewrite length_insert.
Qed.

(** C5: a socket watcher whose descriptor is readable and writable in the
    same wakeup gets one [handleEvent] call with both bits; with one of the
    two conditions it gets one call with that bit.  The task is active. *)
Theorem socket_bits_in_one_call (s : Scheduler) (a : nat) (w : Watcher) (t : nat)
    (fd events : Z) :
  heap s !! a = Some w →
  ev w = ev_io fd events →
  task w = Some t →
  t ∈ active_tasks s →
  (∀ revents, has_bit revents EV_READ = true → has_bit revents EV_WRITE = true →
     socketCallback a revents s
     = Ok tt (set_invocations
                (invocations s
                 ++ [mkInvocation t a (Z.lor EVENT_SOCKET_READ EVENT_SOCKET_WRITE)]) s))
  ∧ (∀ revents, has_bit revents EV_READ = true → has_bit revents EV_WRITE = false →
     socketCallback a revents s
     = Ok tt (set_invocations (invocations s ++ [mkInvocation t a EVENT_SOCKET_READ]) s))
  ∧ (∀ revents, has_bit revents EV_READ = false → has_bit revents EV_WRITE = true →
     socketCallback a revents s
     = Ok tt (set_invocations (invocations s ++ [mkInvocation t a EVENT_SOCKET_WRITE]) s))
  ∧ (∀ l L inp,
       ev_reg w = Some l → evloops s !! l = Some L →
       has_bit (Z.land events (ready inp fd)) EV_READ = true →
       has_bit (Z.land events (ready inp fd)) EV_WRITE = true →
       ∃ s', ev_iteration l inp s = Ok tt s'
         ∧ invocations_of a (invocations s')
           = invocations_of a (invocations s)
             ++ [mkInvocation t a (Z.lor EVENT_SOCKET_READ EVENT_SOCKET_WRITE)]).
Proof.
  intros Hw He Ht Ha.
  assert (Hcb : ∀ revents, socketCallback a revents s
            = Ok tt (set_invocations
                       (invocations s ++ delivery (active_tasks s) a w revents) s)).
  { intros r. pose proof (callback_of_spec s a w r Hw) as H. by rewrite He in H. }
  assert (Hd : ∀ r, delivery (active_tasks s) a w r
            = if has_bit r EV_READ || has_bit r EV_WRITE
              then [mkInvocation t a (delivered_mask K_io r)] else []).
  { intros r. unfold delivery. rewrite Ht, He. cbn [kind_of fires].
    rewrite (bool_decide_eq_true_2 _ Ha). by rewrite andb_true_r. }
  split_and!.
  - intros r Hr Hwr. rewrite Hcb, Hd. cbn. by rewrite Hr, Hwr.
  - intros r Hr Hwr. rewrite Hcb, Hd. cbn. by rewrite Hr, Hwr.
  - intros r Hr Hwr. rewrite Hcb, Hd. cbn. by rewrite Hr, Hwr.
  - intros l L inp Hreg HL Hr Hwr.
    destruct (ev_iteration_watcher s l L inp a HL) as (s' & H1 & _ & _ & _ & _ & _ & Hinv).
    exists s'. split; [done|]. rewrite Hinv, Hw. f_equal.
    unfold wakeup_of, reify. rewrite decide_True by done. rewrite He. cbn [fst snd].
    destruct (Z.eqb_spec (Z.land events (ready inp fd)) 0) as [E|E].
    { rewrite E in Hr. done. }
    rewrite Hd. cbn. by rewrite Hr, Hwr.
Qed.

Lemma socket_bits_in_one_call_witness :
  (∀ revents, has_bit revents EV_READ = true → has_bit revents EV_WRITE = true →
     socketCallback 1%nat revents with_rw_socket
     = Ok tt (set_invocations
                (invocations with_rw_socket
                 ++ [mkInvocation 7%nat 1%nat (Z.lor EVENT_SOCKET_READ EVENT_SOCKET_WRITE)])
                with_rw_socket))
  ∧ (∀ revents, has_bit revents EV_READ = true → has_bit revents EV_WRITE = false →
     socketCallback 1%nat revents with_rw_socket
     = Ok tt (set_invocations
                (invocations with_rw_socket ++ [mkInvocation 7%nat 1%nat EVENT_SOCKET_READ])
                with_rw_socket))
  ∧ (∀ revents, has_bit revents EV_READ = false → has_bit revents EV_WRITE = true →
     socketCallback 1%nat revents with_rw_socket
     = Ok tt (set_invocations
                (invocations with_rw_socket ++ [mkInvocation 7%nat 1%nat EVENT_SOCKET_WRITE])
                with_rw_socket))
  ∧ (∀ l L inp,
       Some 1%nat = Some l → evloops with_rw_socket !! l = Some L →
       has_bit (Z.land (Z.lor EV_READ EV_WRITE) (ready inp 5)) EV_READ = true →
       has_bit (Z.land (Z.lor EV_READ EV_WRITE) (ready inp 5)) EV_WRITE = true →
       ∃ s', ev_iteration l inp with_rw_socket = Ok tt s'
         ∧ invocations_of 1%nat (invocations s')
           = invocations_of 1%nat (invocations with_rw_socket)
             ++ [mkInvocation 7%nat 1%nat (Z.lor EVENT_SOCKET_READ EVENT_SOCKET_WRITE)]).
Proof.
  apply (socket_bits_in_one_call with_rw_socket 1
           (mkWatcher (ev_io 5 (Z.lor EV_READ EV_WRITE)) (Some 1%nat) EVENT_SOCKET_READ
              (Some 1%nat) (Some 7%nat)) 7 5 (Z.lor EV_READ EV_WRITE)).
  - reflexivity.
  - reflexivity.
  - reflexivity.
  - vm_compute. set_solver.
Defined.

(** The wakeup of the witness does deliver both bits in one call. *)
Example both_ready_one_call :
  invocations (state_of (ev_iteration 1%nat both_ready with_rw_socket))
  = [mkInvocation 7%nat 1%nat (Z.lor EVENT_SOCKET_READ EVENT_SOCKET_WRITE)].
Proof. reflexivity. Qed.

(** C6: for each of the five watcher kinds, when the callback is run for an
    event of its watcher, [handleEvent] is invoked exactly if the task is
    active; with an inactive task the callback returns and leaves the state
    as it was.  A wakeup of a loop, and [ev_loop] as a whole, always return:
    nothing is thrown out of the dispatch cycle. *)
Theorem event_delivered_iff_task_active (s : Scheduler) (a : nat) (w : Watcher)
    (t : nat) (revents : Z) :
  heap s !! a = Some w →
  task w = Some t →
  fires (kind_of (ev w)) revents = true →
  (∃ s', callback_of (kind_of (ev w)) a revents s = Ok tt s'
     ∧ (t ∈ active_tasks s ↔ ∃ mask, invocations s' = invocations s ++ [mkInvocation t a mask])
     ∧ (t ∈ active_tasks s →
        invocations s'
        = invocations s ++ [mkInvocation t a (delivered_mask (kind_of (ev w)) revents)])
     ∧ (t ∉ active_tasks s → s' = s))
  ∧ (∀ l inp, (l < length (evloops s))%nat → ∃ s', ev_iteration l inp s = Ok tt s')
  ∧ (∀ l inputs, (l < length (evloops s))%nat → ∃ s', ev_loop l inputs s = Ok tt s').
Proof.
  intros Hw Ht Hf. split_and!.
  - eexists. split; [by apply callback_of_spec|].
    unfold delivery. rewrite Ht, Hf. cbn [andb].
    destruct (decide (t ∈ active_tasks s)) as [Ha|Ha].
    + rewrite (bool_decide_eq_true_2 _ Ha). cbn. split_and!; try done.
      split; [by eexists|done].
    + rewrite (bool_decide_eq_false_2 _ Ha). cbn. split_and!; try done.
      * split; [done|]. intros [mask Hm]. rewrite app_nil_r in Hm.
        apply (f_equal length) in Hm. rewrite length_app in Hm. cbn in Hm. lia.
      * intros _. by rewrite app_nil_r, set_invocations_id.
  - intros l inp [L HL]%lookup_lt_is_Some.
    destruct (ev_iteration_watcher s l L inp a HL) as (s' & H1 & _). by exists s'.
  - intros l inputs Hl. by apply ev_loop_returns.
Qed.

Lemma event_delivered_iff_task_active_witness :
  (∃ s', callback_of K_timer 1%nat EV_TIMER with_timer = Ok tt s'
     ∧ (7%nat ∈ active_tasks with_timer
        ↔ ∃ mask, invocations s' = invocations with_timer ++ [mkInvocation 7%nat 1%nat mask])
     ∧ (7%nat ∈ active_tasks with_timer →
        invocations s'
        = invocations with_timer ++ [mkInvocation 7%nat 1%nat (delivered_mask K_timer EV_TIMER)])
     ∧ (7%nat ∉ active_tasks with_timer → s' = with_timer))
  ∧ (∀ l inp, (l < length (evloops with_timer))%nat →
       ∃ s', ev_iteration l inp with_timer = Ok tt s')
  ∧ (∀ l inputs, (l < length (evloops with_timer))%nat →
       ∃ s', ev_loop l inputs with_timer = Ok tt s').
Proof.
  apply (event_delivered_iff_task_active with_timer 1
           (mkWatcher (ev_timer 5 0) (Some 0%nat) EVENT_TIMER (Some 0%nat) (Some 7%nat))
           7 EV_TIMER).
  - reflexivity.
  - reflexivity.
  - reflexivity.
Defined.

(** C10: in every state a scheduler can be in, a socket watcher carries
    the tag [EVENT_SOCKET_READ] and no watcher carries
    [EVENT_SOCKET_WRITE]; [installSocketEvent] leaves that tag whatever
    interest mask it is given, a mask of [EVENT_SOCKET_WRITE] alone
    included; and [uninstallEvent] stops a socket watcher with
    [ev_io_stop], through the [EVENT_SOCKET_READ] case. *)
Theorem socket_watchers_are_tagged_read (s : Scheduler) :
  reachable s →
  (∀ a w, heap s !! a = Some w → kind_of (ev w) = K_io → type w = EVENT_SOCKET_READ)
  ∧ (∀ a w, heap s !! a = Some w → type w ≠ EVENT_SOCKET_WRITE)
  ∧ (∀ i mask tk fd a s',
       installSocketEvent i mask tk fd s = Ok (Some a) s' →
       ∃ w, heap s' !! a = Some w
         ∧ type w = EVENT_SOCKET_READ
         ∧ ev w = ev_io fd (socket_flags mask))
  ∧ socket_flags EVENT_SOCKET_WRITE = EV_WRITE
  ∧ (∀ a w l, heap s !! a = Some w → kind_of (ev w) = K_io → loop w = Some l →
       (type w =? EVENT_SOCKET_READ) = true
       ∧ ∃ s', uninstallEvent (Some a) s = Ok tt s'
           ∧ trace s' = trace s ++ [A_stop K_io l (PWatcher a); A_delete_watcher a]
           ∧ heap s' !! a = None).
Proof.
  intros Hr. pose proof (reachable_inv s Hr) as Hinv. split_and!.
  - intros a w Hw Hk. destruct (watcher_inv_of s a w Hinv Hw) as [Ht _].
    by rewrite Ht, Hk.
  - intros a w Hw. destruct (watcher_inv_of s a w Hinv Hw) as [Ht _].
    rewrite Ht. by destruct (kind_of (ev w)).
  - intros i mask tk fd a s' H.
    destruct (Z.of_nat (nrThreads s) <=? size_t i) eqn:E.
    { change (install (I_socket mask fd) i tk s = Ok (Some a) s') in H.
      by rewrite (install_throw s (I_socket mask fd) i tk E) in H. }
    unfold installSocketEvent in H. unfold_monad. cbn in H. rewrite E in H.
    repeat (case_match; simplify_map_eq/=; try done).
    by eexists.
  - done.
  - intros a w l Hw Hk Hl.
    pose proof (reachable_installed s a w l Hr Hw Hl) as Hi.
    destruct (watcher_inv_of s a w Hinv Hw) as [Ht _]. rewrite Hk in Ht.
    split; [by rewrite Ht|].
    eexists. split; [by apply uninstallEvent_spec|]. rewrite Hk.
    split; [done|]. cbn. apply lookup_delete_eq.
Qed.

Lemma socket_watchers_are_tagged_read_witness :
  (∀ a w, heap with_write_socket !! a = Some w → kind_of (ev w) = K_io →
     type w = EVENT_SOCKET_READ)
  ∧ (∀ a w, heap with_write_socket !! a = Some w → type w ≠ EVENT_SOCKET_WRITE)
  ∧ (∀ i mask tk fd a s',
       installSocketEvent i mask tk fd with_write_socket = Ok (Some a) s' →
       ∃ w, heap s' !! a = Some w
         ∧ type w = EVENT_SOCKET_READ
         ∧ ev w = ev_io fd (socket_flags mask))
  ∧ socket_flags EVENT_SOCKET_WRITE = EV_WRITE
  ∧ (∀ a w l, heap with_write_socket !! a = Some w → kind_of (ev w) = K_io →
       loop w = Some l →
       (type w =? EVENT_SOCKET_READ) = true
       ∧ ∃ s', uninstallEvent (Some a) with_write_socket = Ok tt s'
           ∧ trace s' = trace with_write_socket
                        ++ [A_stop K_io l (PWatcher a); A_delete_watcher a]
           ∧ heap s' !! a = None).
Proof.
  apply (socket_watchers_are_tagged_read with_write_socket).
  apply (reach_ok (C_install (I_socket EVENT_SOCKET_WRITE 5) 1 (Some 7%nat)) two_loops).
  - apply (reach_new 2 0 {[7%nat]} unborn). reflexivity.
  - reflexivity.
Defined.

(** The watcher installed for writing alone: tagged for reading, asking
    libev for [EV_WRITE]. *)
Example write_only_socket_watcher :
  heap with_write_socket !! 1%nat
  = Some (mkWatcher (ev_io 5 EV_WRITE) (Some 1%nat) EVENT_SOCKET_READ (Some 1%nat)
            (Some 7%nat)).
Proof. reflexivity. Qed.

(** ** Teardown *)

Lemma emits_bind (m k : M unit) s tr1 tr2 :
  emits m s tr1 →
  (∀ s1, inv s1 → nrThreads s1 = nrThreads s → emits k s1 tr2) →
  emits (m ;; k) s (tr1 ++ tr2).
Proof.
  intros (s1 & H1 & Ht1 & Hi1 & Hn1) Hk.
  destruct (Hk s1 Hi1 Hn1) as (s2 & H2 & Ht2 & Hi2 & Hn2).
  exists s2. rewrite (bind_ok _ _ _ _ _ H1). split_and!; try done.
  - by rewrite Ht2, Ht1, app_assoc.
  - congruence.
Qed.

Lemma emits_skip s : inv s → emits skip s [].
Proof. intros Hi. exists s. by rewrite app_nil_r. Qed.

Lemma emits_emit s x : inv s → emits (emit x) s [x].
Proof.
  intros Hi. eexists. split; [done|]. split_and!; try done.
Qed.

Lemma emits_for_each {A} (xs : list A) (body : A → M unit) (f : A → list Action)
    (n : nat) (P : A → Prop) :
  (∀ x s, P x → inv s → nrThreads s = n → emits (body x) s (f x)) →
  ∀ s, Forall P xs → inv s → nrThreads s = n →
       emits (for_each xs body) s (flat_map f xs).
Proof.
  intros Hb. induction xs as [|x xs IH]; intros s HP Hi Hn; [by apply emits_skip|].
  apply Forall_cons in HP as [Hx HP].
  cbn [for_each flat_map]. apply emits_bind; [by apply Hb|].
  intros s1 Hi1 Hn1. apply IH; [done..|congruence].
Qed.

Lemma emits_wait running fuel : ∀ i s,
  inv s →
  emits (wait_for_threads running fuel i) s
    (replicate (rounds_waited running fuel i) (A_usleep 100)).
Proof.
  induction fuel as [|fuel IH]; intros i s Hi; [by apply emits_skip|].
  cbn [wait_for_threads rounds_waited]. destruct (running i); [|by apply emits_skip].
  cbn [replicate]. apply (emits_bind _ _ _ [_]); [by apply emits_emit|].
  intros s1 Hi1 _. by apply IH.
Qed.

Lemma emits_ev_async_stop_waker s i :
  inv s → (i < nrThreads s)%nat →
  emits (ev_async_stop i (PWaker i)) s [A_stop K_async i (PWaker i)].
Proof.
  intros Hi Hlt.
  assert (is_Some (_wakers s !! i)) as [k Hk].
  { apply lookup_lt_is_Some. destruct Hi as (_ & _ & -> & _). lia. }
  unfold emits, ev_async_stop, emit, get_waker, put_waker, modify, mbind, M_bind.
  cbn. rewrite Hk.
  destruct (inv_wakers s i k Hi Hk) as [Hr|Hr]; rewrite Hr.
  - eexists. by split_and!.
  - rewrite decide_True by done. eexists. split; [done|]. split_and!; try done.
    cbn. inv_leaf.
Qed.

Lemma emits_stop_waker s i :
  inv s → (i < nrThreads s)%nat →
  emits (l ← loops_at i; ev_async_stop l (PWaker i)) s [A_stop K_async i (PWaker i)].
Proof.
  intros Hi Hlt. pose proof (inv_loops_lookup s i Hi Hlt) as Hl.
  unfold emits, loops_at, mbind at 1, M_bind at 1. rewrite Hl.
  by apply emits_ev_async_stop_waker.
Qed.

Lemma emits_stop_and_destroy s i :
  inv s → (i < nrThreads s)%nat →
  emits (l ← loops_at i; ev_async_stop l (PWaker i) ;; ev_loop_destroy l) s
    [A_stop K_async i (PWaker i); A_loop_destroy i].
Proof.
  intros Hi Hlt. pose proof (inv_loops_lookup s i Hi Hlt) as Hl.
  unfold emits, loops_at, mbind at 1, M_bind at 1. rewrite Hl.
  apply (emits_bind _ _ _ [_] [_]); [by apply emits_ev_async_stop_waker|].
  intros s1 Hi1 _. by apply emits_emit.
Qed.

Lemma rounds_waited_le running fuel i : (rounds_waited running fuel i ≤ fuel)%nat.
Proof.
  revert i. induction fuel as [|fuel IH]; intros i; cbn; [lia|].
  destruct (running i); [|lia]. specialize (IH (S i)). lia.
Qed.

Lemma rounds_waited_all running fuel i :
  (∀ j, running j = true) → rounds_waited running fuel i = fuel.
Proof.
  intros H. revert i. induction fuel as [|fuel IH]; intros i; cbn; [done|].
  by rewrite H, IH.
Qed.

(** C4: the destructor returns, and what it does is the teardown sequence
    of section 4.4 in that order: begin shutdown in every thread; stop every
    thread and wait, a hundred rounds at most; for every loop but loop 0
    stop its waker and destroy the loop; stop the waker of loop 0 and
    destroy the default loop; release the threads, the wakers and the three
    arrays.  With threads that never exit it waits the hundred rounds and
    goes on all the same. *)
Theorem teardown_in_order (s : Scheduler) (running : nat → bool) :
  reachable s →
  ∃ s', SchedulerLibev_destroy running s = Ok tt s'
    ∧ trace s' = trace s ++ teardown_sequence (nrThreads s) (rounds_waited running 100 0)
    ∧ (rounds_waited running 100 0 ≤ 100)%nat
    ∧ ((∀ i, running i = true) → rounds_waited running 100 0 = 100%nat).
Proof.
  intros Hinv%reachable_inv.
  assert (H : emits (SchedulerLibev_destroy running) s
            (teardown_sequence (nrThreads s) (rounds_waited running 100 0))).
  { unfold SchedulerLibev_destroy, teardown_sequence, teardown_signal,
      teardown_stop_and_wait, teardown_other_loops, teardown_default_loop,
      teardown_release.
    unfold get, mbind at 1, M_bind at 1.
    assert (Hone : ∀ (g : nat → Action) xs,
              g <$> xs = flat_map (λ i, [g i]) xs).
    { intros g xs. induction xs as [|x xs IH]; [done|]. cbn. by rewrite IH. }
    rewrite !Hone.
    set (n := nrThreads s).
    apply emits_bind.
    { apply (emits_for_each _ _ _ n (λ _, True)); [|by apply Forall_true|done..].
      intros x s1 _ Hi1 _. by apply emits_emit. }
    intros s1 Hi1 Hn1. rewrite <- app_assoc. apply emits_bind.
    { apply (emits_for_each _ _ _ n (λ _, True)); [|by apply Forall_true|done..].
      intros x s2 _ Hi2 _. by apply emits_emit. }
    intros s2 Hi2 Hn2. apply emits_bind; [by apply emits_wait|].
    intros s3 Hi3 Hn3. apply emits_bind.
    { apply (emits_for_each _ _ _ n (λ i, (i < n)%nat)); [| |done|subst n; congruence].
      - intros i s4 Hlt Hi4 Hn4. apply emits_stop_and_destroy; [done|lia].
      - apply Forall_forall. intros i Hi%elem_of_seq. lia. }
    intros s4 Hi4 Hn4. apply (emits_bind _ _ _ [_] (_ :: _)).
    { apply emits_stop_waker; [done|]. destruct Hi4 as (? & _). lia. }
    intros s5 Hi5 Hn5. apply (emits_bind _ _ _ [_]); [by apply emits_emit|].
    intros s6 Hi6 Hn6. apply emits_bind.
    { apply (emits_for_each _ _ _ n (λ _, True)); [|by apply Forall_true|done|subst n; congruence].
      intros x s7 _ Hi7 _. apply (emits_bind _ _ _ [_] [_]); [by apply emits_emit|].
      intros s8 Hi8 _. by apply emits_emit. }
    intros s7 Hi7 Hn7. apply (emits_bind _ _ _ [_]); [by apply emits_emit|].
    intros s8 Hi8 Hn8. apply (emits_bind _ _ _ [_] [_]); [by apply emits_emit|].
    intros s9 Hi9 Hn9. by apply emits_emit. }
  destruct H as (s' & H1 & H2 & _). exists s'. split_and!; try done.
  - apply rounds_waited_le.
  - intros Hall. by apply rounds_waited_all.
Qed.

Lemma teardown_in_order_witness :
  ∃ s', SchedulerLibev_destroy (λ i, (i <? 3)%nat) two_loops = Ok tt s'
    ∧ trace s' = trace two_loops
                 ++ teardown_sequence (nrThreads two_loops)
                      (rounds_waited (λ i, (i <? 3)%nat) 100 0)
    ∧ (rounds_waited (λ i, (i <? 3)%nat) 100 0 ≤ 100)%nat
    ∧ ((∀ i, (i <? 3)%nat = true) → rounds_waited (λ i, (i <? 3)%nat) 100 0 = 100%nat).
Proof.
  apply (teardown_in_order two_loops (λ i, (i <? 3)%nat)).
  apply (reach_new 2 0 {[7%nat]} unborn). reflexivity.
Defined.

(** The teardown of two loops whose threads exit after three rounds. *)
Example teardown_of_two_loops :
  teardown_sequence 2 (rounds_waited (λ i, (i <? 3)%nat) 100 0)
  = [A_beginShutdown 0; A_beginShutdown 1;
     A_thread_stop 0; A_thread_stop 1;
     A_usleep 100; A_usleep 100; A_usleep 100;
     A_stop K_async 1%nat (PWaker 1); A_loop_destroy 1%nat;
     A_stop K_async 0%nat (PWaker 0); A_default_destroy;
     A_delete_thread 0; A_delete_waker 0; A_delete_thread 1; A_delete_waker 1;
     A_delete_loops; A_delete_threads; A_delete_wakers].
Proof. reflexivity. Qed.

(** ** Async watchers *)

Lemma reify_async l now inp w sent :
  ev_reg w = Some l → ev w = ev_async sent →
  reify l now inp w = if sent then (set_ev (ev_async false) w, EV_ASYNC) else (w, 0).
Proof. intros Hr He. unfold reify. rewrite decide_True by done. by rewrite He. Qed.

Section async.
Variables (a l t : nat).

Lemma sendAsync_async_at s sent :
  async_at a l t s sent →
  ∃ s', sendAsync (Some a) s = Ok tt s' ∧ async_at a l t s' true
        ∧ invocations s' = invocations s.
Proof.
  intros (w & Hw & He & Hl & Hr & Ht & Ha & Hlt).
  eexists. split; [apply (sendAsync_spec s a w l); by rewrite ?He|].
  split; [|done]. exists (set_ev (ev_async true) w). cbn.
  rewrite lookup_insert_eq. by split_and!.
Qed.

Lemma ev_iteration_async_at s sent inp :
  async_at a l t s sent →
  ∃ s', ev_iteration l inp s = Ok tt s' ∧ async_at a l t s' false
        ∧ invocations_of a (invocations s')
          = invocations_of a (invocations s)
            ++ (if sent then [mkInvocation t a EVENT_ASYNC] else []).
Proof.
  intros (w & Hw & He & Hl & Hr & Ht & Ha & Hlt).
  apply lookup_lt_is_Some in Hlt as [L HL].
  destruct (ev_iteration_watcher s l L inp a HL)
    as (s' & H1 & Hh & _ & Hlen & Hat & _ & Hinv).
  exists s'. split; [done|]. split.
  - exists (if sent then set_ev (ev_async false) w else w).
    rewrite Hh, lookup_fmap, Hw, Hat, Hlen. cbn.
    rewrite (reify_async _ _ _ _ sent) by done.
    split_and!; try (by destruct sent).
    by eapply lookup_lt_Some.
  - rewrite Hinv, Hw. f_equal. unfold wakeup_of.
    rewrite (reify_async _ _ _ _ sent) by done. destruct sent; [|done].
    cbn. unfold delivery. cbn. rewrite Ht. cbn.
    by rewrite (bool_decide_eq_true_2 _ Ha).
Qed.

Lemma send_times_async_at K : ∀ s sent,
  async_at a l t s sent →
  ∃ s', send_times K (Some a) s = Ok tt s'
        ∧ async_at a l t s' (if K is O then sent else true)
        ∧ invocations s' = invocations s.
Proof.
  induction K as [|K IH]; intros s sent H; [by exists s|].
  destruct (sendAsync_async_at s sent H) as (s1 & H1 & J1 & I1).
  destruct (IH s1 true J1) as (s2 & H2 & J2 & I2).
  exists s2. cbn [send_times]. rewrite (bind_ok _ _ _ _ _ H1).
  split_and!; [done| |congruence]. by destruct K.
Qed.

Lemma send_and_drain_async_at inputs : ∀ s sent,
  async_at a l t s sent →
  ∃ s', send_and_drain (Some a) l inputs s = Ok tt s'
        ∧ invocations_of a (invocations s')
          = invocations_of a (invocations s)
            ++ replicate (length inputs) (mkInvocation t a EVENT_ASYNC).
Proof.
  induction inputs as [|inp rest IH]; intros s sent H.
  { exists s. by rewrite app_nil_r. }
  destruct (sendAsync_async_at s sent H) as (s1 & H1 & J1 & I1).
  destruct (ev_iteration_async_at s1 true inp J1) as (s2 & H2 & J2 & I2).
  destruct (IH s2 false J2) as (s3 & H3 & I3).
  exists s3. cbn [send_and_drain].
  rewrite (bind_ok _ _ _ _ _ H1), (bind_ok _ _ _ _ _ H2). split; [done|].
  rewrite I3, I2, I1. cbn [length replicate]. by rewrite <- app_assoc.
Qed.
End async.

Lemma reachable_async_started s a w l :
  reachable s → heap s !! a = Some w → kind_of (ev w) = K_async → loop w = Some l →
  ev_reg w = Some l ∧ (l < length (evloops s))%nat.
Proof.
  intros Hr Hw Hk Hl.
  destruct (reachable_installed s a w l Hr Hw Hl) as (_ & _ & _ & Hlt & Hreg).
  destruct (watcher_inv_of s a w (reachable_inv s Hr) Hw) as (_ & _ & Ha).
  destruct (Ha Hk) as [l' Hl']; [by rewrite Hl|].
  split; [|done]. destruct Hreg as [E|E]; [congruence|done].
Qed.

(** C2: on the handle of an async watcher whose task is active, [K]
    calls of [sendAsync] ([K] at least 1) before the loop wakes up lead to
    one invocation of [handleEvent] in that wakeup; [K] calls with a wakeup
    of the loop after each lead to [K] invocations. *)
Theorem async_sends_coalesce (s : Scheduler) (a : nat) (w : Watcher) (l t : nat) :
  reachable s →
  heap s !! a = Some w →
  kind_of (ev w) = K_async →
  loop w = Some l →
  task w = Some t →
  t ∈ active_tasks s →
  (∀ K inp, (1 ≤ K)%nat →
     ∃ s', (send_times K (Some a) ;; ev_iteration l inp) s = Ok tt s'
       ∧ invocations_of a (invocations s')
         = invocations_of a (invocations s) ++ [mkInvocation t a EVENT_ASYNC])
  ∧ (∀ inputs,
     ∃ s', send_and_drain (Some a) l inputs s = Ok tt s'
       ∧ invocations_of a (invocations s')
         = invocations_of a (invocations s)
           ++ replicate (length inputs) (mkInvocation t a EVENT_ASYNC)).
Proof.
  intros Hr Hw Hk Hl Ht Ha.
  destruct (reachable_async_started s a w l Hr Hw Hk Hl) as [Hreg Hlt].
  destruct (ev w) as [sent| | | |] eqn:He; try discriminate.
  assert (J : async_at a l t s sent) by (exists w; by split_and!).
  split.
  - intros K inp HK.
    destruct (send_times_async_at a l t K s sent J) as (s1 & H1 & J1 & I1).
    destruct K as [|K]; [lia|].
    destruct (ev_iteration_async_at a l t s1 true inp J1) as (s2 & H2 & _ & I2).
    exists s2. rewrite (bind_ok _ _ _ _ _ H1). split; [done|]. by rewrite I2, I1.
  - intros inputs. by apply (send_and_drain_async_at a l t inputs s sent).
Qed.

Lemma async_sends_coalesce_witness :
  (∀ K inp, (1 ≤ K)%nat →
     ∃ s', (send_times K (Some 1%nat) ;; ev_iteration 0%nat inp) with_async = Ok tt s'
       ∧ invocations_of 1%nat (invocations s')
         = invocations_of 1%nat (invocations with_async)
           ++ [mkInvocation 7%nat 1%nat EVENT_ASYNC])
  ∧ (∀ inputs,
     ∃ s', send_and_drain (Some 1%nat) 0%nat inputs with_async = Ok tt s'
       ∧ invocations_of 1%nat (invocations s')
         = invocations_of 1%nat (invocations with_async)
           ++ replicate (length inputs) (mkInvocation 7%nat 1%nat EVENT_ASYNC)).
Proof.
  apply (async_sends_coalesce with_async 1
           (mkWatcher (ev_async false) (Some 0%nat) EVENT_ASYNC (Some 0%nat) (Some 7%nat))
           0 7).
  - apply (reach_ok (C_install I_async 0 (Some 7%nat)) two_loops).
    + apply (reach_new 2 0 {[7%nat]} unborn). reflexivity.
    + reflexivity.
  - reflexivity.
  - reflexivity.
  - reflexivity.
  - reflexivity.
  - vm_compute. set_solver.
Defined.

(** Three sends, one wakeup: one invocation.  Three sends with a wakeup
    after each: three invocations. *)
Example three_sends_one_wakeup :
  invocations (state_of ((send_times 3 (Some 1%nat) ;;
                          ev_iteration 0%nat (mkPollInput 1 (λ _, 0) [])) with_async))
  = [mkInvocation 7%nat 1%nat EVENT_ASYNC].
Proof. reflexivity. Qed.

Example three_sends_three_wakeups :
  invocations (state_of (send_and_drain (Some 1%nat) 0%nat
                           (replicate 3 (mkPollInput 1 (λ _, 0) [])) with_async))
  = replicate 3 (mkInvocation 7%nat 1%nat EVENT_ASYNC).
Proof. reflexivity. Qed.

(** ** Timers *)

Lemma reify_stopped l now inp w :
  ev_reg w = None → reify l now inp w = (w, 0).
Proof. intros Hr. unfold reify. rewrite Hr. by rewrite decide_False. Qed.

Lemma reify_timer l now inp w at_ repeat :
  ev_reg w = Some l → ev w = ev_timer at_ repeat → at_ ≤ now →
  reify l now inp w
  = (if repeat =? 0 then set_reg None (set_ev (ev_timer (at_ - now) repeat) w)
     else set_ev (ev_timer (if now <? at_ + repeat then at_ + repeat else now + repeat)
                    repeat) w,
     EV_TIMER).
Proof.
  intros Hr He Hle. unfold reify. rewrite decide_True by done. rewrite He.
  by rewrite (proj2 (Z.leb_le _ _) Hle).
Qed.

Lemma timer_delivery tasks a w t :
  kind_of (ev w) = K_timer → task w = Some t → t ∈ tasks →
  delivery tasks a w EV_TIMER = [mkInvocation t a EVENT_TIMER].
Proof.
  intros Hk Ht Ha. unfold delivery. rewrite Ht, Hk. cbn.
  by rewrite (bool_decide_eq_true_2 _ Ha).
Qed.

Lemma wakeups_dormant a l inputs : ∀ s,
  timer_dormant a l s →
  ∃ s', wakeups l inputs s = Ok tt s'
        ∧ timer_dormant a l s'
        ∧ invocations_of a (invocations s') = invocations_of a (invocations s).
Proof.
  induction inputs as [|inp rest IH]; intros s H; [by exists s|].
  destruct H as (w & Hw & Hr & Hlt).
  pose proof Hlt as [L HL]%lookup_lt_is_Some.
  destruct (ev_iteration_watcher s l L inp a HL)
    as (s1 & H1 & Hh & _ & Hlen & _ & _ & Hinv).
  destruct (IH s1) as (s2 & H2 & J2 & I2).
  { exists w. rewrite Hh, lookup_fmap, Hw, Hlen. cbn.
    by rewrite (reify_stopped _ _ _ _ Hr). }
  exists s2. unfold wakeups in *. cbn [for_each]. rewrite (bind_ok _ _ _ _ _ H1).
  split_and!; [done..|]. rewrite I2, Hinv, Hw. unfold wakeup_of.
  rewrite (reify_stopped _ _ _ _ Hr). cbn. by rewrite app_nil_r.
Qed.

Lemma wakeups_repeating a l t repeat inputs : ∀ s,
  0 < repeat →
  Forall (λ inp, repeat ≤ dt inp) inputs →
  timer_repeating a l t repeat s →
  ∃ s', wakeups l inputs s = Ok tt s'
        ∧ timer_repeating a l t repeat s'
        ∧ invocations_of a (invocations s')
          = invocations_of a (invocations s)
            ++ replicate (length inputs) (mkInvocation t a EVENT_TIMER).
Proof.
  induction inputs as [|inp rest IH]; intros s Hpos Hdt H.
  { exists s. by rewrite app_nil_r. }
  apply Forall_cons in Hdt as [Hdt Hrest].
  destruct H as (w & at_ & L & Hw & He & Hr & Ht & Ha & HL & Hat).
  destruct (ev_iteration_watcher s l L inp a HL)
    as (s1 & H1 & Hh & HL1 & Hlen & Hat1 & _ & Hinv).
  assert (Hdue : at_ ≤ mn_now L + dt inp) by lia.
  assert (Hz : (repeat =? 0) = false) by (apply Z.eqb_neq; lia).
  pose proof (reify_timer l _ inp w at_ repeat Hr He Hdue) as Hre. rewrite Hz in Hre.
  destruct (IH s1 Hpos Hrest) as (s2 & H2 & J2 & I2).
  { eexists _, _, _. rewrite Hh, lookup_fmap, Hw, Hat1. cbn. rewrite Hre. cbn.
    split_and!; try done. cbn. case_match; lia. }
  exists s2. unfold wakeups in *. cbn [for_each]. rewrite (bind_ok _ _ _ _ _ H1).
  split_and!; [done..|]. rewrite I2, Hinv, Hw. unfold wakeup_of. rewrite Hre.
  cbn [fst snd]. rewrite timer_delivery with (t := t); try done.
  cbn [length replicate]. by rewrite <- app_assoc.
Qed.

Lemma reify_timer_early l now inp w at_ repeat :
  ev_reg w = Some l → ev w = ev_timer at_ repeat → now < at_ →
  reify l now inp w = (w, 0).
Proof.
  intros Hr He Hlt. unfold reify. rewrite decide_True by done. rewrite He.
  by rewrite (proj2 (Z.leb_gt _ _) Hlt).
Qed.

Lemma wakeups_armed a l t inputs : ∀ left s,
  timer_armed a l t left s →
  ∃ s', wakeups l inputs s = Ok tt s'
        ∧ invocations_of a (invocations s')
          = invocations_of a (invocations s)
            ++ (if clock_reaches left inputs then [mkInvocation t a EVENT_TIMER] else []).
Proof.
  induction inputs as [|inp rest IH]; intros left s H.
  { exists s. by rewrite app_nil_r. }
  destruct H as (w & at_ & L & Hw & He & Hr & Ht & Ha & HL & Hleft).
  destruct (ev_iteration_watcher s l L inp a HL)
    as (s1 & H1 & Hh & HL1 & Hlen & Hat1 & _ & Hinv).
  unfold wakeups in *. cbn [for_each clock_reaches].
  rewrite (bind_ok _ _ _ _ _ H1).
  destruct (Z.leb_spec left (dt inp)) as [Hdue|Hearly].
  - pose proof (reify_timer l (mn_now L + dt inp) inp w at_ 0 Hr He ltac:(lia)) as Hre.
    cbn in Hre.
    destruct (wakeups_dormant a l rest s1) as (s2 & H2 & _ & I2).
    { eexists. rewrite Hh, lookup_fmap, Hw, Hlen. cbn. rewrite Hre. cbn.
      split_and!; [done..|]. by eapply lookup_lt_Some. }
    exists s2. split; [done|]. rewrite I2, Hinv, Hw. unfold wakeup_of.
    rewrite Hre. cbn [fst snd orb]. by rewrite timer_delivery with (t := t).
  - pose proof (reify_timer_early l (mn_now L + dt inp) inp w at_ 0 Hr He ltac:(lia))
      as Hre.
    destruct (IH (left - dt inp) s1) as (s2 & H2 & I2).
    { eexists w, at_, _. rewrite Hh, lookup_fmap, Hw, Hat1, HL1. cbn. rewrite Hre.
      split_and!; try done. cbn. lia. }
    exists s2. split; [done|]. rewrite I2, Hinv, Hw. unfold wakeup_of.
    rewrite Hre. cbn. by rewrite app_nil_r.
Qed.

Lemma clock_reaches_first t inp rest :
  t ≤ dt inp → clock_reaches t (inp :: rest) = true.
Proof. intros H. cbn. by rewrite (proj2 (Z.leb_le _ _) H). Qed.

(** With a clock that never runs backwards, the clock has reached [t] at
    some wakeup exactly if it has at the last one. *)
Lemma clock_reaches_total inputs : ∀ t,
  Forall (λ inp, 0 ≤ dt inp) inputs → inputs ≠ [] →
  clock_reaches t inputs = true ↔ t ≤ elapsed inputs.
Proof.
  induction inputs as [|inp rest IH]; intros t Hpos Hne; [done|].
  apply Forall_cons in Hpos as [Hp Hpos]. unfold elapsed in *. cbn [clock_reaches foldr].
  assert (Hsum : 0 ≤ foldr (λ inp acc, dt inp + acc) 0 rest).
  { clear -Hpos. induction Hpos; cbn; lia. }
  rewrite orb_true_iff, Z.leb_le.
  destruct rest as [|inp' rest'].
  - cbn. split; [intros [?|?]; [lia|done]|intros ?; left; lia].
  - rewrite (IH (t - dt inp)) by done. split; [intros [?|?]; lia|intros ?; right; lia].
Qed.

(** C3, as the code has it.  A timer installed on a valid loop with
    timeout [timeout] is single-shot: once the clock of the loop has
    advanced by at least [timeout], in one wakeup or in several, the task
    has got one [EVENT_TIMER], and no later wakeup brings another; whatever
    the wakeups, there is never more than one.  A timer re-armed with
    [rearmTimer] and a positive timeout is given that timeout as its repeat
    interval: it delivers one [EVENT_TIMER] in every wakeup in which the
    clock has advanced by at least the timeout, again and again.  The task
    is active. *)
Theorem timer_single_shot_until_rearmed (s : Scheduler) (t : nat) :
  reachable s →
  t ∈ active_tasks s →
  (∀ i timeout, 0 ≤ i < Z.of_nat (nrThreads s) → i < 2 ^ 64 →
     ∃ a s1, installTimerEvent i (Some t) timeout s = Ok (Some a) s1
       ∧ (∀ inputs,
            inputs ≠ [] → Forall (λ inp, 0 ≤ dt inp) inputs → timeout ≤ elapsed inputs →
            ∃ s2, wakeups (Z.to_nat i) inputs s1 = Ok tt s2
              ∧ invocations_of a (invocations s2)
                = invocations_of a (invocations s1) ++ [mkInvocation t a EVENT_TIMER])
       ∧ (∀ inputs,
            ∃ s2 n, wakeups (Z.to_nat i) inputs s1 = Ok tt s2
              ∧ (n ≤ 1)%nat
              ∧ invocations_of a (invocations s2)
                = invocations_of a (invocations s1)
                  ++ replicate n (mkInvocation t a EVENT_TIMER)))
  ∧ (∀ a w l timeout,
       heap s !! a = Some w → kind_of (ev w) = K_timer → loop w = Some l →
       task w = Some t → 0 < timeout →
       ∃ s1, rearmTimer (Some a) timeout s = Ok tt s1
         ∧ invocations s1 = invocations s
         ∧ ∀ inputs, Forall (λ inp, timeout ≤ dt inp) inputs →
             ∃ s2, wakeups l inputs s1 = Ok tt s2
               ∧ invocations_of a (invocations s2)
                 = invocations_of a (invocations s1)
                   ++ replicate (length inputs) (mkInvocation t a EVENT_TIMER)).
Proof.
  intros Hr Ha. pose proof (reachable_inv s Hr) as Hinv. split.
  - intros i timeout Hi Hi64.
    destruct (inv_evloops_lookup s (Z.to_nat i) Hinv ltac:(lia)) as [L HL].
    pose proof (install_ok s (I_timer timeout) i (Some t) L Hinv Hi Hi64 HL) as Hin.
    cbn [install installed_ev install_kind tag_of] in Hin.
    eexists _, _. split; [exact Hin|].
    set (l := Z.to_nat i) in *.
    set (w := mkWatcher (ev_timer (timeout + mn_now L) 0) (Some l) EVENT_TIMER (Some l)
                (Some t)).
    set (s1 := set_trace _ _).
    assert (Harmed : timer_armed (next s) l t timeout s1).
    { exists w, (timeout + mn_now L), L. split_and!; try done.
      - apply lookup_insert_eq.
      - lia. }
    split.
    + intros inputs Hne Hpos Hel.
      destruct (wakeups_armed (next s) l t inputs timeout s1 Harmed) as (s2 & H2 & I2).
      exists s2. split; [done|].
      by rewrite I2, (proj2 (clock_reaches_total inputs timeout Hpos Hne) Hel).
    + intros inputs.
      destruct (wakeups_armed (next s) l t inputs timeout s1 Harmed) as (s2 & H2 & I2).
      exists s2, (if clock_reaches timeout inputs then 1 else 0)%nat.
      split; [done|]. rewrite I2.
      destruct (clock_reaches timeout inputs); (split; [lia|done]).
  - intros a w l timeout Hw Hk Hl Ht Hpos.
    pose proof (reachable_installed s a w l Hr Hw Hl) as Hi.
    pose proof Hi as (_ & _ & _ & [L HL]%lookup_lt_is_Some & _).
    eexists. split; [apply (rearmTimer_spec s a w l L); (done || lia)|].
    split; [done|]. intros inputs Hdt.
    destruct (wakeups_repeating a l t timeout inputs
                (set_heap
                   (<[a := mkWatcher (ev_timer (mn_now L + timeout) timeout) (Some l)
                             (type w) (Some l) (task w)]> (heap s))
                   (set_trace (trace s ++ [A_again K_timer l (PWatcher a)]) s)))
      as (s2 & H2 & _ & I2); [done..| |by exists s2].
    eexists _, _, L. cbn. rewrite lookup_insert_eq. by split_and!.
Qed.

Lemma timer_single_shot_until_rearmed_witness :
  (∀ i timeout, 0 ≤ i < Z.of_nat (nrThreads with_timer) → i < 2 ^ 64 →
     ∃ a s1, installTimerEvent i (Some 7%nat) timeout with_timer = Ok (Some a) s1
       ∧ (∀ inputs,
            inputs ≠ [] → Forall (λ inp, 0 ≤ dt inp) inputs → timeout ≤ elapsed inputs →
            ∃ s2, wakeups (Z.to_nat i) inputs s1 = Ok tt s2
              ∧ invocations_of a (invocations s2)
                = invocations_of a (invocations s1) ++ [mkInvocation 7%nat a EVENT_TIMER])
       ∧ (∀ inputs,
            ∃ s2 n, wakeups (Z.to_nat i) inputs s1 = Ok tt s2
              ∧ (n ≤ 1)%nat
              ∧ invocations_of a (invocations s2)
                = invocations_of a (invocations s1)
                  ++ replicate n (mkInvocation 7%nat a EVENT_TIMER)))
  ∧ (∀ a w l timeout,
       heap with_timer !! a = Some w → kind_of (ev w) = K_timer → loop w = Some l →
       task w = Some 7%nat → 0 < timeout →
       ∃ s1, rearmTimer (Some a) timeout with_timer = Ok tt s1
         ∧ invocations s1 = invocations with_timer
         ∧ ∀ inputs, Forall (λ inp, timeout ≤ dt inp) inputs →
             ∃ s2, wakeups l inputs s1 = Ok tt s2
               ∧ invocations_of a (invocations s2)
                 = invocations_of a (invocations s1)
                   ++ replicate (length inputs) (mkInvocation 7%nat a EVENT_TIMER)).
Proof.
  apply (timer_single_shot_until_rearmed with_timer 7).
  - apply (reach_ok (C_install (I_timer 5) 0 (Some 7%nat)) two_loops).
    + apply (reach_new 2 0 {[7%nat]} unborn). reflexivity.
    + reflexivity.
  - vm_compute. set_solver.
Defined.

(** C3 as stated fails for a re-armed timer.  The timer of [with_timer]
    expires once and goes dormant; it is re-armed with 5; five units later
    it expires; five units after that it expires again, though nobody
    re-armed it a second time. *)
Lemma rearmed_timer_repeats :
  SchedulerLibev 2 0 {[7%nat]} unborn = Ok tt two_loops
  ∧ installTimerEvent 0 (Some 7%nat) 5 two_loops = Ok (Some 1%nat) with_timer
  ∧ ev_iteration 0%nat five_later with_timer = Ok tt timer_expired
  ∧ invocations timer_expired = [mkInvocation 7%nat 1%nat EVENT_TIMER]
  ∧ rearmTimer (Some 1%nat) 5 timer_expired = Ok tt timer_rearmed
  ∧ ev_iteration 0%nat five_later timer_rearmed = Ok tt rearmed_expired
  ∧ invocations rearmed_expired
    = invocations timer_rearmed ++ [mkInvocation 7%nat 1%nat EVENT_TIMER]
  ∧ ev_iteration 0%nat five_later rearmed_expired = Ok tt rearmed_expired_again
  ∧ invocations rearmed_expired_again
    = invocations rearmed_expired ++ [mkInvocation 7%nat 1%nat EVENT_TIMER]
  ∧ invocations_of 1%nat (invocations rearmed_expired_again)
    ≠ invocations_of 1%nat (invocations rearmed_expired).
Proof.
  split_and!; try reflexivity. vm_compute. discriminate.
Qed.

(** An installed timer that nobody re-arms stays silent after its expiry. *)
Example installed_timer_fires_once :
  invocations (state_of (wakeups 0%nat [five_later; five_later; five_later] with_timer))
  = [mkInvocation 7%nat 1%nat EVENT_TIMER].
Proof. reflexivity. Qed.

(** * Further properties *)

(** ** What the calls leave alone *)

Lemma waker_regs_insert (ws : list waker_t) i k b :
  ws !! i = Some k →
  wk_reg <$> <[i := mkWaker (wk_reg k) b]> ws = wk_reg <$> ws.
Proof.
  intros H. rewrite list_fmap_insert. cbn. apply list_insert_id.
  by rewrite list_lookup_fmap, H.
Qed.

Ltac frame_crush :=
  unfold_monad;
  repeat (case_match; simplify_eq/=; try done);
  unfold same_pool, no_dispatch; cbn;
  try (split_and!; first [done | lia | by eapply waker_regs_insert]).

Lemma methods_frame c :
  is_method c = true →
  respects (λ s s', same_pool s s' ∧ no_dispatch s s') (do_call c).
Proof.
  intros Hm s. destruct c; try discriminate; cbn [do_call].
  - destruct o; unfold install, installAsyncEvent, installPeriodicEvent,
      installSignalEvent, installSocketEvent, installTimerEvent; frame_crush.
  - destruct h; unfold uninstallEvent; frame_crush.
  - destruct h; unfold sendAsync; frame_crush.
  - destruct h; unfold rearmPeriodic; frame_crush.
  - destruct h; unfold startSocketEvents; frame_crush.
  - destruct h; unfold stopSocketEvents; frame_crush.
  - destruct h; unfold clearTimer; frame_crush.
  - destruct h; unfold rearmTimer; frame_crush.
  - unfold wakeupLoop; frame_crush.
Qed.

Lemma respects_bind {A B} (R : Scheduler → Scheduler → Prop) (m : M A) (f : A → M B) :
  (∀ s1 s2 s3, R s1 s2 → R s2 s3 → R s1 s3) →
  respects R m → (∀ a, respects R (f a)) → respects R (m ≫= f).
Proof.
  intros Htrans Hm Hf s. unfold mbind, M_bind. specialize (Hm s).
  destruct (m s) as [a s1|c s1|]; [|done..].
  specialize (Hf a s1). destruct (f a s1); eauto.
Qed.

Lemma same_pool_refl s : same_pool s s.
Proof. by unfold same_pool. Qed.

Lemma same_pool_trans s1 s2 s3 : same_pool s1 s2 → same_pool s2 s3 → same_pool s1 s3.
Proof.
  intros (A1 & A2 & A3 & A4 & A5) (B1 & B2 & B3 & B4 & B5).
  unfold same_pool. split_and!; try congruence. lia.
Qed.

Lemma waker_reify_regs l (ws : list waker_t) :
  wk_reg <$> (waker_reify l <$> ws) = wk_reg <$> ws.
Proof.
  rewrite <- list_fmap_compose. apply list_fmap_ext. intros i k _. cbn.
  apply waker_reify_reg.
Qed.

Lemma ev_iteration_same_pool l inp : respects same_pool (ev_iteration l inp).
Proof.
  intros s. destruct (evloops s !! l) as [L|] eqn:HL.
  - rewrite (ev_iteration_spec _ _ _ _ HL). unfold same_pool. cbn.
    split_and!; try done.
    + apply waker_reify_regs.
    + by rewrite length_insert.
  - unfold ev_iteration, loop_now, mbind, M_bind. by rewrite HL.
Qed.

Lemma ev_run_same_pool l inputs : respects same_pool (ev_run l inputs).
Proof.
  induction inputs as [|inp rest IH]; [intros s; apply same_pool_refl|].
  cbn [ev_run]. apply respects_bind; [apply same_pool_trans|apply ev_iteration_same_pool|].
  intros _. apply respects_bind; [apply same_pool_trans| |].
  - intros s. unfold is_done. destruct (evloops s !! l); [apply same_pool_refl|done].
  - intros [|]; [intros s; apply same_pool_refl|done].
Qed.

Lemma lookupLoop_same_pool loop : respects same_pool (lookupLoop loop).
Proof.
  intros s. unfold_monad. repeat (case_match; simplify_eq/=; try done); apply same_pool_refl.
Qed.

Lemma do_call_same_pool c : respects same_pool (do_call c).
Proof.
  destruct (is_method c) eqn:Hm.
  { intros s. pose proof (methods_frame c Hm s) as H.
    by destruct (do_call c s) as [? ?|? ?|]; [destruct H..|]. }
  destruct c; try discriminate; cbn [do_call].
  - apply respects_bind; [apply same_pool_trans|apply lookupLoop_same_pool|intros l].
    unfold ev_loop. apply respects_bind; [apply same_pool_trans| |intros _; apply ev_run_same_pool].
    intros s. destruct (evloops s !! l) eqn:E; [|done]. unfold same_pool. cbn.
    split_and!; try done. by rewrite length_insert.
  - apply respects_bind; [apply same_pool_trans|apply lookupLoop_same_pool|intros l].
    apply ev_iteration_same_pool.
  - intros s. by unfold same_pool.
Qed.


(** X3: a method call (install, uninstall, rearm, start, stop, clear,
    send, wakeupLoop) never runs a handler itself: whether it returns or
    throws, no invocation of [handleEvent] has been added, and the clocks of
    the loops and the liveness of the tasks are as before.  Handlers are run
    by the wakeups of a loop alone. *)
Theorem methods_never_dispatch (c : Call) (s : Scheduler) :
  is_method c = true →
  match do_call c s with
  | Ok _ s' | Throw _ s' =>
      invocations s' = invocations s
      ∧ evloops s' = evloops s
      ∧ active_tasks s' = active_tasks s
  | Fault => True
  end.
Proof.
  intros Hm. pose proof (methods_frame c Hm s) as H.
  destruct (do_call c s) as [? ?|? ?|]; [| |done];
    destruct H as (_ & H1 & H2 & H3); by split_and!.
Qed.

Lemma methods_never_dispatch_witness :
  match do_call (C_sendAsync (Some 1%nat)) with_async with
  | Ok _ s' | Throw _ s' =>
      invocations s' = invocations with_async
      ∧ evloops s' = evloops with_async
      ∧ active_tasks s' = active_tasks with_async
  | Fault => True
  end.
Proof.
  apply (methods_never_dispatch (C_sendAsync (Some 1%nat)) with_async). reflexivity.
Defined.

(** ** The constructor *)

Lemma start_wakers_loop m : ∀ k s,
  _loops s = seq 0 (k + m) →
  _wakers s = ((λ i, mkWaker (Some i) false) <$> seq 0 k) ++ replicate m (mkWaker None false) →
  for_each (seq k m) (λ i, l ← loops_at i; ev_async_start l (PWaker i)) s
  = Ok tt (set_wakers ((λ i, mkWaker (Some i) false) <$> seq 0 (k + m))
             (set_trace (trace s ++ ((λ i, A_start K_async i (PWaker i)) <$> seq k m)) s)).
Proof.
  induction m as [|m IH]; intros k s Hl Hw.
  - cbn. rewrite Nat.add_0_r, app_nil_r. rewrite app_nil_r in Hw. rewrite <- Hw.
    by destruct s.
  - cbn [seq for_each].
    assert (Hlk : _loops s !! k = Some k).
    { rewrite Hl. apply lookup_seq_lt. lia. }
    assert (Hwk : _wakers s !! k = Some (mkWaker None false)).
    { rewrite Hw, lookup_app_r; rewrite length_fmap, length_seq; [|lia].
      by rewrite Nat.sub_diag. }
    assert (Hstep : (l ← loops_at k; ev_async_start l (PWaker k)) s
              = Ok tt (set_wakers (<[k := mkWaker (Some k) false]> (_wakers s))
                         (set_trace (trace s ++ [A_start K_async k (PWaker k)]) s))).
    { unfold loops_at, ev_async_start, emit, get_waker, put_waker, modify, mbind, M_bind.
      rewrite Hlk. cbn. by rewrite Hwk. }
    rewrite (bind_ok _ _ _ _ _ Hstep). rewrite IH.
    + cbn. rewrite <- app_assoc. cbn. by rewrite <- Nat.add_succ_comm.
    + cbn [_loops set_wakers set_trace]. rewrite Hl. f_equal. lia.
    + cbn [_wakers set_wakers set_trace]. rewrite Hw.
      rewrite insert_app_r_alt; rewrite length_fmap, length_seq; [|lia].
      rewrite Nat.sub_diag, (seq_S k 0), fmap_app, <- app_assoc. reflexivity.
Qed.

Lemma SchedulerLibev_spec (n : nat) (now : Z) (tasks : gset nat) (s0 : Scheduler) :
  ∃ s, SchedulerLibev (S n) now tasks s0 = Ok tt s
    ∧ nrThreads s = S n
    ∧ _wakers s = (λ i, mkWaker (Some i) false) <$> seq 0 (S n).
Proof.
  unfold SchedulerLibev. rewrite (start_wakers_loop (S n) 0); [|done..].
  eexists. by split_and!.
Qed.

(** X1: the constructor, given at least one thread, returns a scheduler
    without any watcher in which loop [i] is entry [i] of the array of loops
    and has its own waker, started on that loop and not yet sent; libev was
    asked to start each waker once, in the order of the loops.  With no
    thread at all the constructor writes out of bounds. *)
Theorem constructor_starts_one_waker_per_loop
    (concurrency : nat) (now : Z) (tasks : gset nat) (s0 : Scheduler) :
  (1 ≤ concurrency)%nat →
  ∃ s, SchedulerLibev concurrency now tasks s0 = Ok tt s
    ∧ nrThreads s = concurrency
    ∧ heap s = ∅
    ∧ invocations s = []
    ∧ length (evloops s) = concurrency
    ∧ trace s = (λ i, A_start K_async i (PWaker i)) <$> seq 0 concurrency
    ∧ (∀ i, (i < concurrency)%nat →
         _loops s !! i = Some i ∧ _wakers s !! i = Some (mkWaker (Some i) false))
    ∧ SchedulerLibev 0 now tasks s0 = Fault.
Proof.
  intros Hn. destruct concurrency as [|n]; [lia|].
  unfold SchedulerLibev.
  rewrite (start_wakers_loop (S n) 0); [|done..].
  eexists. split; [done|]. cbn -[seq replicate].
  split_and!; try done.
  - by rewrite length_replicate.
  - intros i Hi. split; [by apply lookup_seq_lt|].
    rewrite list_lookup_fmap, lookup_seq_lt by done. done.
Qed.

Lemma constructor_starts_one_waker_per_loop_witness :
  ∃ s, SchedulerLibev 2 0 {[7%nat]} unborn = Ok tt s
    ∧ nrThreads s = 2%nat
    ∧ heap s = ∅
    ∧ invocations s = []
    ∧ length (evloops s) = 2%nat
    ∧ trace s = (λ i, A_start K_async i (PWaker i)) <$> seq 0 2
    ∧ (∀ i, (i < 2)%nat →
         _loops s !! i = Some i ∧ _wakers s !! i = Some (mkWaker (Some i) false))
    ∧ SchedulerLibev 0 0 {[7%nat]} unborn = Fault.
Proof.
  apply (constructor_starts_one_waker_per_loop 2 0 {[7%nat]} unborn). lia.
Defined.

(** ** Waking a loop *)

Lemma reachable_wakers_started s :
  reachable s → wk_reg <$> _wakers s = Some <$> seq 0 (nrThreads s).
Proof.
  induction 1 as [n now tasks s0 s H|c s s' _ IH H|c s code s' _ IH H].
  - destruct n as [|n]; [done|].
    destruct (SchedulerLibev_spec n now tasks s0) as (s1 & H1 & Hn & Hw).
    rewrite H in H1. injection H1 as <-. rewrite Hn, Hw, <- list_fmap_compose.
    by apply list_fmap_ext.
  - pose proof (do_call_same_pool c s) as Hp. rewrite H in Hp.
    destruct Hp as (-> & _ & -> & _). done.
  - pose proof (do_call_same_pool c s) as Hp. rewrite H in Hp.
    destruct Hp as (-> & _ & -> & _). done.
Qed.

Lemma waker_fired_at (ws : list waker_t) l : ∀ j m,
  wk_reg <$> ws = Some <$> seq j m →
  existsb (waker_fired l) ws
  = if decide (j ≤ l)%nat then
      match ws !! (l - j)%nat with Some k => wk_sent k | None => false end
    else false.
Proof.
  induction ws as [|k ws IH]; intros j m H.
  - cbn. by destruct (decide _).
  - destruct m as [|m]; [done|]. cbn in H. injection H as Hk Hrest.
    cbn [existsb]. rewrite (IH (S j) m Hrest). unfold waker_fired at 1. rewrite Hk.
    destruct (decide (j = l)) as [->|Hne].
    + rewrite bool_decide_eq_true_2 by done.
      rewrite (decide_True (P := (l ≤ l)%nat)) by lia.
      rewrite (decide_False (P := (S l ≤ l)%nat)) by lia.
      rewrite Nat.sub_diag. cbn. by rewrite orb_false_r.
    + rewrite bool_decide_eq_false_2 by congruence. cbn.
      destruct (decide (S j ≤ l)%nat) as [Hle|Hgt].
      * rewrite (decide_True (P := (j ≤ l)%nat)) by lia.
        by replace (l - j)%nat with (S (l - S j)) by lia.
      * by rewrite (decide_False (P := (j ≤ l)%nat)) by lia.
Qed.

Lemma reachable_waker_fired s l k :
  reachable s → _wakers s !! l = Some k →
  existsb (waker_fired l) (_wakers s) = wk_sent k.
Proof.
  intros Hr Hk. rewrite (waker_fired_at _ l 0 _ (reachable_wakers_started s Hr)).
  rewrite decide_True by lia. by rewrite Nat.sub_0_r, Hk.
Qed.

Lemma waker_fired_lookup (ws : list waker_t) l k n :
  wk_reg <$> ws = Some <$> seq 0 n → ws !! l = Some k →
  existsb (waker_fired l) ws = wk_sent k.
Proof.
  intros Hr Hk. rewrite (waker_fired_at _ l 0 _ Hr).
  rewrite decide_True by lia. by rewrite Nat.sub_0_r, Hk.
Qed.

Lemma waker_reify_unwoken (ws : list waker_t) l :
  existsb (waker_fired l) ws = false → waker_reify l <$> ws = ws.
Proof.
  induction ws as [|k ws IH]; [done|]. cbn [existsb]. intros [Hk Hws]%orb_false_iff.
  cbn. rewrite IH by done. unfold waker_reify. by rewrite Hk.
Qed.

Lemma ev_run_unwoken l inputs : ∀ s now,
  evloops s !! l = Some (mkLoop now false) →
  existsb (waker_fired l) (_wakers s) = false →
  ∃ s', ev_run l inputs s = Ok tt s'
    ∧ evloops s' !! l = Some (mkLoop (now + elapsed inputs) false)
    ∧ _wakers s' = _wakers s.
Proof.
  induction inputs as [|inp rest IH]; intros s now HL Hw.
  { exists s. unfold elapsed. cbn. by rewrite Z.add_0_r. }
  pose proof (ev_iteration_spec l inp s _ HL) as H1. cbn in H1.
  rewrite Hw, (waker_reify_unwoken _ _ Hw) in H1.
  assert (Hlt : (l < length (evloops s))%nat) by by eapply lookup_lt_Some.
  cbn [ev_run]. rewrite (bind_ok _ _ _ _ _ H1).
  unfold is_done, mbind at 1, M_bind at 1. cbn.
  rewrite list_lookup_insert_eq by done. cbn.
  match goal with
  | |- ∃ s', ev_run l rest ?st = _ ∧ _ =>
      destruct (IH st (now + dt inp)) as (s' & H2 & HL2 & Hw2)
  end.
  - cbn. by apply list_lookup_insert_eq.
  - done.
  - exists s'. split; [exact H2|]. split; [|done]. rewrite HL2. unfold elapsed. cbn.
    do 2 f_equal. lia.
Qed.

(** X4: [wakeupLoop(i)] makes [eventLoop(i)] return.  On a valid index
    [wakeupLoop] returns; the loop, run next, comes back after its first
    wakeup whatever further wakeups the world had in store, with the waker
    consumed; any other loop whose waker was not sent is not stopped by it
    and runs through all its wakeups. *)
Theorem wakeupLoop_ends_eventLoop (s : Scheduler) (i : Z) (inp : PollInput)
    (rest : list PollInput) :
  reachable s →
  0 ≤ i < Z.of_nat (nrThreads s) →
  i < 2 ^ 64 →
  ∃ L s1 s2,
    evloops s !! Z.to_nat i = Some L
    ∧ wakeupLoop i s = Ok tt s1
    ∧ eventLoop i (inp :: rest) s1 = Ok tt s2
    ∧ evloops s2 !! Z.to_nat i = Some (mkLoop (mn_now L + dt inp) true)
    ∧ _wakers s2 !! Z.to_nat i = Some (mkWaker (Some (Z.to_nat i)) false)
    ∧ ∀ j Lj k inputs,
        0 ≤ j < Z.of_nat (nrThreads s) → j < 2 ^ 64 → j ≠ i →
        evloops s !! Z.to_nat j = Some Lj →
        _wakers s !! Z.to_nat j = Some k → wk_sent k = false →
        ∃ s3, eventLoop j inputs s1 = Ok tt s3
          ∧ evloops s3 !! Z.to_nat j = Some (mkLoop (mn_now Lj + elapsed inputs) false).
Proof.
  intros Hr Hi Hi64. pose proof (reachable_inv s Hr) as Hinv.
  pose proof (reachable_wakers_started s Hr) as Hregs.
  destruct (inv_evloops_lookup s (Z.to_nat i) Hinv ltac:(lia)) as [L HL].
  assert (is_Some (_wakers s !! Z.to_nat i)) as [k Hk].
  { apply lookup_lt_is_Some. destruct Hinv as (_ & _ & -> & _). lia. }
  assert (Hkreg : wk_reg k = Some (Z.to_nat i)).
  { apply (f_equal (λ l, l !! Z.to_nat i)) in Hregs.
    rewrite !list_lookup_fmap, Hk, lookup_seq_lt in Hregs by lia. by injection Hregs. }
  pose proof (wakeupLoop_in s i k Hinv Hi Hi64 Hk) as H1.
  set (l := Z.to_nat i) in *. set (s1 := set_wakers _ _) in H1.
  assert (Hr1 : reachable s1) by (by apply (reach_ok (C_wakeupLoop i) s)).
  pose proof (reachable_inv s1 Hr1) as Hinv1.
  assert (Hlt : (l < length (_wakers s))%nat) by (by eapply lookup_lt_Some).
  assert (Hllt : (l < length (evloops s))%nat) by (by eapply lookup_lt_Some).
  exists L, s1. 
  assert (Hregs1 : wk_reg <$> _wakers s1 = Some <$> seq 0 (nrThreads s)).
  { by apply (reachable_wakers_started s1 Hr1). }
  assert (Hloop : ∀ j inputs, 0 ≤ j < Z.of_nat (nrThreads s) → j < 2 ^ 64 →
            eventLoop j inputs s1
            = match evloops s !! Z.to_nat j with
              | Some Lj => ev_run (Z.to_nat j) inputs
                             (set_evloops (<[Z.to_nat j := mkLoop (mn_now Lj) false]>
                                             (evloops s)) s1)
              | None => Fault
              end).
  { intros j inputs Hj Hj64. unfold eventLoop.
    rewrite (bind_ok _ _ _ _ _ (lookupLoop_in s1 j Hinv1 Hj Hj64)).
    unfold ev_loop, mbind at 1, M_bind at 1. cbn. by destruct (evloops s !! Z.to_nat j). }
  eexists. split; [done|]. split; [done|].
  rewrite (Hloop i (inp :: rest) Hi Hi64). fold l. rewrite HL.
  set (sr := set_evloops _ s1).
  assert (HLr : evloops sr !! l = Some (mkLoop (mn_now L) false)).
  { cbn. by apply list_lookup_insert_eq. }
  pose proof (ev_iteration_spec l inp sr _ HLr) as H2. cbv zeta in H2.
  rewrite (waker_fired_lookup (_wakers sr) l (mkWaker (wk_reg k) true) _ Hregs1) in H2.
  2:{ cbn. by apply list_lookup_insert_eq. }
  cbn in H2. cbn [ev_run]. rewrite (bind_ok _ _ _ _ _ H2).
  unfold is_done, mbind at 1, M_bind at 1. cbn.
  rewrite list_lookup_insert_eq by (by rewrite length_insert). cbn.
  split; [reflexivity|]. cbn. split_and!.
  - apply list_lookup_insert_eq. by rewrite length_insert.
  - rewrite list_lookup_fmap, list_lookup_insert_eq by done. cbn.
    unfold waker_reify, waker_fired. cbn. rewrite Hkreg.
    by rewrite bool_decide_eq_true_2.
  - intros j Lj kj inputs Hj Hj64 Hne HLj Hkj Hsent.
    rewrite (Hloop j inputs Hj Hj64), HLj.
    match goal with
    | |- ∃ s3, ev_run _ _ ?st = _ ∧ _ =>
        destruct (ev_run_unwoken (Z.to_nat j) inputs st (mn_now Lj))
          as (s3 & H3 & HL3 & _)
    end.
    + cbn. apply list_lookup_insert_eq. by eapply lookup_lt_Some.
    + change (existsb (waker_fired (Z.to_nat j)) (_wakers s1) = false).
      rewrite (waker_fired_lookup (_wakers s1) (Z.to_nat j) kj _ Hregs1); [done|].
      cbn. rewrite list_lookup_insert_ne by (subst l; lia). done.
    + by exists s3.
Qed.

Lemma wakeupLoop_ends_eventLoop_witness :
  ∃ L s1 s2,
    evloops two_loops !! Z.to_nat 1 = Some L
    ∧ wakeupLoop 1 two_loops = Ok tt s1
    ∧ eventLoop 1 (five_later :: [five_later]) s1 = Ok tt s2
    ∧ evloops s2 !! Z.to_nat 1 = Some (mkLoop (mn_now L + dt five_later) true)
    ∧ _wakers s2 !! Z.to_nat 1 = Some (mkWaker (Some (Z.to_nat 1)) false)
    ∧ ∀ j Lj k inputs,
        0 ≤ j < Z.of_nat (nrThreads two_loops) → j < 2 ^ 64 → j ≠ 1 →
        evloops two_loops !! Z.to_nat j = Some Lj →
        _wakers two_loops !! Z.to_nat j = Some k → wk_sent k = false →
        ∃ s3, eventLoop j inputs s1 = Ok tt s3
          ∧ evloops s3 !! Z.to_nat j = Some (mkLoop (mn_now Lj + elapsed inputs) false).
Proof.
  apply (wakeupLoop_ends_eventLoop two_loops 1 five_later [five_later]).
  - apply (reach_new 2 0 {[7%nat]} unborn). reflexivity.
  - vm_compute. split; [discriminate|reflexivity].
  - lia.
Defined.

(** ** Running, installing, uninstalling *)



(** X6: an install on a valid loop returns a handle that was not in use,
    asks libev for one start of the watcher's kind on that loop, and leaves
    every watcher that was there untouched, and the wakers and the clocks
    with them. *)
Theorem install_returns_a_fresh_handle (s : Scheduler) (o : InstallOp) (i : Z)
    (tk : option nat) :
  reachable s →
  0 ≤ i < Z.of_nat (nrThreads s) →
  i < 2 ^ 64 →
  ∃ a s', install o i tk s = Ok (Some a) s'
    ∧ heap s !! a = None
    ∧ (∀ b w, heap s !! b = Some w → b ≠ a ∧ heap s' !! b = Some w)
    ∧ dom (heap s') = {[a]} ∪ dom (heap s)
    ∧ trace s' = trace s ++ [A_start (install_kind o) (Z.to_nat i) (PWatcher a)]
    ∧ _wakers s' = _wakers s
    ∧ evloops s' = evloops s.
Proof.
  intros Hr Hi Hi64. pose proof (reachable_inv s Hr) as Hinv.
  destruct (inv_evloops_lookup s (Z.to_nat i) Hinv ltac:(lia)) as [L HL].
  assert (Hfresh : heap s !! next s = None).
  { destruct (heap s !! next s) as [w|] eqn:E; [|done].
    pose proof (watcher_below s _ w Hinv E). lia. }
  eexists _, _. split; [by apply (install_ok s o i tk L)|]. cbn.
  split_and!; try done.
  - intros b w Hb. assert (b ≠ next s) by (intros ->; congruence).
    split; [done|]. by rewrite lookup_insert_ne.
  - apply dom_insert_L.
Qed.

Lemma install_returns_a_fresh_handle_witness :
  ∃ a s', install (I_signal 15) 1 (Some 7%nat) with_timer = Ok (Some a) s'
    ∧ heap with_timer !! a = None
    ∧ (∀ b w, heap with_timer !! b = Some w → b ≠ a ∧ heap s' !! b = Some w)
    ∧ dom (heap s') = {[a]} ∪ dom (heap with_timer)
    ∧ trace s' = trace with_timer
                 ++ [A_start (install_kind (I_signal 15)) (Z.to_nat 1) (PWatcher a)]
    ∧ _wakers s' = _wakers with_timer
    ∧ evloops s' = evloops with_timer.
Proof.
  apply (install_returns_a_fresh_handle with_timer (I_signal 15) 1 (Some 7%nat)).
  - apply (reach_ok (C_install (I_timer 5) 0 (Some 7%nat)) two_loops).
    + apply (reach_new 2 0 {[7%nat]} unborn). reflexivity.
    + reflexivity.
  - vm_compute. split; [discriminate|reflexivity].
  - lia.
Defined.

(** X7: installing a watcher and uninstalling the handle that came back
    leaves the live watchers, the wakers, the clocks and the invocations as
    they were before the install; libev saw one start and one stop of the
    same kind on the same loop for that watcher, and the object was
    deleted. *)
Theorem install_then_uninstall_restores (s : Scheduler) (o : InstallOp) (i : Z)
    (tk : option nat) :
  reachable s →
  0 ≤ i < Z.of_nat (nrThreads s) →
  i < 2 ^ 64 →
  ∃ a s1 s2, install o i tk s = Ok (Some a) s1
    ∧ uninstallEvent (Some a) s1 = Ok tt s2
    ∧ heap s2 = heap s
    ∧ _wakers s2 = _wakers s
    ∧ evloops s2 = evloops s
    ∧ invocations s2 = invocations s
    ∧ trace s2 = trace s ++ [A_start (install_kind o) (Z.to_nat i) (PWatcher a);
                             A_stop (install_kind o) (Z.to_nat i) (PWatcher a);
                             A_delete_watcher a].
Proof.
  intros Hr Hi Hi64. pose proof (reachable_inv s Hr) as Hinv.
  destruct (inv_evloops_lookup s (Z.to_nat i) Hinv ltac:(lia)) as [L HL].
  assert (Hfresh : heap s !! next s = None).
  { destruct (heap s !! next s) as [w|] eqn:E; [|done].
    pose proof (watcher_below s _ w Hinv E). lia. }
  pose proof (install_ok s o i tk L Hinv Hi Hi64 HL) as H1. cbv zeta in H1.
  eexists _, _, _. split; [exact H1|]. split.
  - apply uninstallEvent_spec with (l := Z.to_nat i). unfold installed. cbn.
    rewrite lookup_insert_eq. split_and!; try done.
    + by destruct o.
    + by eapply lookup_lt_Some.
    + by right.
  - cbn. split_and!; try done.
    + by rewrite delete_insert_eq, delete_id.
    + rewrite <- app_assoc. by destruct o.
Qed.

Lemma install_then_uninstall_restores_witness :
  ∃ a s1 s2, install (I_periodic 0 10) 0 (Some 7%nat) with_timer = Ok (Some a) s1
    ∧ uninstallEvent (Some a) s1 = Ok tt s2
    ∧ heap s2 = heap with_timer
    ∧ _wakers s2 = _wakers with_timer
    ∧ evloops s2 = evloops with_timer
    ∧ invocations s2 = invocations with_timer
    ∧ trace s2 = trace with_timer
                 ++ [A_start (install_kind (I_periodic 0 10)) (Z.to_nat 0) (PWatcher a);
                     A_stop (install_kind (I_periodic 0 10)) (Z.to_nat 0) (PWatcher a);
                     A_delete_watcher a].
Proof.
  apply (install_then_uninstall_restores with_timer (I_periodic 0 10) 0 (Some 7%nat)).
  - apply (reach_ok (C_install (I_timer 5) 0 (Some 7%nat)) two_loops).
    + apply (reach_new 2 0 {[7%nat]} unborn). reflexivity.
    + reflexivity.
  - vm_compute. split; [discriminate|reflexivity].
  - lia.
Defined.

(** X8: an install on an invalid loop index throws after the watcher
    object has been allocated and never deletes it: no handle comes back,
    all watchers that were there are untouched, libev is not called, and
    the heap holds one object more, which has no loop and is not known to
    libev. *)
Theorem install_on_invalid_loop_leaks (s : Scheduler) (o : InstallOp) (i : Z)
    (tk : option nat) :
  reachable s →
  - 2 ^ 63 ≤ i < 2 ^ 64 →
  Z.of_nat (nrThreads s) ≤ 2 ^ 63 →
  ¬ (0 ≤ i < Z.of_nat (nrThreads s)) →
  ∃ s' w, install o i tk s = Throw TRI_ERROR_INTERNAL s'
    ∧ heap s !! next s = None
    ∧ heap s' = <[next s := w]> (heap s)
    ∧ size (heap s') = S (size (heap s))
    ∧ kind_of (ev w) = install_kind o
    ∧ loop w = None
    ∧ ev_reg w = None
    ∧ trace s' = trace s.
Proof.
  intros Hr Hi Hn Hout. pose proof (reachable_inv s Hr) as Hinv.
  assert (E : (Z.of_nat (nrThreads s) <=? size_t i) = true).
  { destruct (Z.of_nat (nrThreads s) <=? size_t i) eqn:E; [done|].
    by apply (range_check _ _ Hi Hn) in E. }
  assert (Hfresh : heap s !! next s = None).
  { destruct (heap s !! next s) as [w|] eqn:E'; [|done].
    pose proof (watcher_below s _ w Hinv E'). lia. }
  eexists _, _. split; [by apply install_throw|]. cbn.
  split_and!; try done.
  - by apply map_size_insert_None.
  - by destruct o.
Qed.

Lemma install_on_invalid_loop_leaks_witness :
  ∃ s' w, install (I_timer 5) (-1) (Some 7%nat) two_loops = Throw TRI_ERROR_INTERNAL s'
    ∧ heap two_loops !! next two_loops = None
    ∧ heap s' = <[next two_loops := w]> (heap two_loops)
    ∧ size (heap s') = S (size (heap two_loops))
    ∧ kind_of (ev w) = install_kind (I_timer 5)
    ∧ loop w = None
    ∧ ev_reg w = None
    ∧ trace s' = trace two_loops.
Proof.
  apply (install_on_invalid_loop_leaks two_loops (I_timer 5) (-1) (Some 7%nat)).
  - apply (reach_new 2 0 {[7%nat]} unborn). reflexivity.
  - lia.
  - vm_compute. discriminate.
  - vm_compute. intros [H _]. by apply H.
Defined.

(** X9: what holds of every watcher object in every state a scheduler can
    be in: its tag is the one its constructor gave it; libev knows it on no
    loop or on the loop it is bound to, never on another; its loop is one
    of the scheduler's; and an async watcher that has its loop is started. *)
Theorem watchers_stay_on_their_loop (s : Scheduler) (a : nat) (w : Watcher) :
  reachable s →
  heap s !! a = Some w →
  type w = tag_of (kind_of (ev w))
  ∧ (a < next s)%nat
  ∧ (∀ l, ev_reg w = Some l → loop w = Some l)
  ∧ (∀ l, loop w = Some l → (l < nrThreads s)%nat ∧ _loops s !! l = Some l)
  ∧ (∀ l, kind_of (ev w) = K_async → loop w = Some l → ev_reg w = Some l).
Proof.
  intros Hr Hw. pose proof (reachable_inv s Hr) as Hinv.
  destruct (watcher_inv_of s a w Hinv Hw) as (Ht & Hl & Ha).
  split_and!; [done|by eapply watcher_below| | |].
  - intros l Hreg. destruct (loop w) as [l'|]; [|congruence].
    destruct Hl as [_ [?|?]]; congruence.
  - intros l Hlw. rewrite Hlw in Hl. destruct Hl as [Hlt _].
    split; [done|]. by apply inv_loops_lookup.
  - intros l Hk Hlw. by apply (reachable_async_started s a w l).
Qed.

Lemma watchers_stay_on_their_loop_witness :
  type (mkWatcher (ev_timer 5 0) (Some 0%nat) EVENT_TIMER (Some 0%nat) (Some 7%nat))
  = tag_of (kind_of (ev (mkWatcher (ev_timer 5 0) (Some 0%nat) EVENT_TIMER (Some 0%nat)
                           (Some 7%nat))))
  ∧ (1 < next with_timer)%nat
  ∧ (∀ l, ev_reg (mkWatcher (ev_timer 5 0) (Some 0%nat) EVENT_TIMER (Some 0%nat)
                    (Some 7%nat)) = Some l →
          loop (mkWatcher (ev_timer 5 0) (Some 0%nat) EVENT_TIMER (Some 0%nat)
                  (Some 7%nat)) = Some l)
  ∧ (∀ l, loop (mkWatcher (ev_timer 5 0) (Some 0%nat) EVENT_TIMER (Some 0%nat)
                  (Some 7%nat)) = Some l →
          (l < nrThreads with_timer)%nat ∧ _loops with_timer !! l = Some l)
  ∧ (∀ l, kind_of (ev (mkWatcher (ev_timer 5 0) (Some 0%nat) EVENT_TIMER (Some 0%nat)
                         (Some 7%nat))) = K_async →
          loop (mkWatcher (ev_timer 5 0) (Some 0%nat) EVENT_TIMER (Some 0%nat)
                  (Some 7%nat)) = Some l →
          ev_reg (mkWatcher (ev_timer 5 0) (Some 0%nat) EVENT_TIMER (Some 0%nat)
                    (Some 7%nat)) = Some l).
Proof.
  apply (watchers_stay_on_their_loop with_timer 1
           (mkWatcher (ev_timer 5 0) (Some 0%nat) EVENT_TIMER (Some 0%nat) (Some 7%nat))).
  - apply (reach_ok (C_install (I_timer 5) 0 (Some 7%nat)) two_loops).
    + apply (reach_new 2 0 {[7%nat]} unborn). reflexivity.
    + reflexivity.
  - reflexivity.
Defined.

(** ** Who gets events, and who does not *)

Lemma reachable_loops_len s : reachable s → length (evloops s) = nrThreads s.
Proof. intros (_ & _ & _ & H & _)%reachable_inv. exact H. Qed.

Lemma reachable_reg_loop s a w l :
  reachable s → heap s !! a = Some w → ev_reg w = Some l → loop w = Some l.
Proof.
  intros Hinv%reachable_inv Hw Hreg.
  destruct (watcher_inv_of s a w Hinv Hw) as (_ & Hl & _).
  destruct (loop w) as [l'|]; [|congruence].
  destruct Hl as [_ [?|?]]; congruence.
Qed.

Lemma reify_elsewhere l now inp w :
  ev_reg w ≠ Some l → reify l now inp w = (w, 0).
Proof. intros Hr. unfold reify. by rewrite decide_False. Qed.

Lemma wakeups_deaf a l inputs : ∀ s,
  deaf a l s →
  ∃ s', wakeups l inputs s = Ok tt s'
        ∧ heap s' !! a = heap s !! a
        ∧ invocations_of a (invocations s') = invocations_of a (invocations s).
Proof.
  induction inputs as [|inp rest IH]; intros s [Hlt Hd]; [by exists s|].
  pose proof Hlt as [L HL]%lookup_lt_is_Some.
  destruct (ev_iteration_watcher s l L inp a HL)
    as (s1 & H1 & Hh & _ & Hlen & _ & _ & Hinv).
  assert (Hsame : heap s1 !! a = heap s !! a).
  { rewrite Hh, lookup_fmap. destruct (heap s !! a) as [w|]; [|done]. cbn.
    by rewrite reify_elsewhere. }
  destruct (IH s1) as (s2 & H2 & Hh2 & I2).
  { split; [by rewrite Hlen|]. by rewrite Hsame. }
  exists s2. unfold wakeups in *. cbn [for_each]. rewrite (bind_ok _ _ _ _ _ H1).
  split_and!; [done|congruence|]. rewrite I2, Hinv.
  destruct (heap s !! a) as [w|]; [|by rewrite app_nil_r].
  unfold wakeup_of. rewrite reify_elsewhere by done. cbn. by rewrite app_nil_r.
Qed.

(** X10: a callback run on a live watcher of its kind returns and makes at
    most one invocation, for the watcher's own task and with the watcher's
    own handle; it makes none and leaves the state as it was when the task
    pointer is null or when the events it is given lack the bit of its
    kind. *)
Theorem callback_delivers_own_events_only (s : Scheduler) (a : nat) (w : Watcher)
    (revents : Z) :
  heap s !! a = Some w →
  ∃ s', callback_of (kind_of (ev w)) a revents s = Ok tt s'
    ∧ heap s' = heap s ∧ evloops s' = evloops s ∧ _wakers s' = _wakers s
    ∧ (invocations s' = invocations s
       ∨ ∃ t mask, task w = Some t ∧ t ∈ active_tasks s
           ∧ fires (kind_of (ev w)) revents = true
           ∧ invocations s' = invocations s ++ [mkInvocation t a mask])
    ∧ (task w = None → s' = s)
    ∧ (fires (kind_of (ev w)) revents = false → s' = s).
Proof.
  intros Hw. eexists. split; [by apply callback_of_spec|]. cbn.
  split_and!; try done.
  - unfold delivery. destruct (task w) as [t|]; [|left; by rewrite app_nil_r].
    destruct (fires _ _) eqn:Hf; [|left; by rewrite app_nil_r]. cbn.
    destruct (decide (t ∈ active_tasks s)) as [Ha|Ha].
    + rewrite (bool_decide_eq_true_2 _ Ha). right. by eexists _, _.
    + rewrite (bool_decide_eq_false_2 _ Ha). left. by rewrite app_nil_r.
  - intros Ht. unfold delivery. rewrite Ht. by rewrite app_nil_r, set_invocations_id.
  - intros Hf. unfold delivery. rewrite Hf. destruct (task w);
      by rewrite app_nil_r, set_invocations_id.
Qed.

Lemma callback_delivers_own_events_only_witness :
  ∃ s', callback_of (kind_of (ev_timer 5 0)) 1%nat EV_READ with_timer = Ok tt s'
    ∧ heap s' = heap with_timer ∧ evloops s' = evloops with_timer
    ∧ _wakers s' = _wakers with_timer
    ∧ (invocations s' = invocations with_timer
       ∨ ∃ t mask, Some 7%nat = Some t ∧ t ∈ active_tasks with_timer
           ∧ fires (kind_of (ev_timer 5 0)) EV_READ = true
           ∧ invocations s' = invocations with_timer ++ [mkInvocation t 1%nat mask])
    ∧ (Some 7%nat = None → s' = with_timer)
    ∧ (fires (kind_of (ev_timer 5 0)) EV_READ = false → s' = with_timer).
Proof.
  apply (callback_delivers_own_events_only with_timer 1
           (mkWatcher (ev_timer 5 0) (Some 0%nat) EVENT_TIMER (Some 0%nat) (Some 7%nat))
           EV_READ).
  reflexivity.
Defined.




(** X12: a watcher gets nothing from the wakeups of a loop that is not its
    own: whatever time passes there, whatever descriptors are ready and
    whatever signals arrive, the wakeups of another loop return, leave the
    watcher as it is and invoke nothing for its handle. *)
Theorem other_loops_do_not_deliver (s : Scheduler) (a : nat) (w : Watcher) (l l' : nat)
    (inputs : list PollInput) :
  reachable s →
  heap s !! a = Some w →
  loop w = Some l →
  l' ≠ l →
  (l' < nrThreads s)%nat →
  ∃ s', wakeups l' inputs s = Ok tt s'
    ∧ heap s' !! a = Some w
    ∧ invocations_of a (invocations s') = invocations_of a (invocations s).
Proof.
  intros Hr Hw Hl Hne Hlt.
  pose proof (reachable_inv s Hr) as Hinv.
  destruct (wakeups_deaf a l' inputs s) as (s' & H1 & H2 & H3).
  { split; [by rewrite (reachable_loops_len s Hr)|]. rewrite Hw.
    intros E. apply (reachable_reg_loop s a w l' Hr Hw) in E. congruence. }
  exists s'. by rewrite <- Hw, <- H2.
Qed.

Lemma other_loops_do_not_deliver_witness :
  ∃ s', wakeups 1%nat [five_later; five_later] with_timer = Ok tt s'
    ∧ heap s' !! 1%nat
      = Some (mkWatcher (ev_timer 5 0) (Some 0%nat) EVENT_TIMER (Some 0%nat) (Some 7%nat))
    ∧ invocations_of 1%nat (invocations s')
      = invocations_of 1%nat (invocations with_timer).
Proof.
  apply (other_loops_do_not_deliver with_timer 1
           (mkWatcher (ev_timer 5 0) (Some 0%nat) EVENT_TIMER (Some 0%nat) (Some 7%nat))
           0 1 [five_later; five_later]).
  - apply (reach_ok (C_install (I_timer 5) 0 (Some 7%nat)) two_loops).
    + apply (reach_new 2 0 {[7%nat]} unborn). reflexivity.
    + reflexivity.
  - reflexivity.
  - reflexivity.
  - lia.
  - vm_compute. lia.
Defined.

(** ** Taking a watcher out of service *)

Lemma deaf_everywhere s a inputs :
  match heap s !! a with Some w => ev_reg w = None | None => True end →
  ∀ l, (l < length (evloops s))%nat →
  ∃ s', wakeups l inputs s = Ok tt s'
    ∧ heap s' !! a = heap s !! a
    ∧ invocations_of a (invocations s') = invocations_of a (invocations s).
Proof.
  intros H l Hl. apply wakeups_deaf. split; [done|].
  destruct (heap s !! a) as [w|]; [|done]. congruence.
Qed.

(** X13: once [uninstallEvent] has returned, no wakeup of any loop invokes
    anything for the handle, not even for an event that was waiting at the
    time (an async that was sent, a timer that had expired). *)
Theorem uninstalled_watcher_gets_nothing (s : Scheduler) (a : nat) (w : Watcher)
    (l : nat) :
  reachable s →
  heap s !! a = Some w →
  loop w = Some l →
  ∃ s1, uninstallEvent (Some a) s = Ok tt s1
    ∧ invocations s1 = invocations s
    ∧ ∀ l' inputs, (l' < nrThreads s)%nat →
        ∃ s2, wakeups l' inputs s1 = Ok tt s2
          ∧ heap s2 !! a = None
          ∧ invocations_of a (invocations s2) = invocations_of a (invocations s).
Proof.
  intros Hr Hw Hl.
  pose proof (uninstallEvent_spec s a w l (reachable_installed s a w l Hr Hw Hl)) as H1.
  eexists. split; [exact H1|]. split; [done|]. intros l' inputs Hl'.
  match goal with |- ∃ s2, wakeups _ _ ?st = _ ∧ _ =>
    destruct (deaf_everywhere st a inputs) with (l := l') as (s2 & H2 & Hh & Hi) end.
  - cbn. by rewrite lookup_delete_eq.
  - cbn. by rewrite (reachable_loops_len s Hr).
  - exists s2. split; [done|]. split; [|exact Hi].
    rewrite Hh. cbn. by rewrite lookup_delete_eq.
Qed.

Lemma uninstalled_watcher_gets_nothing_witness :
  ∃ s1, uninstallEvent (Some 1%nat) with_timer = Ok tt s1
    ∧ invocations s1 = invocations with_timer
    ∧ ∀ l' inputs, (l' < nrThreads with_timer)%nat →
        ∃ s2, wakeups l' inputs s1 = Ok tt s2
          ∧ heap s2 !! 1%nat = None
          ∧ invocations_of 1%nat (invocations s2)
            = invocations_of 1%nat (invocations with_timer).
Proof.
  apply (uninstalled_watcher_gets_nothing with_timer 1
           (mkWatcher (ev_timer 5 0) (Some 0%nat) EVENT_TIMER (Some 0%nat) (Some 7%nat))
           0).
  - apply (reach_ok (C_install (I_timer 5) 0 (Some 7%nat)) two_loops).
    + apply (reach_new 2 0 {[7%nat]} unborn). reflexivity.
    + reflexivity.
  - reflexivity.
  - reflexivity.
Defined.

Lemma set_reg_back w l : ev_reg w = Some l → set_reg (Some l) (set_reg None w) = w.
Proof. destruct w. cbn. by intros ->. Qed.

(** X14: after [stopSocketEvents] a socket watcher gets no event from any
    wakeup, whatever becomes ready on its descriptor; the watcher is kept,
    and [startSocketEvents] puts it back on its loop with the descriptor
    and the interest it had: for a watcher that was started, stop and then
    start give back the heap as it was. *)
Theorem stopped_socket_gets_nothing (s : Scheduler) (a : nat) (w : Watcher) (l : nat) :
  reachable s →
  heap s !! a = Some w →
  kind_of (ev w) = K_io →
  loop w = Some l →
  ∃ s1, stopSocketEvents (Some a) s = Ok tt s1
    ∧ heap s1 !! a = Some (set_reg None w)
    ∧ (∀ l' inputs, (l' < nrThreads s)%nat →
        ∃ s2, wakeups l' inputs s1 = Ok tt s2
          ∧ heap s2 !! a = Some (set_reg None w)
          ∧ invocations_of a (invocations s2) = invocations_of a (invocations s))
    ∧ ∃ s3, startSocketEvents (Some a) s1 = Ok tt s3
        ∧ heap s3 = <[a := set_reg (Some l) w]> (heap s)
        ∧ (ev_is_active w = true → heap s3 = heap s).
Proof.
  intros Hr Hw Hk Hl.
  pose proof (reachable_installed s a w l Hr Hw Hl) as Hi.
  pose proof (stopSocketEvents_spec s a w l Hi Hk) as H1.
  pose proof Hi as (_ & Ht & _ & Hlt & Hreg).
  set (s1 := if ev_is_active w
             then set_heap (<[a := set_reg None w]> (heap s))
                    (set_trace (trace s ++ [A_stop K_io l (PWatcher a)]) s)
             else s) in *.
  assert (Hh1 : heap s1 = <[a := set_reg None w]> (heap s)).
  { subst s1. unfold ev_is_active. destruct Hreg as [E|E]; rewrite E; cbn; [|done].
    rewrite insert_id; [done|]. rewrite Hw. f_equal. destruct w. cbn in *. by subst. }
  assert (Hrest : evloops s1 = evloops s ∧ invocations s1 = invocations s).
  { subst s1. by destruct (ev_is_active w). }
  destruct Hrest as [He1 Hi1].
  assert (Hw1 : heap s1 !! a = Some (set_reg None w)).
  { by rewrite Hh1, lookup_insert_eq. }
  exists s1. split_and!; [done|done| |].
  - intros l' inputs Hl'.
    destruct (deaf_everywhere s1 a inputs) with (l := l') as (s2 & H2 & Hh & Hinv).
    + by rewrite Hw1.
    + by rewrite He1, (reachable_loops_len s Hr).
    + exists s2. by rewrite Hh, Hw1, Hinv, Hi1.
  - assert (Hi' : installed s1 a (set_reg None w) l).
    { unfold installed. rewrite He1. split_and!; [done|exact Ht|exact Hl|done|by left]. }
    pose proof (startSocketEvents_spec s1 a (set_reg None w) l Hi' Hk) as H3.
    cbn in H3. eexists. split; [exact H3|]. cbn. rewrite Hh1, insert_insert_eq.
    split.
    + done.
    + unfold ev_is_active. intros Hact. destruct Hreg as [E|E]; rewrite E in Hact;
        [done|]. rewrite set_reg_back by done. by apply insert_id.
Qed.

Lemma stopped_socket_gets_nothing_witness :
  ∃ s1, stopSocketEvents (Some 1%nat) with_socket = Ok tt s1
    ∧ heap s1 !! 1%nat
      = Some (set_reg None (mkWatcher (ev_io 5 EV_READ) (Some 1%nat) EVENT_SOCKET_READ
                              (Some 1%nat) (Some 7%nat)))
    ∧ (∀ l' inputs, (l' < nrThreads with_socket)%nat →
        ∃ s2, wakeups l' inputs s1 = Ok tt s2
          ∧ heap s2 !! 1%nat
            = Some (set_reg None (mkWatcher (ev_io 5 EV_READ) (Some 1%nat)
                                    EVENT_SOCKET_READ (Some 1%nat) (Some 7%nat)))
          ∧ invocations_of 1%nat (invocations s2)
            = invocations_of 1%nat (invocations with_socket))
    ∧ ∃ s3, startSocketEvents (Some 1%nat) s1 = Ok tt s3
        ∧ heap s3 = <[1%nat := set_reg (Some 1%nat)
                                   (mkWatcher (ev_io 5 EV_READ) (Some 1%nat)
                                      EVENT_SOCKET_READ (Some 1%nat) (Some 7%nat))]>
                      (heap with_socket)
        ∧ (ev_is_active (mkWatcher (ev_io 5 EV_READ) (Some 1%nat) EVENT_SOCKET_READ
                           (Some 1%nat) (Some 7%nat)) = true →
           heap s3 = heap with_socket).
Proof.
  apply (stopped_socket_gets_nothing with_socket 1
           (mkWatcher (ev_io 5 EV_READ) (Some 1%nat) EVENT_SOCKET_READ (Some 1%nat)
              (Some 7%nat)) 1).
  - apply (reach_ok (C_install (I_socket EVENT_SOCKET_READ 5) 1 (Some 7%nat)) two_loops).
    + apply (reach_new 2 0 {[7%nat]} unborn). reflexivity.
    + reflexivity.
  - reflexivity.
  - reflexivity.
  - reflexivity.
Defined.

(** ** Timers and periodics, stopped and re-armed *)

Lemma clearTimer_stops s a w l :
  installed s a w l → kind_of (ev w) = K_timer →
  ∃ s1 w1, clearTimer (Some a) s = Ok tt s1
    ∧ heap s1 = <[a := w1]> (heap s)
    ∧ ev_reg w1 = None ∧ loop w1 = loop w ∧ task w1 = task w ∧ type w1 = type w
    ∧ kind_of (ev w1) = K_timer
    ∧ (ev_reg w = None → w1 = w)
    ∧ evloops s1 = evloops s ∧ invocations s1 = invocations s
    ∧ trace s1 = trace s ++ [A_stop K_timer l (PWatcher a)].
Proof.
  intros (Hh & Ht & Hl & Hlt & Hreg) Hk.
  apply lookup_lt_is_Some in Hlt as [L HL].
  destruct w as [e r ty lo ta]; cbn in *; subst.
  destruct e; try discriminate.
  unfold clearTimer. destruct Hreg as [->| ->]; run.
  - eexists _, (mkWatcher (ev_timer at_ repeat) None EVENT_TIMER (Some l) ta).
    split; [done|]. cbn. split_and!; try done. by rewrite insert_id.
  - eexists _, (mkWatcher (ev_timer (at_ - mn_now L) repeat) None EVENT_TIMER (Some l) ta).
    split; [done|]. cbn. split_and!; done.
Qed.

(** X15: [clearTimer] cancels a timer: it returns, the watcher is kept, and
    no wakeup of any loop, however late, delivers a timer event for it,
    whether the timer came from [installTimerEvent] or was re-armed with a
    repeat interval.  Clearing a timer that is already stopped changes
    nothing on the heap. *)
Theorem clearTimer_cancels (s : Scheduler) (a : nat) (w : Watcher) (l : nat) :
  reachable s →
  heap s !! a = Some w →
  kind_of (ev w) = K_timer →
  loop w = Some l →
  ∃ s1, clearTimer (Some a) s = Ok tt s1
    ∧ is_Some (heap s1 !! a)
    ∧ (∀ l' inputs, (l' < nrThreads s)%nat →
        ∃ s2, wakeups l' inputs s1 = Ok tt s2
          ∧ invocations_of a (invocations s2) = invocations_of a (invocations s))
    ∧ (ev_is_active w = false → heap s1 = heap s)
    ∧ ∃ s3, clearTimer (Some a) s1 = Ok tt s3 ∧ heap s3 = heap s1.
Proof.
  intros Hr Hw Hk Hl.
  pose proof (reachable_installed s a w l Hr Hw Hl) as Hi.
  destruct (clearTimer_stops s a w l Hi Hk)
    as (s1 & w1 & H1 & Hh1 & Hr1 & Hl1 & Hta1 & Hty1 & Hk1 & Hsame & He1 & Hi1 & _).
  assert (Hw1 : heap s1 !! a = Some w1) by (by rewrite Hh1, lookup_insert_eq).
  exists s1. split_and!; [done|by rewrite Hw1| | |].
  - intros l' inputs Hl'.
    destruct (deaf_everywhere s1 a inputs) with (l := l') as (s2 & H2 & _ & Hinv).
    + by rewrite Hw1.
    + by rewrite He1, (reachable_loops_len s Hr).
    + exists s2. by rewrite Hinv, Hi1.
  - unfold ev_is_active. intros Hact. destruct (ev_reg w) eqn:E; [done|].
    rewrite Hh1, Hsame by done. by apply insert_id.
  - assert (Hi' : installed s1 a w1 l).
    { destruct Hi as (_ & Ht & _ & Hlt & _). unfold installed. rewrite He1, Hl1, Hty1, Hk1.
      rewrite Hk in Ht. split_and!; [done..|by left]. }
    destruct (clearTimer_stops s1 a w1 l Hi' Hk1)
      as (s3 & w3 & H3 & Hh3 & _ & _ & _ & _ & _ & Hsame3 & _).
    exists s3. split; [done|]. rewrite Hh3, Hsame3 by done. by apply insert_id.
Qed.

Lemma clearTimer_cancels_witness :
  ∃ s1, clearTimer (Some 1%nat) timer_rearmed = Ok tt s1
    ∧ is_Some (heap s1 !! 1%nat)
    ∧ (∀ l' inputs, (l' < nrThreads timer_rearmed)%nat →
        ∃ s2, wakeups l' inputs s1 = Ok tt s2
          ∧ invocations_of 1%nat (invocations s2)
            = invocations_of 1%nat (invocations timer_rearmed))
    ∧ (ev_is_active (mkWatcher (ev_timer 10 5) (Some 0%nat) EVENT_TIMER (Some 0%nat)
                       (Some 7%nat)) = false →
       heap s1 = heap timer_rearmed)
    ∧ ∃ s3, clearTimer (Some 1%nat) s1 = Ok tt s3 ∧ heap s3 = heap s1.
Proof.
  apply (clearTimer_cancels timer_rearmed 1
           (mkWatcher (ev_timer 10 5) (Some 0%nat) EVENT_TIMER (Some 0%nat) (Some 7%nat))
           0).
  - apply (reach_ok (C_rearmTimer (Some 1%nat) 5) timer_expired).
    + apply (reach_ok (C_iteration 0 five_later) with_timer).
      * apply (reach_ok (C_install (I_timer 5) 0 (Some 7%nat)) two_loops).
        -- apply (reach_new 2 0 {[7%nat]} unborn). reflexivity.
        -- reflexivity.
      * reflexivity.
    + reflexivity.
  - reflexivity.
  - reflexivity.
  - reflexivity.
Defined.

Lemma rearmTimer_zero s a w l :
  installed s a w l → kind_of (ev w) = K_timer →
  ∃ s1 w1, rearmTimer (Some a) 0 s = Ok tt s1
    ∧ heap s1 = <[a := w1]> (heap s)
    ∧ ev_reg w1 = None
    ∧ evloops s1 = evloops s ∧ invocations s1 = invocations s
    ∧ trace s1 = trace s ++ [A_again K_timer l (PWatcher a)].
Proof.
  intros (Hh & Ht & Hl & Hlt & Hreg) Hk.
  apply lookup_lt_is_Some in Hlt as [L HL].
  destruct w as [e r ty lo ta]; cbn in *; subst.
  destruct e; try discriminate.
  unfold rearmTimer. destruct Hreg as [->| ->]; run; rewrite ?insert_insert_eq.
  - eexists _, (mkWatcher (ev_timer 0 0) None EVENT_TIMER (Some l) ta).
    split; [done|]. cbn. split_and!; done.
  - eexists _, (mkWatcher (ev_timer (0 - mn_now L) 0) None EVENT_TIMER (Some l) ta).
    split; [done|]. cbn. split_and!; done.
Qed.

(** X16: [rearmTimer] with a timeout of zero does not arm the timer, it
    stops it: the call returns, makes the one [ev_timer_again] call, and
    afterwards no wakeup of any loop delivers a timer event for the
    watcher. *)
Theorem rearmTimer_zero_disarms (s : Scheduler) (a : nat) (w : Watcher) (l : nat) :
  reachable s →
  heap s !! a = Some w →
  kind_of (ev w) = K_timer →
  loop w = Some l →
  ∃ s1, rearmTimer (Some a) 0 s = Ok tt s1
    ∧ trace s1 = trace s ++ [A_again K_timer l (PWatcher a)]
    ∧ ∀ l' inputs, (l' < nrThreads s)%nat →
        ∃ s2, wakeups l' inputs s1 = Ok tt s2
          ∧ invocations_of a (invocations s2) = invocations_of a (invocations s).
Proof.
  intros Hr Hw Hk Hl.
  pose proof (reachable_installed s a w l Hr Hw Hl) as Hi.
  destruct (rearmTimer_zero s a w l Hi Hk) as (s1 & w1 & H1 & Hh1 & Hr1 & He1 & Hi1 & Ht1).
  exists s1. split_and!; [done..|].
  intros l' inputs Hl'.
  destruct (deaf_everywhere s1 a inputs) with (l := l') as (s2 & H2 & _ & Hinv).
  - by rewrite Hh1, lookup_insert_eq.
  - by rewrite He1, (reachable_loops_len s Hr).
  - exists s2. by rewrite Hinv, Hi1.
Qed.

Lemma rearmTimer_zero_disarms_witness :
  ∃ s1, rearmTimer (Some 1%nat) 0 with_timer = Ok tt s1
    ∧ trace s1 = trace with_timer ++ [A_again K_timer 0%nat (PWatcher 1%nat)]
    ∧ ∀ l' inputs, (l' < nrThreads with_timer)%nat →
        ∃ s2, wakeups l' inputs s1 = Ok tt s2
          ∧ invocations_of 1%nat (invocations s2)
            = invocations_of 1%nat (invocations with_timer).
Proof.
  apply (rearmTimer_zero_disarms with_timer 1
           (mkWatcher (ev_timer 5 0) (Some 0%nat) EVENT_TIMER (Some 0%nat) (Some 7%nat))
           0).
  - apply (reach_ok (C_install (I_timer 5) 0 (Some 7%nat)) two_loops).
    + apply (reach_new 2 0 {[7%nat]} unborn). reflexivity.
    + reflexivity.
  - reflexivity.
  - reflexivity.
  - reflexivity.
Defined.

Lemma wakeups_early a l inputs : ∀ left s,
  timer_pending a l left s →
  clock_reaches left inputs = false →
  ∃ s', wakeups l inputs s = Ok tt s'
    ∧ timer_pending a l (left - elapsed inputs) s'
    ∧ invocations_of a (invocations s') = invocations_of a (invocations s).
Proof.
  induction inputs as [|inp rest IH]; intros left s H Hc.
  { exists s. unfold elapsed. cbn. by rewrite Z.sub_0_r. }
  cbn in Hc. apply orb_false_iff in Hc as [Hnow Hc]. apply Z.leb_gt in Hnow.
  destruct H as (w & at_ & repeat & L & Hw & He & Hr & HL & Hleft).
  destruct (ev_iteration_watcher s l L inp a HL)
    as (s1 & H1 & Hh & HL1 & _ & _ & _ & Hinv).
  pose proof (reify_timer_early l (mn_now L + dt inp) inp w at_ repeat Hr He ltac:(lia))
    as Hre.
  destruct (IH (left - dt inp) s1) as (s2 & H2 & J2 & I2); [|done|].
  { exists w, at_, repeat. eexists. rewrite Hh, lookup_fmap, Hw, HL1. cbn. rewrite Hre.
    split_and!; try done. cbn. lia. }
  exists s2. unfold wakeups in *. cbn [for_each]. rewrite (bind_ok _ _ _ _ _ H1).
  split_and!; [done| |].
  - unfold elapsed in *. cbn [foldr].
    by replace (left - (dt inp + foldr (λ inp acc, dt inp + acc) 0 rest))
      with (left - dt inp - foldr (λ inp acc, dt inp + acc) 0 rest) by lia.
  - rewrite I2, Hinv, Hw. unfold wakeup_of. rewrite Hre. cbn. by rewrite app_nil_r.
Qed.

(** X17: [rearmTimer] with a timeout [t] other than zero replaces whatever
    deadline the timer had: the timer is started on its loop, even if it was
    stopped or had expired, and as long as the clock of the loop has at no
    wakeup got [t] or more ahead of where it was at the call, the wakeups
    deliver no timer event for it. *)
Theorem rearmTimer_replaces_deadline (s : Scheduler) (a : nat) (w : Watcher) (l : nat)
    (timeout : Z) (inputs : list PollInput) :
  reachable s →
  heap s !! a = Some w →
  kind_of (ev w) = K_timer →
  loop w = Some l →
  timeout ≠ 0 →
  clock_reaches timeout inputs = false →
  ∃ s1 s2, rearmTimer (Some a) timeout s = Ok tt s1
    ∧ timer_pending a l timeout s1
    ∧ wakeups l inputs s1 = Ok tt s2
    ∧ timer_pending a l (timeout - elapsed inputs) s2
    ∧ invocations_of a (invocations s2) = invocations_of a (invocations s).
Proof.
  intros Hr Hw Hk Hl Hz Hc.
  pose proof (reachable_installed s a w l Hr Hw Hl) as Hi.
  pose proof Hi as (_ & _ & _ & Hlt & _).
  apply lookup_lt_is_Some in Hlt as [L HL].
  pose proof (rearmTimer_spec s a w l L timeout Hi Hk HL Hz) as H1.
  match type of H1 with _ = Ok tt ?st => set (s1 := st) in * end.
  assert (Hp : timer_pending a l timeout s1).
  { eexists _, _, _, L. subst s1. cbn. rewrite lookup_insert_eq.
    split_and!; [done|reflexivity|done|done|lia]. }
  destruct (wakeups_early a l inputs timeout s1 Hp Hc) as (s2 & H2 & Hp2 & Hinv).
  exists s1, s2. split_and!; done.
Qed.

Lemma rearmTimer_replaces_deadline_witness :
  ∃ s1 s2, rearmTimer (Some 1%nat) 5 with_timer = Ok tt s1
    ∧ timer_pending 1 0 5 s1
    ∧ wakeups 0%nat [two_later; two_later] s1 = Ok tt s2
    ∧ timer_pending 1 0 (5 - elapsed [two_later; two_later]) s2
    ∧ invocations_of 1%nat (invocations s2) = invocations_of 1%nat (invocations with_timer).
Proof.
  apply (rearmTimer_replaces_deadline with_timer 1
           (mkWatcher (ev_timer 5 0) (Some 0%nat) EVENT_TIMER (Some 0%nat) (Some 7%nat))
           0 5 [two_later; two_later]).
  - apply (reach_ok (C_install (I_timer 5) 0 (Some 7%nat)) two_loops).
    + apply (reach_new 2 0 {[7%nat]} unborn). reflexivity.
    + reflexivity.
  - reflexivity.
  - reflexivity.
  - reflexivity.
  - lia.
  - reflexivity.
Defined.

(** X18: [rearmPeriodic] gives a periodic watcher the schedule that a fresh
    [installPeriodicEvent] with the same offset and interval would get on
    its loop at that moment, and starts it there, whether it was running or
    had stopped; its tag, loop and task stay. *)
Theorem rearmPeriodic_reschedules_as_install (s : Scheduler) (a : nat) (w : Watcher)
    (l : nat) (offset interval : Z) :
  reachable s →
  heap s !! a = Some w →
  kind_of (ev w) = K_periodic →
  loop w = Some l →
  ∃ L s1, evloops s !! l = Some L
    ∧ rearmPeriodic (Some a) offset interval s = Ok tt s1
    ∧ heap s1 = <[a := mkWatcher (installed_ev (I_periodic offset interval) (mn_now L))
                          (Some l) (type w) (Some l) (task w)]> (heap s)
    ∧ trace s1 = trace s ++ [A_again K_periodic l (PWatcher a)]
    ∧ evloops s1 = evloops s ∧ invocations s1 = invocations s.
Proof.
  intros Hr Hw Hk Hl.
  destruct (reachable_installed s a w l Hr Hw Hl) as (Hh & Ht & _ & Hlt & Hreg).
  apply lookup_lt_is_Some in Hlt as [L HL].
  exists L.
  destruct w as [e r ty lo ta]; cbn in *; subst.
  destruct e; try discriminate.
  unfold rearmPeriodic. destruct Hreg as [->| ->]; run;
    rewrite ?insert_insert_eq; eexists; split_and!; done.
Qed.

Lemma rearmPeriodic_reschedules_as_install_witness :
  ∃ L s1, evloops with_periodic !! 0%nat = Some L
    ∧ rearmPeriodic (Some 1%nat) 3 7 with_periodic = Ok tt s1
    ∧ heap s1 = <[1%nat := mkWatcher (installed_ev (I_periodic 3 7) (mn_now L))
                          (Some 0%nat)
                          (type (mkWatcher (ev_periodic 10 0 10) (Some 0%nat) EVENT_PERIODIC
                                   (Some 0%nat) (Some 7%nat)))
                          (Some 0%nat)
                          (task (mkWatcher (ev_periodic 10 0 10) (Some 0%nat) EVENT_PERIODIC
                                   (Some 0%nat) (Some 7%nat)))]> (heap with_periodic)
    ∧ trace s1 = trace with_periodic ++ [A_again K_periodic 0%nat (PWatcher 1%nat)]
    ∧ evloops s1 = evloops with_periodic ∧ invocations s1 = invocations with_periodic.
Proof.
  apply (rearmPeriodic_reschedules_as_install with_periodic 1
           (mkWatcher (ev_periodic 10 0 10) (Some 0%nat) EVENT_PERIODIC (Some 0%nat)
              (Some 7%nat)) 0 3 7).
  - apply (reach_ok (C_install (I_periodic 0 10) 0 (Some 7%nat)) two_loops).
    + apply (reach_new 2 0 {[7%nat]} unborn). reflexivity.
    + reflexivity.
  - reflexivity.
  - reflexivity.
  - reflexivity.
Defined.

(** ** What a socket watcher asked for *)

Lemma has_bit_pow2 x k : 0 ≤ k → has_bit x (2 ^ k) = Z.testbit x k.
Proof.
  intros Hk. unfold has_bit.
  assert (H : Z.land x (2 ^ k) = if Z.testbit x k then 2 ^ k else 0).
  { apply Z.bits_inj'. intros n Hn. rewrite Z.land_spec, Z.pow2_bits_eqb by done.
    destruct (Z.eqb_spec k n) as [->|Hne].
    - rewrite andb_true_r. destruct (Z.testbit x n) eqn:E.
      + by rewrite Z.pow2_bits_eqb, Z.eqb_refl.
      + by rewrite Z.bits_0.
    - rewrite andb_false_r. destruct (Z.testbit x k).
      + rewrite Z.pow2_bits_eqb by done. symmetry. by apply Z.eqb_neq.
      + by rewrite Z.bits_0. }
  rewrite H. destruct (Z.testbit x k); [|done].
  apply negb_true_iff, Z.eqb_neq. pose proof (Z.pow_pos_nonneg 2 k). lia.
Qed.

Lemma socket_interest ty r :
  has_bit (Z.land (socket_flags ty) r) EV_READ
  = has_bit ty EVENT_SOCKET_READ && has_bit r EV_READ
  ∧ has_bit (Z.land (socket_flags ty) r) EV_WRITE
    = has_bit ty EVENT_SOCKET_WRITE && has_bit r EV_WRITE.
Proof.
  change EV_READ with (2 ^ 0). change EV_WRITE with (2 ^ 1).
  rewrite !(has_bit_pow2 (Z.land _ _)), !(has_bit_pow2 r), !Z.land_spec by lia.
  unfold socket_flags.
  destruct (has_bit ty EVENT_SOCKET_READ), (has_bit ty EVENT_SOCKET_WRITE); done.
Qed.

(** X19: a socket watcher gets what it asked for and nothing else.  After
    [installSocketEvent] with the interest [type] for an active task, one
    wakeup of its loop invokes the task at most once, exactly when the
    descriptor is readable and reading was asked for, or writable and
    writing was asked for; the mask it hands over has [EVENT_SOCKET_READ]
    and [EVENT_SOCKET_WRITE] for just those of the two that hold.  Bits of
    [type] other than these two make no difference, and a watcher installed
    with neither never gets anything. *)
Theorem socket_gets_what_it_asked_for (s : Scheduler) (i type fd : Z) (t : nat)
    (inp : PollInput) :
  reachable s →
  0 ≤ i < Z.of_nat (nrThreads s) →
  i < 2 ^ 64 →
  t ∈ active_tasks s →
  let R := has_bit type EVENT_SOCKET_READ && has_bit (ready inp fd) EV_READ in
  let W := has_bit type EVENT_SOCKET_WRITE && has_bit (ready inp fd) EV_WRITE in
  ∃ a s1 s2, installSocketEvent i type (Some t) fd s = Ok (Some a) s1
    ∧ ev_iteration (Z.to_nat i) inp s1 = Ok tt s2
    ∧ invocations_of a (invocations s2)
      = invocations_of a (invocations s)
        ++ (if R || W
            then [mkInvocation t a (Z.lor (if R then EVENT_SOCKET_READ else 0)
                                          (if W then EVENT_SOCKET_WRITE else 0))]
            else []).
Proof.
  intros Hr Hi Hlt Ht R W.
  pose proof (reachable_inv s Hr) as Hinv.
  destruct (inv_evloops_lookup s (Z.to_nat i) Hinv ltac:(lia)) as [L HL].
  pose proof (install_ok s (I_socket type fd) i (Some t) L Hinv Hi Hlt HL) as H1.
  cbv zeta in H1. cbn [install install_kind installed_ev tag_of] in H1.
  match type of H1 with _ = Ok _ ?st => set (s1 := st) in * end.
  set (w := mkWatcher (ev_io fd (socket_flags type)) (Some (Z.to_nat i)) EVENT_SOCKET_READ
              (Some (Z.to_nat i)) (Some t)) in *.
  destruct (ev_iteration_watcher s1 (Z.to_nat i) L inp (next s) HL)
    as (s2 & H2 & _ & _ & _ & _ & _ & Hinvs).
  exists (next s), s1, s2. split_and!; [done..|].
  rewrite Hinvs. subst s1. cbn [invocations set_trace set_next set_heap heap active_tasks].
  rewrite lookup_insert_eq. f_equal.
  unfold wakeup_of, reify. rewrite decide_True by done. cbn [ev w fst snd].
  destruct (socket_interest type (ready inp fd)) as [HR HW].
  fold R in HR. fold W in HW.
  destruct (Z.land (socket_flags type) (ready inp fd) =? 0) eqn:Hz.
  - apply Z.eqb_eq in Hz. rewrite Hz in HR, HW. cbn in HR, HW.
    by rewrite <- HR, <- HW.
  - unfold delivery. cbn [task ev kind_of w fires delivered_mask].
    rewrite HR, HW, (bool_decide_eq_true_2 _ Ht), andb_true_r.
    by destruct R, W.
Qed.

Lemma socket_gets_what_it_asked_for_witness :
  let R := has_bit EVENT_SOCKET_WRITE EVENT_SOCKET_READ
           && has_bit (ready both_ready 5) EV_READ in
  let W := has_bit EVENT_SOCKET_WRITE EVENT_SOCKET_WRITE
           && has_bit (ready both_ready 5) EV_WRITE in
  ∃ a s1 s2, installSocketEvent 1 EVENT_SOCKET_WRITE (Some 7%nat) 5 two_loops
             = Ok (Some a) s1
    ∧ ev_iteration (Z.to_nat 1) both_ready s1 = Ok tt s2
    ∧ invocations_of a (invocations s2)
      = invocations_of a (invocations two_loops)
        ++ (if R || W
            then [mkInvocation 7%nat a (Z.lor (if R then EVENT_SOCKET_READ else 0)
                                              (if W then EVENT_SOCKET_WRITE else 0))]
            else []).
Proof.
  apply (socket_gets_what_it_asked_for two_loops 1 EVENT_SOCKET_WRITE 5 7 both_ready).
  - apply (reach_new 2 0 {[7%nat]} unborn). reflexivity.
  - vm_compute. split; [discriminate|reflexivity].
  - reflexivity.
  - vm_compute. set_solver.
Defined.

(** ** What the destructor leaves behind *)

Lemma only_wakers_stopped_refl s : only_wakers_stopped s s.
Proof. unfold only_wakers_stopped. split_and!; try done. intros i k H. by right. Qed.

Lemma only_wakers_stopped_trans s1 s2 s3 :
  only_wakers_stopped s1 s2 → only_wakers_stopped s2 s3 → only_wakers_stopped s1 s3.
Proof.
  intros (A1 & A2 & A3 & A4 & A5 & A6 & A7 & A8 & A9)
         (B1 & B2 & B3 & B4 & B5 & B6 & B7 & B8 & B9).
  unfold only_wakers_stopped. split_and!; try congruence.
  intros i k H. destruct (B9 i k H) as [?|H']; [by left|]. by apply A9.
Qed.

Lemma winds_down_weaken n (P Q : nat → Prop) m :
  (∀ i, Q i → P i) → winds_down n P m → winds_down n Q m.
Proof.
  intros HPQ H s Hi Hn. destruct (H s Hi Hn) as (s' & H1 & H2 & H3 & H4).
  exists s'. split; [done|]. split; [done|]. split; [done|].
  intros i k HQ. by apply H4, HPQ.
Qed.

Lemma winds_down_bind n (P Q : nat → Prop) (m1 m2 : M unit) :
  winds_down n P m1 → winds_down n Q m2 →
  winds_down n (λ i, P i ∨ Q i) (m1 ;; m2).
Proof.
  intros H1 H2 s Hi Hn.
  destruct (H1 s Hi Hn) as (s1 & E1 & I1 & R1 & S1).
  destruct (H2 s1 I1) as (s2 & E2 & I2 & R2 & S2).
  { destruct R1 as (-> & _). done. }
  exists s2. rewrite (bind_ok _ _ _ _ _ E1).
  split; [done|]. split; [done|]. split.
  - by eapply only_wakers_stopped_trans.
  - intros i k [HP|HQ] Hk; [|by eapply S2].
    destruct R2 as (_ & _ & _ & _ & _ & _ & _ & _ & R2).
    destruct (R2 i k Hk) as [?|Hk1]; [done|]. by eapply S1.
Qed.

Lemma winds_down_skip n : winds_down n (λ _, False) skip.
Proof.
  intros s Hi Hn. exists s. split; [done|]. split; [done|].
  split; [apply only_wakers_stopped_refl|done].
Qed.

Lemma winds_down_emit n x : winds_down n (λ _, False) (emit x).
Proof.
  intros s Hi Hn. eexists. split; [reflexivity|]. split; [|split]; [| |done].
  - apply (inv_intro s); try done.
    + intros i k. by apply inv_wakers.
    + destruct Hi as (_ & _ & _ & _ & _ & Hh). exact Hh.
  - unfold only_wakers_stopped. cbn. split_and!; try done. intros i k H. by right.
Qed.

Lemma winds_down_for_each n (P : nat → nat → Prop) xs (f : nat → M unit) :
  (∀ x, x ∈ xs → winds_down n (P x) (f x)) →
  winds_down n (λ i, ∃ x, x ∈ xs ∧ P x i) (for_each xs f).
Proof.
  induction xs as [|x xs IH]; intros H.
  - apply (winds_down_weaken n (λ _, False)); [|apply winds_down_skip].
    intros i (x & Hx & _). by apply elem_of_nil in Hx.
  - cbn [for_each].
    apply (winds_down_weaken n (λ i, P x i ∨ ∃ y, y ∈ xs ∧ P y i));
      [|apply (winds_down_bind n (P x) (λ i, ∃ y, y ∈ xs ∧ P y i))].
    + intros i (y & Hy & HP). apply elem_of_cons in Hy as [->|Hy].
      * left. exact HP.
      * right. exists y. split; [exact Hy|exact HP].
    + apply H. by left.
    + apply IH. intros y Hy. apply H. by right.
Qed.

Lemma winds_down_wait n running fuel : ∀ i,
  winds_down n (λ _, False) (wait_for_threads running fuel i).
Proof.
  induction fuel as [|fuel IH]; intros i; cbn [wait_for_threads].
  - apply winds_down_skip.
  - destruct (running i); [|apply winds_down_skip].
    apply (winds_down_weaken n (λ _, False ∨ False));
      [|apply winds_down_bind; [apply winds_down_emit|apply IH]].
    intros j [].
Qed.

Lemma winds_down_ev_async_stop n i :
  (i < n)%nat → winds_down n (λ j, j = i) (ev_async_stop i (PWaker i)).
Proof.
  intros Hlt s Hi Hn. subst n.
  assert (is_Some (_wakers s !! i)) as [k Hk].
  { apply lookup_lt_is_Some. destruct Hi as (_ & _ & -> & _). lia. }
  set (s1 := set_wakers (<[i := mkWaker None (wk_sent k)]> (_wakers s))
               (set_trace (trace s ++ [A_stop K_async i (PWaker i)]) s)).
  assert (H1 : ev_async_stop i (PWaker i) s = Ok tt s1).
  { unfold ev_async_stop, emit, get_waker, put_waker, modify, mbind, M_bind.
    cbn. rewrite Hk.
    destruct (inv_wakers s i k Hi Hk) as [Hr|Hr]; rewrite Hr.
    - subst s1. cbn. rewrite list_insert_id; [by destruct s|].
      rewrite Hk. f_equal. destruct k. cbn in *. by subst.
    - by rewrite decide_True. }
  exists s1. split; [done|]. split; [|split].
  - apply (inv_intro s); try done.
    + subst s1. cbn. by rewrite length_insert.
    + subst s1. cbn. intros j k' Hj.
      destruct (decide (j = i)) as [->|Hne].
      * rewrite list_lookup_insert_eq in Hj by (by eapply lookup_lt_Some).
        injection Hj as <-. by left.
      * rewrite list_lookup_insert_ne in Hj by done. by eapply inv_wakers.
    + intros a w Hw. destruct Hi as (_ & _ & _ & _ & _ & Hh). by apply Hh.
  - unfold only_wakers_stopped. subst s1. cbn. split_and!; try done.
    + by rewrite length_insert.
    + intros j k' Hj. destruct (decide (j = i)) as [->|Hne].
      * rewrite list_lookup_insert_eq in Hj by (by eapply lookup_lt_Some).
        injection Hj as <-. by left.
      * rewrite list_lookup_insert_ne in Hj by done. by right.
  - intros j k' -> Hj. subst s1. cbn in Hj.
    rewrite list_lookup_insert_eq in Hj by (by eapply lookup_lt_Some).
    by injection Hj as <-.
Qed.

Lemma winds_down_loops_at n i (P : nat → Prop) (f : loop_ptr → M unit) :
  (i < n)%nat → winds_down n P (f i) → winds_down n P (l ← loops_at i; f l).
Proof.
  intros Hlt H s Hi Hn. subst n.
  pose proof (inv_loops_lookup s i Hi Hlt) as Hl.
  unfold loops_at, mbind, M_bind. rewrite Hl. by apply H.
Qed.

Lemma destructor_winds_down n running :
  (1 ≤ n)%nat →
  winds_down n (λ i, (i < n)%nat)
    (for_each (seq 0 n) (λ i, emit (A_beginShutdown i)) ;;
     for_each (seq 0 n) (λ i, emit (A_thread_stop i)) ;;
     wait_for_threads running 100 0 ;;
     for_each (seq 1 (n - 1))
       (λ i, l ← loops_at i; ev_async_stop l (PWaker i) ;; ev_loop_destroy l) ;;
     (l ← loops_at 0; ev_async_stop l (PWaker 0)) ;;
     ev_default_destroy ;;
     for_each (seq 0 n) (λ i, emit (A_delete_thread i) ;; emit (A_delete_waker i)) ;;
     emit A_delete_loops ;;
     emit A_delete_threads ;;
     emit A_delete_wakers).
Proof.
  intros Hn.
  eapply winds_down_weaken; [|
    apply winds_down_bind;
      [apply (winds_down_for_each n (λ _ _, False)); intros; apply winds_down_emit|];
    apply winds_down_bind;
      [apply (winds_down_for_each n (λ _ _, False)); intros; apply winds_down_emit|];
    apply winds_down_bind; [apply winds_down_wait|];
    apply winds_down_bind;
      [apply (winds_down_for_each n (λ x i, i = x)); intros x [_ Hx]%elem_of_seq;
       apply winds_down_loops_at; [lia|];
       apply (winds_down_weaken n (λ i, i = x ∨ False));
         [by left|apply winds_down_bind;
                    [by apply winds_down_ev_async_stop; lia|apply winds_down_emit]]|];
    apply winds_down_bind;
      [apply winds_down_loops_at; [lia|apply winds_down_ev_async_stop; lia]|];
    apply winds_down_bind; [apply winds_down_emit|];
    apply winds_down_bind;
      [apply (winds_down_for_each n (λ _ _, False)); intros;
       apply (winds_down_weaken n (λ _, False ∨ False));
         [by intros ? []|apply winds_down_bind; apply winds_down_emit]|];
    apply winds_down_bind; [apply winds_down_emit|];
    apply winds_down_bind; apply winds_down_emit].
  intros i Hi. cbn beta.
  destruct i as [|i].
  - do 4 right. by left.
  - do 3 right. left. exists (S i). split; [|done]. apply elem_of_seq. lia.
Qed.

(** X20: the destructor touches no watcher.  It returns with every waker
    stopped, but the watchers that were installed and not uninstalled are
    all still on the heap as they were, registered with their loops: none
    is stopped, none is deleted, and no task is invoked. *)
Theorem destructor_leaves_watchers_alone (s : Scheduler) (running : nat → bool) :
  reachable s →
  ∃ s', SchedulerLibev_destroy running s = Ok tt s'
    ∧ heap s' = heap s
    ∧ next s' = next s
    ∧ evloops s' = evloops s
    ∧ invocations s' = invocations s
    ∧ length (_wakers s') = nrThreads s
    ∧ ∀ i k, _wakers s' !! i = Some k → wk_reg k = None.
Proof.
  intros Hr. pose proof (reachable_inv s Hr) as Hinv.
  pose proof Hinv as (Hn & _ & Hlen & _).
  destruct (destructor_winds_down (nrThreads s) running Hn s Hinv eq_refl)
    as (s' & H1 & _ & (_ & _ & Hh & Hnx & He & _ & Hi & Hl & _) & Hs).
  exists s'. split; [exact H1|]. split_and!; try done; [congruence|].
  intros i k Hk. apply (Hs i k); [|done].
  apply lookup_lt_Some in Hk. lia.
Qed.

Lemma destructor_leaves_watchers_alone_witness :
  ∃ s', SchedulerLibev_destroy (λ _, false) with_timer = Ok tt s'
    ∧ heap s' = heap with_timer
    ∧ next s' = next with_timer
    ∧ evloops s' = evloops with_timer
    ∧ invocations s' = invocations with_timer
    ∧ length (_wakers s') = nrThreads with_timer
    ∧ ∀ i k, _wakers s' !! i = Some k → wk_reg k = None.
Proof.
  apply (destructor_leaves_watchers_alone with_timer (λ _, false)).
  apply (reach_ok (C_install (I_timer 5) 0 (Some 7%nat)) two_loops).
  - apply (reach_new 2 0 {[7%nat]} unborn). reflexivity.
  - reflexivity.
Defined.
